(** * Node inventory loading (pkg/clusterd/inventory/node.go)

    A shallow embedding of the read path of the inventory package: the
    bulk loader [loadNodeConfig], the IP accessor [GetIpAddress], the tree
    decoder [loadHardwareConfig] with its category parsers, and the helper
    [parseKeyValuePairString].

    Go pointers to a [NodeConfig] that the callee mutates are modelled by a
    state monad whose state survives an error return; [log.Printf] is
    modelled by a trace of emitted entries; a nil dereference is a separate
    [Panic] outcome. *)

From Stdlib Require Import ZArith String Ascii List Lia Bool.
From stdpp Require Import base list strings gmap.

Open Scope string_scope.
Open Scope Z_scope.
Open Scope list_scope.

(** ** The etcd client's data: [etcd.Node] and [etcd.Response] *)

Unset Elimination Schemes.
Inductive Node : Type :=
  mkNode { Key : string; Dir : bool; Value : string; Nodes : list Node }.
Set Elimination Schemes.

Record Response : Type := mkResponse { RespNode : option Node }.

(** [n] with its children replaced, every other field kept. *)
Definition with_Nodes (n : Node) (children : list Node) : Node :=
  mkNode (Key n) (Dir n) (Value n) children.

(** ** Go [error] values met on the read path *)

Inductive NumErr : Type :=
| ErrSyntax
| ErrRange
| ErrBitSize (bitSize : Z).   (* errors.New("invalid bit size " + Itoa(bitSize)) *)

Inductive error : Type :=
| errors_New (text : string)                     (* errors.New(text) *)
| fmt_Errorf (format : string) (arg : string)    (* fmt.Errorf(format, arg) *)
| NumError (Func Num : string) (Err : NumErr)    (* *strconv.NumError *)
| EtcdError (code : Z) (message : string)        (* etcd client.Error *)
| OtherError (text : string).                    (* any other error value *)

(** ** Outcomes, the log trace and the monad *)

Inductive result (A : Type) : Type :=
| Ok (a : A)
| Err (e : error)
| Panic (reason : string).
Arguments Ok {A} a.
Arguments Err {A} e.
Arguments Panic {A} reason.

Inductive LogArg : Type :=
| ArgStr (s : string)
| ArgInt (n : Z)
| ArgErr (e : error)
| ArgNode (n : Node).

Record LogEntry : Type := Printf { format : string; args : list LogArg }.

(** A computation over a mutable object of type [St]: it emits log entries,
    leaves the object in some state (also when it fails) and returns. *)
Definition M (St A : Type) : Type := St -> list LogEntry * St * result A.

Definition ret {St A} (a : A) : M St A := fun s => ([], s, Ok a).
Definition throw {St A} (e : error) : M St A := fun s => ([], s, Err e).
Definition panic {St A} (reason : string) : M St A := fun s => ([], s, Panic reason).
(** A call returning Go's pair of a value and an error. *)
Definition lift {St A} (r : A + error) : M St A :=
  fun s => ([], s, match r with inl a => Ok a | inr e => Err e end).
Definition modify {St} (f : St -> St) : M St unit := fun s => ([], f s, Ok tt).
Definition log_Printf {St} (fmt : string) (a : list LogArg) : M St unit :=
  fun s => ([Printf fmt a], s, Ok tt).

Definition bind {St A B} (m : M St A) (k : A -> M St B) : M St B :=
  fun s =>
    match m s with
    | (l, s', Ok a) => match k a s' with (l', s'', r) => (l ++ l', s'', r) end
    | (l, s', Err e) => (l, s', Err e)
    | (l, s', Panic p) => (l, s', Panic p)
    end.

(** [if err != nil { log.Printf(...); return err }] around a call. *)
Definition or_log {St A} (m : M St A) (onerr : error -> LogEntry) : M St A :=
  fun s =>
    match m s with
    | (l, s', Err e) => (l ++ [onerr e], s', Err e)
    | r => r
    end.

(** A block working on a fresh local variable of type [T] initialised to
    [init]; the enclosing object is untouched and the final value of the
    local is handed on. A failure inside the block drops the local. *)
Definition local {St T A} (init : T) (m : M T A) : M St T :=
  fun s =>
    match m init with
    | (l, t, Ok _) => (l, s, Ok t)
    | (l, _, Err e) => (l, s, Err e)
    | (l, _, Panic p) => (l, s, Panic p)
    end.

Notation "x <- m ;; k" := (bind m (fun x => k))
  (at level 100, m at next level, right associativity).
Notation "m ;;; k" := (bind m (fun _ => k))
  (at level 100, right associativity).

(** [for i, x := range xs { body }], started at index [i]. *)
Fixpoint range_from {St A} (i : nat) (xs : list A) (body : nat -> A -> M St unit)
  : M St unit :=
  match xs with
  | [] => ret tt
  | x :: xs' => body i x ;;; range_from (S i) xs' body
  end.

Definition range {St A} (xs : list A) (body : nat -> A -> M St unit) : M St unit :=
  range_from 0%nat xs body.

(** Projections of a run. *)
Definition logs_of {St A} (r : list LogEntry * St * result A) : list LogEntry := r.1.1.
Definition state_of {St A} (r : list LogEntry * St * result A) : St := r.1.2.
Definition result_of {St A} (r : list LogEntry * St * result A) : result A := r.2.

Definition is_Ok {A} (r : result A) : bool :=
  match r with Ok _ => true | _ => false end.

(** Two runs that differ at most in what they log. *)
Definition same_outcome {St A} (r1 r2 : list LogEntry * St * result A) : Prop :=
  state_of r1 = state_of r2 /\ result_of r1 = result_of r2.

(** A call that returned an error. *)
Definition fails {A} (r : A + error) : Prop := exists e, r = inr e.

(** A computation without nil dereference. *)
Definition never_panics {St A} (m : M St A) : Prop :=
  forall s reason, result_of (m s) <> Panic reason.

(** A computation that fails whatever the state it starts in. *)
Definition always_fails {St A} (m : M St A) : Prop :=
  forall s, exists e, result_of (m s) = Err e.

(** ** strconv.ParseUint for base 10 (strconv/atoi.go)

    [n] is a uint64; the wrap-around of [n + v] is written out. In base 10
    a byte outside '0'..'9' is a syntax error (a letter yields a digit
    value of at least 10, which is rejected as not below the base).

    A [bitSize] of 0 stands for the width of an [int]; one below 0 or above
    64 is refused. [maxVal] is [uint64(1)<<uint(bitSize) - 1], which at
    width 64 wraps around to the largest uint64. The package calls the
    function with the widths 32 and 64 only. *)

Definition maxUint64 : Z := 2 ^ 64 - 1.

(** [strconv.IntSize], the width of an [int] in bits, on the 64-bit
    targets the daemon is built for. *)
Definition IntSize : Z := 64.

Definition digit_value (d : ascii) : option Z :=
  let c := Z.of_N (N_of_ascii d) in
  if (48 <=? c) && (c <=? 57) then Some (c - 48) else None.

Fixpoint ParseUint_digits (s : string) (n cutoff maxVal : Z) : Z + NumErr :=
  match s with
  | EmptyString => inl n
  | String d rest =>
    match digit_value d with
    | None => inr ErrSyntax
    | Some v =>
      if cutoff <=? n then inr ErrRange
      else
        let n10 := (n * 10) mod 2 ^ 64 in
        let n1 := (n10 + v) mod 2 ^ 64 in
        if (n1 <? n10) || (maxVal <? n1) then inr ErrRange
        else ParseUint_digits rest n1 cutoff maxVal
    end
  end.

Definition ParseUint (s : string) (bitSize : Z) : Z + error :=
  match s with
  | EmptyString => inr (NumError "ParseUint" s ErrSyntax)
  | _ =>
    if negb (bitSize =? 0) && ((bitSize <? 0) || (64 <? bitSize)) then
      inr (NumError "ParseUint" s (ErrBitSize bitSize))
    else
      let bitSize := if bitSize =? 0 then IntSize else bitSize in
      let maxVal := (Z.shiftl 1 bitSize mod 2 ^ 64 - 1) mod 2 ^ 64 in
      match ParseUint_digits s 0 (maxUint64 / 10 + 1) maxVal with
      | inl n => inl n
      | inr e => inr (NumError "ParseUint" s e)
      end
  end.

(** ** The etcd client

    [Get] is the client's [KeysAPI.Get(ctx, key, opts)], read against one
    snapshot of the store: within a load the same key and options give the
    same answer. *)

Record GetOptions : Type := mkGetOptions { Recursive : bool }.

Record KeysAPI : Type := mkKeysAPI {
  Get : string -> option GetOptions -> Response + error
}.

(** ** What the package takes from outside this file

    Declarations of the package and of its [util] sibling that live in
    other files, and the two library routines that are not modelled in
    detail ([strconv.ParseFloat], [path.Join]). The property-name constants
    are the case labels of a Go [switch], hence pairwise distinct. *)

Class Env : Type := {
  float64 : Type;
  float64_zero : float64;
  ParseFloat : string -> Z -> float64 + error;
  ParseFloat_empty :
    forall bitSize, ParseFloat "" bitSize = inr (NumError "ParseFloat" "" ErrSyntax);
  DiskConfig : Type;
  DiskConfig_zero : DiskConfig;
  GetDiskInfo : Node -> DiskConfig + error;
  GetLeafKeyPath : string -> string;
  IsEtcdKeyNotFound : error -> bool;
  GetDirChildKeys : KeysAPI -> string -> list string * option error;
  path_Join : list string -> string;
  DiscoveredNodesKey : string;
  ProcPhysicalIDKey : string;
  ProcSiblingsKey : string;
  ProcCoreIDKey : string;
  ProcNumCoresKey : string;
  ProcSpeedKey : string;
  ProcBitsKey : string;
  MemoryTotalSizeKey : string;
  NetworkIPv4AddressKey : string;
  NetworkIPv6AddressKey : string;
  NetworkSpeedKey : string;
  proc_keys_distinct :
    NoDup [ProcPhysicalIDKey; ProcSiblingsKey; ProcCoreIDKey;
           ProcNumCoresKey; ProcSpeedKey; ProcBitsKey];
  net_keys_distinct :
    NoDup [NetworkIPv4AddressKey; NetworkIPv6AddressKey; NetworkSpeedKey]
}.

Definition IpAddressKey : string := "ipaddress".
Definition DisksKey : string := "disks".
Definition ProcessorsKey : string := "cpu".
Definition NetworkKey : string := "net".
Definition MemoryKey : string := "mem".

Section Inventory.
Context `{E : Env}.

(** ** The inventory model

    The network adapter's [Speed] field is [NetSpeed] here, since the
    projections of the records share one name space. Unsigned fields are
    integers in [Z]; [ParseUint] bounds them. *)

Record ProcessorConfig : Type := mkProcessorConfig {
  ID : Z; PhysicalID : Z; Siblings : Z; CoreID : Z; NumCores : Z;
  Speed : float64; Bits : Z
}.

Record MemoryConfig : Type := mkMemoryConfig { TotalSize : Z }.

Record NetworkConfig : Type := mkNetworkConfig {
  Name : string; IPv4Address : string; IPv6Address : string; NetSpeed : Z
}.

Record NodeConfig : Type := mkNodeConfig {
  IPAddress : string;
  Disks : list DiskConfig;
  Processors : list ProcessorConfig;
  Memory : MemoryConfig;
  NetworkAdapters : list NetworkConfig
}.

(** Zero values, as produced by [T{}] and by [make([]T, n)]. *)
Definition ProcessorConfig_zero : ProcessorConfig :=
  mkProcessorConfig 0 0 0 0 0 float64_zero 0.
Definition MemoryConfig_zero : MemoryConfig := mkMemoryConfig 0.
Definition NetworkConfig_zero : NetworkConfig := mkNetworkConfig "" "" "" 0.
Definition NodeConfig_zero : NodeConfig :=
  mkNodeConfig "" [] [] MemoryConfig_zero [].

(** Field assignments. *)
Definition set_ID v (p : ProcessorConfig) :=
  mkProcessorConfig v (PhysicalID p) (Siblings p) (CoreID p) (NumCores p) (Speed p) (Bits p).
Definition set_PhysicalID v (p : ProcessorConfig) :=
  mkProcessorConfig (ID p) v (Siblings p) (CoreID p) (NumCores p) (Speed p) (Bits p).
Definition set_Siblings v (p : ProcessorConfig) :=
  mkProcessorConfig (ID p) (PhysicalID p) v (CoreID p) (NumCores p) (Speed p) (Bits p).
Definition set_CoreID v (p : ProcessorConfig) :=
  mkProcessorConfig (ID p) (PhysicalID p) (Siblings p) v (NumCores p) (Speed p) (Bits p).
Definition set_NumCores v (p : ProcessorConfig) :=
  mkProcessorConfig (ID p) (PhysicalID p) (Siblings p) (CoreID p) v (Speed p) (Bits p).
Definition set_Speed v (p : ProcessorConfig) :=
  mkProcessorConfig (ID p) (PhysicalID p) (Siblings p) (CoreID p) (NumCores p) v (Bits p).
Definition set_Bits v (p : ProcessorConfig) :=
  mkProcessorConfig (ID p) (PhysicalID p) (Siblings p) (CoreID p) (NumCores p) (Speed p) v.

Definition set_TotalSize v (_ : MemoryConfig) := mkMemoryConfig v.

Definition set_Name v (n : NetworkConfig) :=
  mkNetworkConfig v (IPv4Address n) (IPv6Address n) (NetSpeed n).
Definition set_IPv4Address v (n : NetworkConfig) :=
  mkNetworkConfig (Name n) v (IPv6Address n) (NetSpeed n).
Definition set_IPv6Address v (n : NetworkConfig) :=
  mkNetworkConfig (Name n) (IPv4Address n) v (NetSpeed n).
Definition set_NetSpeed v (n : NetworkConfig) :=
  mkNetworkConfig (Name n) (IPv4Address n) (IPv6Address n) v.

Definition set_IPAddress v (c : NodeConfig) :=
  mkNodeConfig v (Disks c) (Processors c) (Memory c) (NetworkAdapters c).
Definition set_Disks v (c : NodeConfig) :=
  mkNodeConfig (IPAddress c) v (Processors c) (Memory c) (NetworkAdapters c).
Definition set_Processors v (c : NodeConfig) :=
  mkNodeConfig (IPAddress c) (Disks c) v (Memory c) (NetworkAdapters c).
Definition set_Memory v (c : NodeConfig) :=
  mkNodeConfig (IPAddress c) (Disks c) (Processors c) v (NetworkAdapters c).
Definition set_NetworkAdapters v (c : NodeConfig) :=
  mkNodeConfig (IPAddress c) (Disks c) (Processors c) (Memory c) v.

(** ** Keys *)

Definition GetNodeConfigKey (nodeID : string) : string :=
  path_Join [DiscoveredNodesKey; nodeID].

(** ** Category parsers *)

(** [numDisks] is [len(disksRootNode.Nodes)], zero for a nil slice. *)
Definition loadDisksConfig (disksRootNode : Node) : M NodeConfig unit :=
  let numDisks := length (Nodes disksRootNode) in
  modify (set_Disks (replicate numDisks DiskConfig_zero)) ;;;
  range (Nodes disksRootNode) (fun i diskInfo =>
    disk <- or_log (lift (GetDiskInfo diskInfo))
              (fun err => Printf "Failed to get disk. err=%v" [ArgErr err]) ;;
    modify (fun nc => set_Disks (<[i := disk]> (Disks nc)) nc)).

(** The [switch] over one processor property. *)
Definition loadProcessorProperty (procProperty : Node) : M ProcessorConfig unit :=
  let procPropertyName := GetLeafKeyPath (Key procProperty) in
  if decide (procPropertyName = ProcPhysicalIDKey) then
    phsyicalId <- lift (ParseUint (Value procProperty) 32) ;;
    modify (set_PhysicalID phsyicalId)
  else if decide (procPropertyName = ProcSiblingsKey) then
    siblings <- lift (ParseUint (Value procProperty) 32) ;;
    modify (set_Siblings siblings)
  else if decide (procPropertyName = ProcCoreIDKey) then
    coreId <- lift (ParseUint (Value procProperty) 32) ;;
    modify (set_CoreID coreId)
  else if decide (procPropertyName = ProcNumCoresKey) then
    numCores <- lift (ParseUint (Value procProperty) 32) ;;
    modify (set_NumCores numCores)
  else if decide (procPropertyName = ProcSpeedKey) then
    speed <- lift (ParseFloat (Value procProperty) 64) ;;
    modify (set_Speed speed)
  else if decide (procPropertyName = ProcBitsKey) then
    numBits <- lift (ParseUint (Value procProperty) 32) ;;
    modify (set_Bits numBits)
  else
    log_Printf "unknown processor property key %s, skipping" [ArgStr procPropertyName].

(** One processor: the local [proc] of the outer loop's body. *)
Definition loadProcessor (procInfo : Node) : M ProcessorConfig unit :=
  procID <- lift (ParseUint (GetLeafKeyPath (Key procInfo)) 32) ;;
  modify (set_ID procID) ;;;
  range (Nodes procInfo) (fun _ procProperty => loadProcessorProperty procProperty).

Definition loadProcessorsConfig (procsRootNode : Node) : M NodeConfig unit :=
  let numProcs := length (Nodes procsRootNode) in
  modify (set_Processors (replicate numProcs ProcessorConfig_zero)) ;;;
  range (Nodes procsRootNode) (fun i procInfo =>
    proc <- local ProcessorConfig_zero (loadProcessor procInfo) ;;
    modify (fun nc => set_Processors (<[i := proc]> (Processors nc)) nc)).

Definition loadMemoryProperty (memProperty : Node) : M MemoryConfig unit :=
  let memPropertyName := GetLeafKeyPath (Key memProperty) in
  if decide (memPropertyName = MemoryTotalSizeKey) then
    size <- lift (ParseUint (Value memProperty) 64) ;;
    modify (set_TotalSize size)
  else
    log_Printf "unknown memory property key %s, skipping" [ArgStr memPropertyName].

Definition loadMemoryConfig (memoryRootNode : Node) : M NodeConfig unit :=
  mem <- local MemoryConfig_zero
           (range (Nodes memoryRootNode) (fun _ memProperty => loadMemoryProperty memProperty)) ;;
  modify (set_Memory mem).

Definition loadNetworkProperty (netProperty : Node) : M NetworkConfig unit :=
  let netPropertyName := GetLeafKeyPath (Key netProperty) in
  if decide (netPropertyName = NetworkIPv4AddressKey) then
    modify (set_IPv4Address (Value netProperty))
  else if decide (netPropertyName = NetworkIPv6AddressKey) then
    modify (set_IPv6Address (Value netProperty))
  else if decide (netPropertyName = NetworkSpeedKey) then
    if decide (Value netProperty = "") then
      modify (set_NetSpeed 0)
    else
      speed <- lift (ParseUint (Value netProperty) 64) ;;
      modify (set_NetSpeed speed)
  else
    log_Printf "unknown network adapter property key %s, skipping" [ArgStr netPropertyName].

(** One adapter: the local [net] of the outer loop's body. *)
Definition loadNetworkAdapter (netInfo : Node) : M NetworkConfig unit :=
  modify (set_Name (GetLeafKeyPath (Key netInfo))) ;;;
  range (Nodes netInfo) (fun _ netProperty => loadNetworkProperty netProperty).

Definition loadNetworkConfig (networkRootNode : Node) : M NodeConfig unit :=
  let numNics := length (Nodes networkRootNode) in
  modify (set_NetworkAdapters (replicate numNics NetworkConfig_zero)) ;;;
  range (Nodes networkRootNode) (fun i netInfo =>
    net <- local NetworkConfig_zero (loadNetworkAdapter netInfo) ;;
    modify (fun nc => set_NetworkAdapters (<[i := net]> (NetworkAdapters nc)) nc)).

Definition loadIPAddressConfig (ipAddressNode : Node) : M NodeConfig unit :=
  if Dir ipAddressNode then
    throw (fmt_Errorf "IP address node '%s' is a directory, but it's expected to be a key"
                      (Key ipAddressNode))
  else
    modify (set_IPAddress (Value ipAddressNode)).

(** ** The tree decoder *)

(** The [switch] over one child of the subtree root. *)
Definition loadHardwareComponent (nodeId : string) (nodeConfigRoot : Node)
  : M NodeConfig unit :=
  let leaf := GetLeafKeyPath (Key nodeConfigRoot) in
  if decide (leaf = DisksKey) then
    or_log (loadDisksConfig nodeConfigRoot) (fun err =>
      Printf "failed to load disk config for node %s, %v" [ArgStr nodeId; ArgErr err])
  else if decide (leaf = ProcessorsKey) then
    or_log (loadProcessorsConfig nodeConfigRoot) (fun err =>
      Printf "failed to load processor config for node %s, %v" [ArgStr nodeId; ArgErr err])
  else if decide (leaf = MemoryKey) then
    or_log (loadMemoryConfig nodeConfigRoot) (fun err =>
      Printf "failed to load memory config for node %s, %v" [ArgStr nodeId; ArgErr err])
  else if decide (leaf = NetworkKey) then
    or_log (loadNetworkConfig nodeConfigRoot) (fun err =>
      Printf "failed to load network config for node %s, %v" [ArgStr nodeId; ArgErr err])
  else if decide (leaf = IpAddressKey) then
    or_log (loadIPAddressConfig nodeConfigRoot) (fun err =>
      Printf "failed to load IP address config for node %s, %v" [ArgStr nodeId; ArgErr err])
  else
    log_Printf "unexpected hardware component: %s, skipping..." [ArgNode nodeConfigRoot].

Definition loadHardwareConfig (nodeId : string) (nodeInfo : option Response)
  : M NodeConfig unit :=
  match nodeInfo with
  | None => throw (errors_New "hardware info missing")
  | Some r =>
    match RespNode r with
    | None => throw (errors_New "hardware info missing")
    | Some root =>
      range (Nodes root) (fun _ nodeConfigRoot => loadHardwareComponent nodeId nodeConfigRoot)
    end
  end.

(** ** The IP accessor *)

(** [val.Node.Value] dereferences [val.Node]; a nil there panics. *)
Definition GetIpAddress {St} (etcdClient : KeysAPI) (nodeId : string) : M St string :=
  let key := path_Join [GetNodeConfigKey nodeId; IpAddressKey] in
  val <- or_log (lift (Get etcdClient key None)) (fun err =>
           Printf "FAILED TO GET nodeID for %s. %v" [ArgStr nodeId; ArgErr err]) ;;
  match RespNode val with
  | None => panic "invalid memory address or nil pointer dereference"
  | Some n => ret (Value n)
  end.

(** ** The bulk loader *)

(** The tail of the loop body, from the IP fetch on. *)
Definition loadNodeConfig_ip (etcdClient : KeysAPI) (node : string) (nodeConfig : NodeConfig)
  : M (gmap string NodeConfig) unit :=
  ipAddr <- or_log (GetIpAddress etcdClient node) (fun err =>
              Printf "failed to get IP address for node %s, %+v" [ArgStr node; ArgErr err]) ;;
  modify (fun nodesConfig => <[node := set_IPAddress ipAddr nodeConfig]> nodesConfig).

(** The loop body; falling off the first branch is the [continue]. *)
Definition loadNodeConfig_body (etcdClient : KeysAPI) (node : string)
  : M (gmap string NodeConfig) unit :=
  let configKey := GetNodeConfigKey node in
  match Get etcdClient configKey (Some (mkGetOptions true)) with
  | inr err =>
    if IsEtcdKeyNotFound err then
      log_Printf "skipping node %s with no hardware discovered" [ArgStr node]
    else
      log_Printf "failed to get hardware info from etcd for node %s, %v"
                 [ArgStr node; ArgErr err] ;;;
      loadNodeConfig_ip etcdClient node NodeConfig_zero
  | inl nodeInfo =>
    nodeConfig <- local NodeConfig_zero
                    (or_log (loadHardwareConfig node (Some nodeInfo)) (fun err =>
                       Printf "failed to parse hardware config for node %s, %v"
                              [ArgStr node; ArgErr err])) ;;
    loadNodeConfig_ip etcdClient node nodeConfig
  end.

(** The loop over [nodes.Iter()], in the order the set yields its ids. *)
Definition loadNodeConfig_loop (etcdClient : KeysAPI) (nodes : list string)
  : M (gmap string NodeConfig) unit :=
  range nodes (fun _ node => loadNodeConfig_body etcdClient node).

(** The pair [(nodesConfig, nil)] is [Ok nodesConfig]; [(nil, err)] is
    [Err err]. *)
Definition loadNodeConfig (etcdClient : KeysAPI)
  : list LogEntry * result (gmap string NodeConfig) :=
  let '(nodes, err) := GetDirChildKeys etcdClient DiscoveredNodesKey in
  let l0 := [Printf "Discovered %d nodes" [ArgInt (Z.of_nat (length nodes))]] in
  match err with
  | Some err =>
    (l0 ++ [Printf "failed to get the node ids. err=%s" [ArgErr err]], Err err)
  | None =>
    match loadNodeConfig_loop etcdClient nodes ∅ with
    | (l, nodesConfig, Ok _) => (l0 ++ l, Ok nodesConfig)
    | (l, _, Err e) => (l0 ++ l, Err e)
    | (l, _, Panic p) => (l0 ++ l, Panic p)
    end
  end.

End Inventory.

(** ** parseKeyValuePairString *)

(** [strings.Split(s, sep)] for a one-byte separator: the pieces of [s]
    between successive occurrences of [sep], always at least one piece. *)
Fixpoint strings_Split (s : string) (sep : ascii) : list string :=
  match s with
  | EmptyString => [EmptyString]
  | String c rest =>
    if decide (c = sep) then EmptyString :: strings_Split rest sep
    else
      match strings_Split rest sep with
      | t :: ts => String c t :: ts
      | [] => [String c EmptyString]
      end
  end.

(** [strings.Replace(s, old, new, -1)] for a one-byte [old]. *)
Fixpoint strings_Replace (s : string) (old : ascii) (new : string) : string :=
  match s with
  | EmptyString => EmptyString
  | String c rest =>
    if decide (c = old) then String.append new (strings_Replace rest old new)
    else String c (strings_Replace rest old new)
  end.

Definition space : ascii := " "%char.
Definition equals : ascii := "="%char.
Definition dquote : ascii := ascii_of_nat 34.

Definition parseKeyValuePairString (propsRaw : string) : gmap string string :=
  let props := strings_Split propsRaw space in
  foldl (fun (propMap : gmap string string) kvpRaw =>
           let kvp := strings_Split kvpRaw equals in
           if decide (length kvp = 2%nat) then
             <[nth 0 kvp EmptyString := strings_Replace (nth 1 kvp EmptyString) dquote EmptyString]> propMap
           else propMap)
        ∅ props.

(** *** The helper as the specification words it

    A token counts when it holds exactly one '='; its key is what stands
    before that sign, its value what stands after it without the double
    quotes; of two pairs with one key the later one stays. *)

Fixpoint count_byte (c : ascii) (s : string) : nat :=
  match s with
  | EmptyString => 0%nat
  | String d rest => ((if decide (d = c) then 1 else 0) + count_byte c rest)%nat
  end.

Fixpoint before_byte (c : ascii) (s : string) : string :=
  match s with
  | EmptyString => EmptyString
  | String d rest => if decide (d = c) then EmptyString else String d (before_byte c rest)
  end.

Fixpoint after_byte (c : ascii) (s : string) : string :=
  match s with
  | EmptyString => EmptyString
  | String d rest => if decide (d = c) then rest else after_byte c rest
  end.

Fixpoint without_byte (c : ascii) (s : string) : string :=
  match s with
  | EmptyString => EmptyString
  | String d rest => if decide (d = c) then without_byte c rest else String d (without_byte c rest)
  end.

Definition pair_of_token (t : string) : option (string * string) :=
  if decide (count_byte equals t = 1%nat)
  then Some (before_byte equals t, without_byte dquote (after_byte equals t))
  else None.

Definition parseKeyValuePairString_spec (propsRaw : string) : gmap string string :=
  list_to_map (reverse (omap pair_of_token (strings_Split propsRaw space))).

(** [strings.Join] with a one-byte separator, to state what [strings_Split]
    computes. *)
Fixpoint join_with (sep : ascii) (parts : list string) : string :=
  match parts with
  | [] => EmptyString
  | [t] => t
  | t :: ts => String.append t (String sep (join_with sep ts))
  end.

(** ** A sample environment and sample stores

    Used to run the model on concrete inputs. *)

Module Sample.

(** Modelled from the spec: [util.GetLeafKeyPath], which is not in this
    file; "returns the final path segment of a hierarchical key". *)
Definition GetLeafKeyPath (key : string) : string :=
  List.last (strings_Split key "/"%char) EmptyString.

(** Modelled from the spec: [util.IsEtcdKeyNotFound], which is not in this
    file; the store's "distinguishable key not found error variant" is the
    etcd error with code 100. *)
Definition IsEtcdKeyNotFound (err : error) : bool :=
  match err with
  | EtcdError code _ => code =? 100
  | _ => false
  end.

(** Modelled from the spec: [util.GetDirChildKeys], which is not in this
    file; "list the directory of known node ids", the ids being the leaf
    segments of the directory's children. *)
Definition GetDirChildKeys (c : KeysAPI) (key : string) : list string * option error :=
  match Get c key None with
  | inl r =>
    match RespNode r with
    | Some n => (map (fun child => GetLeafKeyPath (Key child)) (Nodes n), None)
    | None => ([], None)
    end
  | inr err => if IsEtcdKeyNotFound err then ([], None) else ([], Some err)
  end.

(** [path.Join] on segments that need no cleaning. *)
Definition path_Join (segments : list string) : string :=
  join_with "/"%char segments.

(** A stand-in for [strconv.ParseFloat]: it accepts the unsigned decimal
    integers and yields their value. *)
Definition ParseFloat (s : string) (bitSize : Z) : Z + error :=
  match ParseUint s 64 with
  | inl n => inl n
  | inr _ => inr (NumError "ParseFloat" s ErrSyntax)
  end.

(** A stand-in for the disk decoder of disk.go: a disk is its key's leaf
    segment, and a directory without children is refused. *)
Definition GetDiskInfo (diskInfo : Node) : string + error :=
  match Nodes diskInfo with
  | [] => inr (OtherError "no disk properties")
  | _ => inl (GetLeafKeyPath (Key diskInfo))
  end.

Definition ParseFloat_empty (bitSize : Z) :
  ParseFloat "" bitSize = inr (NumError "ParseFloat" "" ErrSyntax) := eq_refl.

Definition proc_keys_distinct :
  NoDup ["physicalid"; "siblings"; "coreid"; "numcores"; "speed"; "bits"]%string.
Proof. apply (bool_decide_unpack _). vm_compute. exact I. Qed.

Definition net_keys_distinct :
  NoDup ["ipv4address"; "ipv6address"; "speed"]%string.
Proof. apply (bool_decide_unpack _). vm_compute. exact I. Qed.

Definition leaf (key value : string) : Node := mkNode key false value [].
Definition dir (key : string) (children : list Node) : Node := mkNode key true "" children.

(** A store given by a table; a key outside the table is not found. *)
Definition notFound : error := EtcdError 100 "Key not found".
Definition timeout : error := OtherError "context deadline exceeded".

Definition client (table : list (string * bool * (Response + error))) : KeysAPI :=
  mkKeysAPI (fun key opts =>
    let recursive := match opts with Some o => Recursive o | None => false end in
    match list_find (fun row => row.1 = (key, recursive)) table with
    | Some (_, row) => row.2
    | None => inr notFound
    end).

Definition found (n : Node) : Response + error := inl (mkResponse (Some n)).

End Sample.

(** Property names as in the namespace layout of the specification. *)
#[export] Instance sample_env : Env := {|
  float64 := Z;
  float64_zero := 0;
  ParseFloat := Sample.ParseFloat;
  ParseFloat_empty := Sample.ParseFloat_empty;
  DiskConfig := string;
  DiskConfig_zero := EmptyString;
  GetDiskInfo := Sample.GetDiskInfo;
  GetLeafKeyPath := Sample.GetLeafKeyPath;
  IsEtcdKeyNotFound := Sample.IsEtcdKeyNotFound;
  GetDirChildKeys := Sample.GetDirChildKeys;
  path_Join := Sample.path_Join;
  DiscoveredNodesKey := "/castle/nodes";
  ProcPhysicalIDKey := "physicalid";
  ProcSiblingsKey := "siblings";
  ProcCoreIDKey := "coreid";
  ProcNumCoresKey := "numcores";
  ProcSpeedKey := "speed";
  ProcBitsKey := "bits";
  MemoryTotalSizeKey := "totalsize";
  NetworkIPv4AddressKey := "ipv4address";
  NetworkIPv6AddressKey := "ipv6address";
  NetworkSpeedKey := "speed";
  proc_keys_distinct := Sample.proc_keys_distinct;
  net_keys_distinct := Sample.net_keys_distinct
|}.

(** ** Vocabulary of the properties *)

Section Vocabulary.
Context `{E : Env}.

(** A recognised leaf whose text its parser rejects. *)
Definition malformed_processor_property (p : Node) : Prop :=
  let name := GetLeafKeyPath (Key p) in
  (name ∈ [ProcPhysicalIDKey; ProcSiblingsKey; ProcCoreIDKey; ProcNumCoresKey; ProcBitsKey]
   /\ fails (ParseUint (Value p) 32))
  \/ (name = ProcSpeedKey /\ fails (ParseFloat (Value p) 64)).

Definition malformed_processor (procInfo : Node) : Prop :=
  fails (ParseUint (GetLeafKeyPath (Key procInfo)) 32)
  \/ exists p, p ∈ Nodes procInfo /\ malformed_processor_property p.

Definition malformed_memory_property (p : Node) : Prop :=
  GetLeafKeyPath (Key p) = MemoryTotalSizeKey /\ fails (ParseUint (Value p) 64).

Definition malformed_network_property (p : Node) : Prop :=
  GetLeafKeyPath (Key p) = NetworkSpeedKey /\ Value p <> EmptyString
  /\ fails (ParseUint (Value p) 64).

Definition malformed_category (c : Node) : Prop :=
  (GetLeafKeyPath (Key c) = ProcessorsKey
   /\ exists procInfo, procInfo ∈ Nodes c /\ malformed_processor procInfo)
  \/ (GetLeafKeyPath (Key c) = MemoryKey
      /\ exists p, p ∈ Nodes c /\ malformed_memory_property p)
  \/ (GetLeafKeyPath (Key c) = NetworkKey
      /\ exists netInfo p, netInfo ∈ Nodes c /\ p ∈ Nodes netInfo
                           /\ malformed_network_property p).

Definition malformed_subtree (root : Node) : Prop :=
  exists c, c ∈ Nodes root /\ malformed_category c.

(** Names no [switch] recognises. *)
Definition unknown_category (name : string) : Prop :=
  name ∉ [DisksKey; ProcessorsKey; MemoryKey; NetworkKey; IpAddressKey].
Definition unknown_processor_property (name : string) : Prop :=
  name ∉ [ProcPhysicalIDKey; ProcSiblingsKey; ProcCoreIDKey; ProcNumCoresKey;
          ProcSpeedKey; ProcBitsKey].
Definition unknown_memory_property (name : string) : Prop :=
  name <> MemoryTotalSizeKey.
Definition unknown_network_property (name : string) : Prop :=
  name ∉ [NetworkIPv4AddressKey; NetworkIPv6AddressKey; NetworkSpeedKey].

(** [root'] is [root] with one more child [u] of an unrecognised name:
    at the top level, among the properties of one processor, among the
    memory properties, or among the properties of one adapter. *)
Inductive adds_unknown_key : Node -> Node -> Prop :=
| add_category root a b u :
    Nodes root = a ++ b ->
    unknown_category (GetLeafKeyPath (Key u)) ->
    adds_unknown_key root (with_Nodes root (a ++ u :: b))
| add_processor_property root A B cpu P1 P2 p a b u :
    Nodes root = A ++ cpu :: B ->
    GetLeafKeyPath (Key cpu) = ProcessorsKey ->
    Nodes cpu = P1 ++ p :: P2 ->
    Nodes p = a ++ b ->
    unknown_processor_property (GetLeafKeyPath (Key u)) ->
    adds_unknown_key root
      (with_Nodes root
         (A ++ with_Nodes cpu (P1 ++ with_Nodes p (a ++ u :: b) :: P2) :: B))
| add_memory_property root A B mem a b u :
    Nodes root = A ++ mem :: B ->
    GetLeafKeyPath (Key mem) = MemoryKey ->
    Nodes mem = a ++ b ->
    unknown_memory_property (GetLeafKeyPath (Key u)) ->
    adds_unknown_key root (with_Nodes root (A ++ with_Nodes mem (a ++ u :: b) :: B))
| add_network_property root A B net P1 P2 p a b u :
    Nodes root = A ++ net :: B ->
    GetLeafKeyPath (Key net) = NetworkKey ->
    Nodes net = P1 ++ p :: P2 ->
    Nodes p = a ++ b ->
    unknown_network_property (GetLeafKeyPath (Key u)) ->
    adds_unknown_key root
      (with_Nodes root
         (A ++ with_Nodes net (P1 ++ with_Nodes p (a ++ u :: b) :: P2) :: B)).

(** The children of the category subtree named [category], given the
    children of the subtree root: those of the last child with that leaf
    segment, none when there is no such child. *)
Definition category_children (category : string) (children : list Node) : list Node :=
  match list_find (fun c => GetLeafKeyPath (Key c) = category) (reverse children) with
  | Some (_, c) => Nodes c
  | None => []
  end.

(** What one child of a category decodes to. *)
Definition decodes_disk (diskInfo : Node) (d : DiskConfig) : Prop :=
  GetDiskInfo diskInfo = inl d.
Definition decodes_processor (procInfo : Node) (p : ProcessorConfig) : Prop :=
  let r := loadProcessor procInfo ProcessorConfig_zero in
  result_of r = Ok tt /\ state_of r = p.
Definition decodes_adapter (netInfo : Node) (n : NetworkConfig) : Prop :=
  let r := loadNetworkAdapter netInfo NetworkConfig_zero in
  result_of r = Ok tt /\ state_of r = n.

(** The three sequences of [cfg] hold, position by position, what the
    children of their category subtrees decode to. *)
Definition decoded_sequences (children : list Node) (cfg : NodeConfig) : Prop :=
  Forall2 decodes_disk (category_children DisksKey children) (Disks cfg)
  /\ Forall2 decodes_processor (category_children ProcessorsKey children) (Processors cfg)
  /\ Forall2 decodes_adapter (category_children NetworkKey children) (NetworkAdapters cfg).

(** The key the IP accessor reads. *)
Definition ipAddressKeyOf (nodeId : string) : string :=
  path_Join [GetNodeConfigKey nodeId; IpAddressKey].

Definition recursive : option GetOptions := Some (mkGetOptions true).

(** Every entry of the mapping under construction holds the address the
    accessor reads for its key, and its key's subtree fetch was not
    answered by not-found. *)
Definition entries_from_accessor (etcdClient : KeysAPI) (m : gmap string NodeConfig) : Prop :=
  forall node cfg, m !! node = Some cfg ->
    (exists resp n, Get etcdClient (ipAddressKeyOf node) None = inl resp
                    /\ RespNode resp = Some n /\ IPAddress cfg = Value n)
    /\ forall err, Get etcdClient (GetNodeConfigKey node) recursive = inr err ->
                   IsEtcdKeyNotFound err = false.

End Vocabulary.

(** ** Sample subtrees and stores *)

Module Data.
Import Sample.

(** A well-formed subtree, with one unrecognised property and one
    unrecognised category. *)
Definition cpu0 : Node :=
  dir "/castle/nodes/b/cpu/0"
    [leaf "/castle/nodes/b/cpu/0/physicalid" "3";
     leaf "/castle/nodes/b/cpu/0/speed" "2400"].
Definition cpu1 : Node :=
  dir "/castle/nodes/b/cpu/1" [leaf "/castle/nodes/b/cpu/1/bits" "64"].
Definition cpuB : Node := dir "/castle/nodes/b/cpu" [cpu0; cpu1].
Definition memB : Node :=
  dir "/castle/nodes/b/mem" [leaf "/castle/nodes/b/mem/totalsize" "18446744073709551615"].
Definition eth0 : Node :=
  dir "/castle/nodes/b/net/eth0"
    [leaf "/castle/nodes/b/net/eth0/speed" "";
     leaf "/castle/nodes/b/net/eth0/ipv4address" "1.2.3.4"].
Definition netB : Node := dir "/castle/nodes/b/net" [eth0].
Definition disksB : Node :=
  dir "/castle/nodes/b/disks"
    [dir "/castle/nodes/b/disks/sda" [leaf "/castle/nodes/b/disks/sda/size" "10"];
     dir "/castle/nodes/b/disks/sdb" [leaf "/castle/nodes/b/disks/sdb/size" "20"]].
Definition ipB : Node := leaf "/castle/nodes/b/ipaddress" "10.0.0.9".

Definition subtreeB : Node :=
  dir "/castle/nodes/b" [cpuB; memB; netB; disksB; ipB].

Definition vendor : Node := leaf "/castle/nodes/b/cpu/0/vendor" "acme".
Definition gpu : Node := dir "/castle/nodes/b/gpu" [].

(** [subtreeB] with the property [vendor] added to processor 0. *)
Definition subtreeB_vendor : Node :=
  with_Nodes subtreeB
    ([] ++ with_Nodes cpuB
             ([] ++ with_Nodes cpu0 ([leaf "/castle/nodes/b/cpu/0/physicalid" "3"]
                                     ++ vendor
                                     :: [leaf "/castle/nodes/b/cpu/0/speed" "2400"])
              :: [cpu1])
     :: [memB; netB; disksB; ipB]).

(** A subtree with a processor property that is no unsigned integer. *)
Definition subtreeD : Node :=
  dir "/castle/nodes/d"
    [dir "/castle/nodes/d/mem" [leaf "/castle/nodes/d/mem/totalsize" "1024"];
     dir "/castle/nodes/d/cpu"
       [dir "/castle/nodes/d/cpu/0" [leaf "/castle/nodes/d/cpu/0/siblings" "x1"]]].

(** A subtree root without children. *)
Definition subtreeE : Node := dir "/castle/nodes/e" [].

(** An [ipaddress] key that is a directory. *)
Definition ipDir : Node :=
  dir "/castle/nodes/f/ipaddress" [leaf "/castle/nodes/f/ipaddress/v4" "10.0.0.6"].
Definition subtreeF : Node := dir "/castle/nodes/f" [ipDir].

(** Nodes a, b, c: a has no subtree and no address; b is well formed;
    the recursive fetch of c times out while its address can be read. *)
Definition store1 : KeysAPI := client
  [("/castle/nodes", false,
    found (dir "/castle/nodes"
             [dir "/castle/nodes/a" []; dir "/castle/nodes/b" []; dir "/castle/nodes/c" []]));
   ("/castle/nodes/b", true, found subtreeB);
   ("/castle/nodes/b/ipaddress", false, found (leaf "/castle/nodes/b/ipaddress" "10.0.0.2"));
   ("/castle/nodes/c", true, inr timeout);
   ("/castle/nodes/c/ipaddress", false, found (leaf "/castle/nodes/c/ipaddress" "10.0.0.3"))].

(** Nodes b and d, d holding the malformed processor property. *)
Definition store2 : KeysAPI := client
  [("/castle/nodes", false,
    found (dir "/castle/nodes" [dir "/castle/nodes/b" []; dir "/castle/nodes/d" []]));
   ("/castle/nodes/b", true, found subtreeB);
   ("/castle/nodes/b/ipaddress", false, found (leaf "/castle/nodes/b/ipaddress" "10.0.0.2"));
   ("/castle/nodes/d", true, found subtreeD);
   ("/castle/nodes/d/ipaddress", false, found (leaf "/castle/nodes/d/ipaddress" "10.0.0.4"))].


Definition configB : NodeConfig :=
  mkNodeConfig "10.0.0.9" ["sda"; "sdb"]%string
    [mkProcessorConfig 0 3 0 0 0 2400 0; mkProcessorConfig 1 0 0 0 0 0 64]
    (mkMemoryConfig 18446744073709551615)
    [mkNetworkConfig "eth0" "1.2.3.4" "" 0].

End Data.

(** ** Vocabulary of the further properties *)

Section LoaderVocabulary.
Context `{E : Env}.

(** What the address fetch makes of a node's config: the entry to store,
    the error to return, or the nil dereference. *)
Definition ip_outcome (etcdClient : KeysAPI) (node : string) (nodeConfig : NodeConfig)
  : result (option NodeConfig) :=
  match Get etcdClient (ipAddressKeyOf node) None with
  | inr e => Err e
  | inl resp =>
    match RespNode resp with
    | None => Panic "invalid memory address or nil pointer dereference"
    | Some n => Ok (Some (set_IPAddress (Value n) nodeConfig))
    end
  end.

(** What one turn of the bulk loader's loop yields for a node, whatever
    the mapping built so far: no entry (the node is skipped), the entry to
    store, the error to return, or a panic. *)
Definition node_outcome (etcdClient : KeysAPI) (node : string)
  : result (option NodeConfig) :=
  match Get etcdClient (GetNodeConfigKey node) recursive with
  | inr err =>
    if IsEtcdKeyNotFound err then Ok None
    else ip_outcome etcdClient node NodeConfig_zero
  | inl resp =>
    match result_of (loadHardwareConfig node (Some resp) NodeConfig_zero) with
    | Ok _ =>
      ip_outcome etcdClient node
        (state_of (loadHardwareConfig node (Some resp) NodeConfig_zero))
    | Err e => Err e
    | Panic p => Panic p
    end
  end.

(** An unsigned integer of the given width. *)
Definition fits (bits n : Z) : Prop := 0 <= n < 2 ^ bits.

(** The widths the parsers are called with: 32 bits for every unsigned
    field of a processor, 64 bits for the memory size and the adapter
    speed. *)
Definition processor_in_range (p : ProcessorConfig) : Prop :=
  fits 32 (ID p) /\ fits 32 (PhysicalID p) /\ fits 32 (Siblings p)
  /\ fits 32 (CoreID p) /\ fits 32 (NumCores p) /\ fits 32 (Bits p).

Definition config_in_range (cfg : NodeConfig) : Prop :=
  Forall processor_in_range (Processors cfg)
  /\ fits 64 (TotalSize (Memory cfg))
  /\ Forall (fun n => fits 64 (NetSpeed n)) (NetworkAdapters cfg).

(** A child of the subtree root that its parser refuses: a category with
    a malformed recognised leaf, a disks category with a disk the disk
    decoder refuses, or an [ipaddress] key that is a directory. *)
Definition failing_category (c : Node) : Prop :=
  malformed_category c
  \/ (GetLeafKeyPath (Key c) = DisksKey
      /\ exists diskInfo, diskInfo ∈ Nodes c /\ fails (GetDiskInfo diskInfo))
  \/ (GetLeafKeyPath (Key c) = IpAddressKey /\ Dir c = true).

End LoaderVocabulary.

(** The text [parseKeyValuePairString] is written for, as in the example
    of its comment: pairs [key="value"] separated by single spaces. *)
Definition render_pair (kv : string * string) : string :=
  String.append kv.1
    (String equals (String dquote (String.append kv.2 (String dquote EmptyString)))).

Definition render_pairs (pairs : list (string * string)) : string :=
  join_with space (map render_pair pairs).

(** A pair that its rendering does not garble: no space and no '=' in the
    key or the value, no double quote in the value. *)
Definition plain_pair (kv : string * string) : Prop :=
  count_byte space kv.1 = 0%nat /\ count_byte equals kv.1 = 0%nat
  /\ count_byte space kv.2 = 0%nat /\ count_byte equals kv.2 = 0%nat
  /\ count_byte dquote kv.2 = 0%nat.

(** The number a string of decimal digits denotes, continuing from [acc];
    none when a byte is no digit. *)
Fixpoint decimal_value (s : string) (acc : Z) : option Z :=
  match s with
  | EmptyString => Some acc
  | String d rest =>
    match digit_value d with
    | Some v => decimal_value rest (acc * 10 + v)
    | None => None
    end
  end.

(** ** Further sample data *)

Module MoreData.
Import Sample Data.

(** A subtree whose second child holds a processor property that is no
    unsigned integer, with a well-formed child before and after it. *)
Definition memG : Node :=
  dir "/castle/nodes/g/mem" [leaf "/castle/nodes/g/mem/totalsize" "2048"].
Definition cpuG : Node :=
  dir "/castle/nodes/g/cpu"
    [dir "/castle/nodes/g/cpu/0" [leaf "/castle/nodes/g/cpu/0/bits" "sixty-four"]].
Definition ipG : Node := leaf "/castle/nodes/g/ipaddress" "10.0.0.7".
Definition subtreeG : Node := dir "/castle/nodes/g" [memG; cpuG; ipG].

(** The output of a disk listing: two pairs in the form [key="value"]. *)
Definition diskPairs : list (string * string) := [("NAME", "sda"); ("SIZE", "10")]%string.

End MoreData.

(** * Proofs *)

(** ** The monad and its loops *)

Section MonadFacts.
Context {St : Type}.

Lemma run_eta {A} (r : list LogEntry * St * result A) :
  r = (logs_of r, state_of r, result_of r).
Proof. by destruct r as [[l s] x]. Qed.

Lemma bind_Ok {A B} (m : M St A) (k : A -> M St B) s l s' a :
  m s = (l, s', Ok a) ->
  bind m k s = (l ++ logs_of (k a s'), state_of (k a s'), result_of (k a s')).
Proof. intros H. unfold bind. rewrite H. by destruct (k a s') as [[l' s''] r]. Qed.

Lemma bind_Err {A B} (m : M St A) (k : A -> M St B) s l s' e :
  m s = (l, s', Err e) -> bind m k s = (l, s', Err e).
Proof. intros H. unfold bind. by rewrite H. Qed.

Lemma same_outcome_refl {A} (r : list LogEntry * St * result A) : same_outcome r r.
Proof. by split. Qed.

Lemma same_outcome_sym {A} (r1 r2 : list LogEntry * St * result A) :
  same_outcome r1 r2 -> same_outcome r2 r1.
Proof. by intros [H1 H2]. Qed.

Lemma same_outcome_trans {A} (r1 r2 r3 : list LogEntry * St * result A) :
  same_outcome r1 r2 -> same_outcome r2 r3 -> same_outcome r1 r3.
Proof. intros [H1 H2] [H3 H4]. split; congruence. Qed.

Lemma bind_same {A B} (m1 m2 : M St A) (k1 k2 : A -> M St B) s1 s2 :
  same_outcome (m1 s1) (m2 s2) ->
  (forall a s', same_outcome (k1 a s') (k2 a s')) ->
  same_outcome (bind m1 k1 s1) (bind m2 k2 s2).
Proof.
  unfold bind, same_outcome, state_of, result_of.
  destruct (m1 s1) as [[l1 t1] r1], (m2 s2) as [[l2 t2] r2]; simpl.
  intros [-> ->] Hk. destruct r2 as [a|e|p]; simpl; try done.
  specialize (Hk a t2).
  by destruct (k1 a t2) as [[? ?] ?], (k2 a t2) as [[? ?] ?].
Qed.

Lemma or_log_same {A} (m1 m2 : M St A) f1 f2 s1 s2 :
  same_outcome (m1 s1) (m2 s2) -> same_outcome (or_log m1 f1 s1) (or_log m2 f2 s2).
Proof.
  unfold or_log, same_outcome, state_of, result_of.
  destruct (m1 s1) as [[l1 t1] r1], (m2 s2) as [[l2 t2] r2]; simpl.
  intros [-> ->]. by destruct r2.
Qed.

Lemma local_same {T A} (init : T) (m1 m2 : M T A) (s : St) :
  same_outcome (m1 init) (m2 init) ->
  same_outcome (local init m1 s) (local init m2 s).
Proof.
  unfold local, same_outcome, state_of, result_of.
  destruct (m1 init) as [[l1 t1] r1], (m2 init) as [[l2 t2] r2]; simpl.
  intros [-> ->]. by destruct r2.
Qed.

Lemma range_from_same {A} (body body' : nat -> A -> M St unit) xs ys :
  Forall2 (fun x y => forall i s, same_outcome (body i x s) (body' i y s)) xs ys ->
  forall i s, same_outcome (range_from i xs body s) (range_from i ys body' s).
Proof.
  induction 1 as [|x y xs ys Hxy _ IH]; intros i s; simpl.
  - apply same_outcome_refl.
  - apply bind_same; [apply Hxy | intros _ s'; apply IH].
Qed.

Lemma range_from_shift {A} (f : A -> M St unit) xs i j :
  range_from i xs (fun _ => f) = range_from j xs (fun _ => f).
Proof.
  revert i j. induction xs as [|x xs IH]; intros i j; simpl; [done|].
  by rewrite (IH (S i) (S j)).
Qed.

(** An element whose body only logs can be dropped from a loop that does
    not look at the index. *)
Lemma range_from_skip {A} (f : A -> M St unit) a u b :
  (forall s, same_outcome (f u s) (ret tt s)) ->
  forall i j s,
    same_outcome (range_from i (a ++ u :: b) (fun _ => f) s)
                 (range_from j (a ++ b) (fun _ => f) s).
Proof.
  intros Hu. induction a as [|x a IH]; intros i j s; simpl.
  - rewrite (range_from_shift f b (S i) j).
    specialize (Hu s). unfold bind, same_outcome, state_of, result_of in *.
    destruct (f u s) as [[l t] r]; simpl in *. destruct Hu as [-> ->].
    by destruct (range_from j b (fun _ => f) s) as [[? ?] ?].
  - apply bind_same; [apply same_outcome_refl | intros _ s'; apply IH].
Qed.

Lemma range_from_replace {A} (body : nat -> A -> M St unit) a x y b :
  (forall i s, same_outcome (body i x s) (body i y s)) ->
  forall i s,
    same_outcome (range_from i (a ++ x :: b) body s) (range_from i (a ++ y :: b) body s).
Proof.
  intros Hxy. induction a as [|z a IH]; intros i s; simpl.
  - apply bind_same; [apply Hxy | intros _ s'; apply same_outcome_refl].
  - apply bind_same; [apply same_outcome_refl | intros _ s'; apply IH].
Qed.

Lemma range_from_app {A} (body : nat -> A -> M St unit) xs ys i s :
  range_from i (xs ++ ys) body s
  = (range_from i xs body ;;; range_from (i + length xs) ys body) s.
Proof.
  revert i s. induction xs as [|x xs IH]; intros i s; simpl.
  - rewrite Nat.add_0_r. unfold bind, ret.
    by destruct (range_from i ys body s) as [[? ?] ?].
  - unfold bind. destruct (body i x s) as [[l t] [[]|e|p]]; try done.
    rewrite IH. replace (i + S (length xs))%nat with (S i + length xs)%nat by lia.
    unfold bind.
    destruct (range_from (S i) xs body t) as [[l1 t1] [[]|e|p]]; try done.
    destruct (range_from (S i + length xs) ys body t1) as [[l2 t2] r2].
    by rewrite app_assoc.
Qed.

(** *** Absence of panics *)

Lemma never_panics_ret {A} (a : A) : never_panics (@ret St A a).
Proof. by intros s p. Qed.
Lemma never_panics_throw {A} e : never_panics (@throw St A e).
Proof. by intros s p. Qed.
Lemma never_panics_lift {A} (r : A + error) : never_panics (@lift St A r).
Proof. intros s p. by destruct r. Qed.
Lemma never_panics_modify f : never_panics (@modify St f).
Proof. by intros s p. Qed.
Lemma never_panics_log fmt a : never_panics (@log_Printf St fmt a).
Proof. by intros s p. Qed.

Lemma never_panics_bind {A B} (m : M St A) (k : A -> M St B) :
  never_panics m -> (forall a, never_panics (k a)) -> never_panics (bind m k).
Proof.
  intros Hm Hk s p. specialize (Hm s). unfold bind, result_of in *.
  destruct (m s) as [[l t] [a|e|q]]; simpl in *; [|done|by destruct (Hm q)].
  specialize (Hk a t p). unfold result_of in Hk. by destruct (k a t) as [[? ?] ?].
Qed.

Lemma never_panics_or_log {A} (m : M St A) f : never_panics m -> never_panics (or_log m f).
Proof.
  intros Hm s p. specialize (Hm s p). unfold or_log, result_of in *.
  by destruct (m s) as [[l t] [a|e|q]].
Qed.

Lemma never_panics_local {T A} (init : T) (m : M T A) :
  never_panics m -> never_panics (@local St T A init m).
Proof.
  intros Hm s p. specialize (Hm init). unfold local, result_of in *.
  destruct (m init) as [[l t] [a|e|q]]; simpl in *; try done.
  by destruct (Hm q).
Qed.

Lemma never_panics_range_from {A} (body : nat -> A -> M St unit) xs :
  (forall i x, never_panics (body i x)) -> forall i, never_panics (range_from i xs body).
Proof.
  intros Hb. induction xs as [|x xs IH]; intros i; simpl.
  - apply never_panics_ret.
  - apply never_panics_bind; [apply Hb | intros _; apply IH].
Qed.

(** *** A loop over a list with a failing element fails *)

Lemma range_from_fails {A} (body : nat -> A -> M St unit) xs x :
  x ∈ xs ->
  (forall i y, never_panics (body i y)) ->
  (forall i, always_fails (body i x)) ->
  forall i, always_fails (range_from i xs body).
Proof.
  intros Hin Hnp Hx. induction Hin as [x xs|x y xs Hin IH]; intros i s; simpl.
  - destruct (Hx i s) as [e He]. unfold bind, result_of in *.
    destruct (body i x s) as [[l t] r]; simpl in *; subst. by exists e.
  - unfold bind. pose proof (Hnp i y s) as Hp. unfold result_of in *.
    destruct (body i y s) as [[l t] [[]|e|p]]; simpl in *.
    + destruct (IH Hx (S i) t) as [e He]. unfold result_of in He.
      destruct (range_from (S i) xs body t) as [[? ?] ?]; simpl in *. by exists e.
    + by exists e.
    + by destruct (Hp p).
Qed.

Lemma always_fails_or_log {A} (m : M St A) f : always_fails m -> always_fails (or_log m f).
Proof.
  intros Hm s. destruct (Hm s) as [e He]. exists e. unfold or_log, result_of in *.
  destruct (m s) as [[l t] r]; simpl in *. by subst.
Qed.

Lemma always_fails_bind_l {A B} (m : M St A) (k : A -> M St B) :
  always_fails m -> always_fails (bind m k).
Proof.
  intros Hm s. destruct (Hm s) as [e He]. exists e. unfold bind, result_of in *.
  destruct (m s) as [[l t] r]; simpl in *. by subst.
Qed.

Lemma always_fails_bind_r {A B} (m : M St A) (k : A -> M St B) :
  never_panics m -> (forall a, always_fails (k a)) -> always_fails (bind m k).
Proof.
  intros Hm Hk s. specialize (Hm s). unfold bind, result_of in *.
  destruct (m s) as [[l t] [a|e|p]]; simpl in *.
  - destruct (Hk a t) as [e He]. exists e. unfold result_of in He.
    destruct (k a t) as [[? ?] ?]; simpl in *. by subst.
  - by exists e.
  - by destruct (Hm p).
Qed.

Lemma always_fails_lift {A} (r : A + error) : fails r -> always_fails (@lift St A r).
Proof. intros [e ->] s. by exists e. Qed.

Lemma always_fails_local {T A} (init : T) (m : M T A) :
  always_fails m -> always_fails (@local St T A init m).
Proof.
  intros Hm s. destruct (Hm init) as [e He]. exists e. unfold local, result_of in *.
  destruct (m init) as [[l t] r]; simpl in *. by subst.
Qed.

(** *** Loops that leave part of the state alone *)

Lemma range_from_preserves {A X} (proj : St -> X) (body : nat -> A -> M St unit) xs :
  (forall i x s, proj (state_of (body i x s)) = proj s) ->
  forall i s, proj (state_of (range_from i xs body s)) = proj s.
Proof.
  intros Hb. induction xs as [|x xs IH]; intros i s; simpl; [done|].
  unfold bind. specialize (Hb i x s). unfold state_of in *.
  destruct (body i x s) as [[l t] [[]|e|p]]; simpl in *; try done.
  specialize (IH (S i) t).
  destruct (range_from (S i) xs body t) as [[? ?] ?]; simpl in *. congruence.
Qed.

Lemma range_from_invariant {A} (P : St -> Prop) (body : nat -> A -> M St unit) xs :
  (forall i x s, P s -> P (state_of (body i x s))) ->
  forall i s, P s -> P (state_of (range_from i xs body s)).
Proof.
  intros Hb. induction xs as [|x xs IH]; intros i s Hs; simpl; [done|].
  unfold bind. specialize (Hb i x s Hs). unfold state_of in *.
  destruct (body i x s) as [[l t] [[]|e|p]]; simpl in *; try done.
  specialize (IH (S i) t Hb).
  by destruct (range_from (S i) xs body t) as [[? ?] ?].
Qed.

(** A loop that returns normally ran every body to a normal return. *)
Lemma range_from_not_Ok {A} (body : nat -> A -> M St unit) xs x :
  x ∈ xs ->
  (forall i s, result_of (body i x s) <> Ok tt) ->
  forall i s, result_of (range_from i xs body s) <> Ok tt.
Proof.
  intros Hin Hx. induction Hin as [x xs|x y xs Hin IH]; intros i s; simpl.
  - specialize (Hx i s). unfold bind, result_of in *.
    destruct (body i x s) as [[l t] [[]|e|p]]; simpl in *; done.
  - unfold bind, result_of in *.
    destruct (body i y s) as [[l t] [[]|e|p]]; simpl; try done.
    specialize (IH Hx (S i) t).
    by destruct (range_from (S i) xs body t) as [[? ?] ?].
Qed.

Lemma bind_fails_first {A B} (m : M St A) (k : A -> M St B) s e :
  result_of (m s) = Err e -> bind m k s = (logs_of (m s), state_of (m s), Err e).
Proof.
  unfold bind, result_of, logs_of, state_of.
  destruct (m s) as [[l t] r]; simpl. by intros ->.
Qed.

(** *** Loops that fill a pre-sized slice position by position *)

Lemma or_log_Ok {A} (m : M St A) f s a :
  result_of (or_log m f s) = Ok a ->
  result_of (m s) = Ok a /\ state_of (or_log m f s) = state_of (m s).
Proof.
  unfold or_log, result_of, state_of. by destruct (m s) as [[l t] [b|e|p]].
Qed.

Lemma fill_loop {A V} (get : St -> list V) (set : list V -> St -> St) (zero : V)
    (item : A -> M St V) (res : A -> result V) :
  (forall l s, get (set l s) = l) ->
  (forall x s, state_of (item x s) = s /\ result_of (item x s) = res x) ->
  forall xs i s done,
    get s = done ++ replicate (length xs) zero ->
    length done = i ->
    result_of (range_from i xs
                 (fun i x => v <- item x ;; modify (fun s => set (<[i := v]> (get s)) s)) s)
    = Ok tt ->
    exists vs,
      get (state_of (range_from i xs
                       (fun i x => v <- item x ;;
                                   modify (fun s => set (<[i := v]> (get s)) s)) s))
      = done ++ vs
      /\ Forall2 (fun x v => res x = Ok v) xs vs.
Proof.
  intros Hgs Hitem.
  set (body := fun (i : nat) (x : A) =>
                 v <- item x ;; modify (fun s => set (<[i := v]> (get s)) s)).
  assert (forall i x s v, res x = Ok v ->
            body i x s = (logs_of (item x s), set (<[i := v]> (get s)) s, Ok tt)) as Hok.
  { intros i x s v Hx. destruct (Hitem x s) as [Hst Hres]. rewrite Hx in Hres.
    unfold body, bind, modify, state_of, result_of, logs_of in *.
    destruct (item x s) as [[l t] r]; simpl in *. subst. by rewrite app_nil_r. }
  assert (forall i x s, (forall v, res x <> Ok v) ->
            result_of (body i x s) <> Ok tt) as Hko.
  { intros i x s Hx. destruct (Hitem x s) as [_ Hres].
    unfold body, bind, result_of in *.
    destruct (item x s) as [[l t] [v|e|p]]; simpl in *; try done.
    by destruct (Hx v). }
  clearbody body.
  induction xs as [|x xs IH]; intros i s done Hget Hlen; simpl.
  - intros _. exists []. split; [cbn; rewrite Hget; done|constructor].
  - destruct (res x) as [v|e|p] eqn:Hx.
    + unfold bind. rewrite (Hok i x s v Hx).
      simpl in Hget. rewrite Hget.
      rewrite insert_app_r_alt by lia. rewrite Hlen, Nat.sub_diag. simpl.
      specialize (IH (S i) (set (done ++ v :: replicate (length xs) zero) s) (done ++ [v])).
      rewrite Hgs, <- app_assoc in IH. simpl in IH.
      specialize (IH eq_refl). rewrite length_app in IH. simpl in IH.
      unfold result_of, state_of in *.
      destruct (range_from (S i) xs body _) as [[l' t'] r']; simpl in *.
      intros Hr. destruct IH as (vs & Hvs & HF); [lia|done|].
      exists (v :: vs). split; [by rewrite Hvs, <- app_assoc|by constructor].
    + intros Hr. exfalso. revert Hr. unfold bind, result_of.
      pose proof (Hko i x s) as Hb. unfold result_of in Hb.
      destruct (body i x s) as [[l t] [[]|e'|p']]; simpl in *; try done.
      destruct Hb; [|done]. intros v. by rewrite Hx.
    + intros Hr. exfalso. revert Hr. unfold bind, result_of.
      pose proof (Hko i x s) as Hb. unfold result_of in Hb.
      destruct (body i x s) as [[l t] [[]|e'|p']]; simpl in *; try done.
      destruct Hb; [|done]. intros v. by rewrite Hx.
Qed.

Lemma fill_loop_frame {A V X} (get : St -> list V) (set : list V -> St -> St)
    (proj : St -> X) (item : A -> M St V) :
  (forall l s, proj (set l s) = proj s) ->
  (forall x s, state_of (item x s) = s) ->
  forall xs i s,
    proj (state_of (range_from i xs
                      (fun i x => v <- item x ;;
                                  modify (fun s => set (<[i := v]> (get s)) s)) s))
    = proj s.
Proof.
  intros Hps Hitem xs. apply range_from_preserves. intros i x s.
  specialize (Hitem x s). unfold bind, modify, state_of in *.
  destruct (item x s) as [[l t] [v|e|p]]; simpl in *; subst; try done.
Qed.

Lemma local_pure {T A} (init : T) (m : M T A) (s : St) :
  state_of (local init m s) = s
  /\ result_of (local init m s)
     = match result_of (m init) with
       | Ok _ => Ok (state_of (m init))
       | Err e => Err e
       | Panic p => Panic p
       end.
Proof.
  unfold local, state_of, result_of. by destruct (m init) as [[l t] [a|e|p]].
Qed.

End MonadFacts.

(** ** The tree decoder and the category parsers *)

Section DecoderFacts.
Context `{E : Env}.

Create HintDb no_panic discriminated.

Ltac no_panic :=
  repeat first
    [ solve [auto 1 with no_panic nocore]
    | apply never_panics_ret | apply never_panics_throw | apply never_panics_lift
    | apply never_panics_modify | apply never_panics_log
    | apply never_panics_or_log | apply never_panics_local
    | apply never_panics_range_from; intros ? ?
    | apply never_panics_bind; [|intros ?]
    | case_decide ].

Lemma loadProcessorProperty_never_panics p : never_panics (loadProcessorProperty p).
Proof. unfold loadProcessorProperty. no_panic. Qed.
#[local] Hint Resolve loadProcessorProperty_never_panics : no_panic.

Lemma loadProcessor_never_panics p : never_panics (loadProcessor p).
Proof. unfold loadProcessor, range. no_panic. Qed.
#[local] Hint Resolve loadProcessor_never_panics : no_panic.

Lemma loadMemoryProperty_never_panics p : never_panics (loadMemoryProperty p).
Proof. unfold loadMemoryProperty. no_panic. Qed.
#[local] Hint Resolve loadMemoryProperty_never_panics : no_panic.

Lemma loadNetworkProperty_never_panics p : never_panics (loadNetworkProperty p).
Proof. unfold loadNetworkProperty. no_panic. Qed.
#[local] Hint Resolve loadNetworkProperty_never_panics : no_panic.

Lemma loadNetworkAdapter_never_panics n : never_panics (loadNetworkAdapter n).
Proof. unfold loadNetworkAdapter, range. no_panic. Qed.
#[local] Hint Resolve loadNetworkAdapter_never_panics : no_panic.

Lemma loadIPAddressConfig_never_panics n : never_panics (loadIPAddressConfig n).
Proof. unfold loadIPAddressConfig. destruct (Dir n); no_panic. Qed.
#[local] Hint Resolve loadIPAddressConfig_never_panics : no_panic.

Lemma loadHardwareComponent_never_panics nodeId c :
  never_panics (loadHardwareComponent nodeId c).
Proof.
  unfold loadHardwareComponent, loadDisksConfig, loadProcessorsConfig,
    loadMemoryConfig, loadNetworkConfig, range.
  no_panic.
Qed.
#[local] Hint Resolve loadHardwareComponent_never_panics : no_panic.

Lemma loadHardwareConfig_never_panics nodeId nodeInfo :
  never_panics (loadHardwareConfig nodeId nodeInfo).
Proof.
  unfold loadHardwareConfig, range. destruct nodeInfo as [[[root|]]|]; no_panic.
Qed.

(** A failing child of the subtree root makes the decode fail. *)
Lemma loadHardwareConfig_fails nodeId root c :
  c ∈ Nodes root ->
  always_fails (loadHardwareComponent nodeId c) ->
  always_fails (loadHardwareConfig nodeId (Some (mkResponse (Some root)))).
Proof.
  intros Hin Hc. unfold loadHardwareConfig, range; simpl.
  eapply range_from_fails; [exact Hin | | intros _; exact Hc].
  intros _ y. apply loadHardwareComponent_never_panics.
Qed.

Lemma loadIPAddressConfig_Dir ipAddressNode cfg :
  Dir ipAddressNode = true ->
  loadIPAddressConfig ipAddressNode cfg
  = ([], cfg,
     Err (fmt_Errorf "IP address node '%s' is a directory, but it's expected to be a key"
                     (Key ipAddressNode))).
Proof. intros H. unfold loadIPAddressConfig. by rewrite H. Qed.

(** C6. Decoding an [ipaddress] child that is a directory returns an error
    whatever children the directory holds, and the decode of a subtree with
    such a child returns an error; when the child is a plain leaf its value
    is copied into [IPAddress] without error. *)
Theorem ipaddress_directory_rejected :
  (forall ipAddressNode children cfg,
      Dir ipAddressNode = true ->
      exists e, loadIPAddressConfig (with_Nodes ipAddressNode children) cfg
                = ([], cfg, Err e))
  /\ (forall nodeId root c,
         c ∈ Nodes root -> GetLeafKeyPath (Key c) = IpAddressKey -> Dir c = true ->
         always_fails (loadHardwareConfig nodeId (Some (mkResponse (Some root)))))
  /\ (forall ipAddressNode cfg,
         Dir ipAddressNode = false ->
         loadIPAddressConfig ipAddressNode cfg
         = ([], set_IPAddress (Value ipAddressNode) cfg, Ok tt)).
Proof.
  split; [|split].
  - intros n children cfg Hdir. eexists.
    by apply loadIPAddressConfig_Dir.
  - intros nodeId root c Hin Hleaf Hdir.
    apply (loadHardwareConfig_fails nodeId root c Hin).
    unfold loadHardwareComponent. rewrite Hleaf.
    repeat (case_decide; [discriminate|]). case_decide; [|done].
    apply always_fails_or_log. intros s. eexists.
    by rewrite loadIPAddressConfig_Dir.
  - intros n cfg Hdir. unfold loadIPAddressConfig. by rewrite Hdir.
Qed.

(** C5, as the code has it. A nil response or a nil root node makes the
    decoder return the error "hardware info missing" and leaves the
    [NodeConfig] as it was; a root without children is decoded without
    error, with nothing logged and the [NodeConfig] unchanged. *)
Theorem loadHardwareConfig_missing_or_empty nodeId cfg :
  loadHardwareConfig nodeId None cfg
  = ([], cfg, Err (errors_New "hardware info missing"))
  /\ loadHardwareConfig nodeId (Some (mkResponse None)) cfg
     = ([], cfg, Err (errors_New "hardware info missing"))
  /\ (forall root, Nodes root = [] ->
        loadHardwareConfig nodeId (Some (mkResponse (Some root))) cfg = ([], cfg, Ok tt)).
Proof.
  repeat split. intros root Hroot. unfold loadHardwareConfig; simpl. by rewrite Hroot.
Qed.

(** *** Malformed leaves *)

Lemma proc_speed_key_ne :
  ProcSpeedKey <> ProcPhysicalIDKey /\ ProcSpeedKey <> ProcSiblingsKey
  /\ ProcSpeedKey <> ProcCoreIDKey /\ ProcSpeedKey <> ProcNumCoresKey
  /\ ProcSpeedKey <> ProcBitsKey.
Proof.
  pose proof proc_keys_distinct as H.
  rewrite !NoDup_cons, !elem_of_cons, !elem_of_nil in H.
  intuition congruence.
Qed.

Lemma net_speed_key_ne :
  NetworkSpeedKey <> NetworkIPv4AddressKey /\ NetworkSpeedKey <> NetworkIPv6AddressKey.
Proof.
  pose proof net_keys_distinct as H.
  rewrite !NoDup_cons, !elem_of_cons, !elem_of_nil in H.
  intuition congruence.
Qed.

Ltac fail_now :=
  apply always_fails_bind_l, always_fails_lift; assumption.

Lemma loadProcessorProperty_fails p :
  malformed_processor_property p -> always_fails (loadProcessorProperty p).
Proof.
  destruct proc_speed_key_ne as (N1 & N2 & N3 & N4 & N5).
  unfold malformed_processor_property, loadProcessorProperty.
  intros [[Hin Hf]|[Hname Hf]].
  - rewrite !elem_of_cons, elem_of_nil in Hin.
    repeat case_decide; try fail_now; intuition congruence.
  - rewrite Hname. repeat (case_decide; [first [done | fail_now]|]). done.
Qed.

Lemma loadProcessor_fails procInfo :
  malformed_processor procInfo -> always_fails (loadProcessor procInfo).
Proof.
  unfold loadProcessor, range. intros [Hf|(p & Hin & Hp)].
  - fail_now.
  - apply always_fails_bind_r; [no_panic|intros ?].
    apply always_fails_bind_r; [no_panic|intros ?].
    eapply range_from_fails; [exact Hin|intros; no_panic|].
    intros _. by apply loadProcessorProperty_fails.
Qed.

Lemma loadProcessorsConfig_fails c procInfo :
  procInfo ∈ Nodes c -> malformed_processor procInfo ->
  always_fails (loadProcessorsConfig c).
Proof.
  intros Hin Hp. unfold loadProcessorsConfig, range.
  apply always_fails_bind_r; [no_panic|intros ?].
  eapply range_from_fails; [exact Hin|intros; no_panic|].
  intros i. apply always_fails_bind_l, always_fails_local.
  by apply loadProcessor_fails.
Qed.

Lemma loadMemoryProperty_fails p :
  malformed_memory_property p -> always_fails (loadMemoryProperty p).
Proof.
  unfold malformed_memory_property, loadMemoryProperty. intros [Hname Hf].
  case_decide; [fail_now|done].
Qed.

Lemma loadMemoryConfig_fails c p :
  p ∈ Nodes c -> malformed_memory_property p -> always_fails (loadMemoryConfig c).
Proof.
  intros Hin Hp. unfold loadMemoryConfig, range.
  apply always_fails_bind_l, always_fails_local.
  eapply range_from_fails; [exact Hin|intros; no_panic|].
  intros _. by apply loadMemoryProperty_fails.
Qed.

Lemma loadNetworkProperty_fails p :
  malformed_network_property p -> always_fails (loadNetworkProperty p).
Proof.
  destruct net_speed_key_ne as (N1 & N2).
  unfold malformed_network_property, loadNetworkProperty. intros (Hname & Hne & Hf).
  rewrite Hname. repeat (case_decide; [done|]).
  case_decide; [|done]. case_decide; [done|fail_now].
Qed.

Lemma loadNetworkConfig_fails c netInfo p :
  netInfo ∈ Nodes c -> p ∈ Nodes netInfo -> malformed_network_property p ->
  always_fails (loadNetworkConfig c).
Proof.
  intros Hin Hin' Hp. unfold loadNetworkConfig, range.
  apply always_fails_bind_r; [no_panic|intros ?].
  eapply range_from_fails; [exact Hin|intros; no_panic|].
  intros i. apply always_fails_bind_l, always_fails_local.
  unfold loadNetworkAdapter, range.
  apply always_fails_bind_r; [no_panic|intros ?].
  eapply range_from_fails; [exact Hin'|intros; no_panic|].
  intros _. by apply loadNetworkProperty_fails.
Qed.

Lemma loadHardwareComponent_fails nodeId c :
  malformed_category c -> always_fails (loadHardwareComponent nodeId c).
Proof.
  unfold malformed_category, loadHardwareComponent.
  intros [[Hleaf (procInfo & Hin & Hp)]
         |[[Hleaf (p & Hin & Hp)]
          |[Hleaf (netInfo & p & Hin & Hin' & Hp)]]]; rewrite Hleaf.
  - repeat (case_decide; [discriminate|]). case_decide; [|done].
    eapply always_fails_or_log, loadProcessorsConfig_fails; eauto.
  - repeat (case_decide; [discriminate|]). case_decide; [|done].
    eapply always_fails_or_log, loadMemoryConfig_fails; eauto.
  - repeat (case_decide; [discriminate|]). case_decide; [|done].
    eapply always_fails_or_log, loadNetworkConfig_fails; eauto.
Qed.

Lemma malformed_subtree_fails nodeId root :
  malformed_subtree root ->
  always_fails (loadHardwareConfig nodeId (Some (mkResponse (Some root)))).
Proof.
  intros (c & Hin & Hc).
  eapply loadHardwareConfig_fails; [exact Hin|].
  by apply loadHardwareComponent_fails.
Qed.

End DecoderFacts.

(** ** The IP accessor and the bulk loader *)

Section LoaderFacts.
Context `{E : Env}.
Variable etcdClient : KeysAPI.

Lemma GetIpAddress_ok {St} node resp n (s : St) :
  Get etcdClient (ipAddressKeyOf node) None = inl resp ->
  RespNode resp = Some n ->
  GetIpAddress etcdClient node s = ([], s, Ok (Value n)).
Proof.
  unfold ipAddressKeyOf, GetIpAddress, bind, or_log, lift. intros -> Hn.
  by rewrite Hn.
Qed.

Lemma GetIpAddress_err {St} node e (s : St) :
  Get etcdClient (ipAddressKeyOf node) None = inr e ->
  GetIpAddress etcdClient node s
  = ([Printf "FAILED TO GET nodeID for %s. %v" [ArgStr node; ArgErr e]], s, Err e).
Proof.
  unfold ipAddressKeyOf, GetIpAddress, bind, or_log, lift. by intros ->.
Qed.

Lemma loadNodeConfig_ip_ok node nodeConfig m resp n :
  Get etcdClient (ipAddressKeyOf node) None = inl resp ->
  RespNode resp = Some n ->
  loadNodeConfig_ip etcdClient node nodeConfig m
  = ([], <[node := set_IPAddress (Value n) nodeConfig]> m, Ok tt).
Proof.
  intros Hget Hn. unfold loadNodeConfig_ip, bind, or_log.
  by rewrite (GetIpAddress_ok node resp n m Hget Hn).
Qed.

Lemma loadNodeConfig_ip_err node nodeConfig m e :
  Get etcdClient (ipAddressKeyOf node) None = inr e ->
  loadNodeConfig_ip etcdClient node nodeConfig m
  = ([Printf "FAILED TO GET nodeID for %s. %v" [ArgStr node; ArgErr e];
      Printf "failed to get IP address for node %s, %+v" [ArgStr node; ArgErr e]],
     m, Err e).
Proof.
  intros Hget. unfold loadNodeConfig_ip, bind, or_log.
  by rewrite (GetIpAddress_err node e m Hget).
Qed.

(** The IP step either leaves the mapping alone or stores, under [node],
    the given config with the address the accessor read. *)
Lemma loadNodeConfig_ip_cases node nodeConfig m :
  (state_of (loadNodeConfig_ip etcdClient node nodeConfig m) = m
   /\ result_of (loadNodeConfig_ip etcdClient node nodeConfig m) <> Ok tt)
  \/ (exists resp n,
         Get etcdClient (ipAddressKeyOf node) None = inl resp
         /\ RespNode resp = Some n
         /\ loadNodeConfig_ip etcdClient node nodeConfig m
            = ([], <[node := set_IPAddress (Value n) nodeConfig]> m, Ok tt)).
Proof.
  destruct (Get etcdClient (ipAddressKeyOf node) None) as [resp|e] eqn:Hget.
  - destruct (RespNode resp) as [n|] eqn:Hn.
    + right. exists resp, n. by rewrite (loadNodeConfig_ip_ok _ _ _ _ _ Hget Hn).
    + left. unfold loadNodeConfig_ip, GetIpAddress, bind, or_log, lift.
      fold (ipAddressKeyOf node). rewrite Hget, Hn. by simpl.
  - left. by rewrite (loadNodeConfig_ip_err _ _ _ _ Hget).
Qed.

Lemma body_not_found node err m :
  Get etcdClient (GetNodeConfigKey node) recursive = inr err ->
  IsEtcdKeyNotFound err = true ->
  loadNodeConfig_body etcdClient node m
  = ([Printf "skipping node %s with no hardware discovered" [ArgStr node]], m, Ok tt).
Proof.
  unfold recursive, loadNodeConfig_body. intros -> Hnf. by rewrite Hnf.
Qed.

Lemma body_other_error node err m :
  Get etcdClient (GetNodeConfigKey node) recursive = inr err ->
  IsEtcdKeyNotFound err = false ->
  loadNodeConfig_body etcdClient node m
  = (Printf "failed to get hardware info from etcd for node %s, %v"
            [ArgStr node; ArgErr err]
       :: logs_of (loadNodeConfig_ip etcdClient node NodeConfig_zero m),
     state_of (loadNodeConfig_ip etcdClient node NodeConfig_zero m),
     result_of (loadNodeConfig_ip etcdClient node NodeConfig_zero m)).
Proof.
  unfold recursive, loadNodeConfig_body. intros -> Hnf. rewrite Hnf.
  unfold bind at 1, log_Printf.
  by destruct (loadNodeConfig_ip etcdClient node NodeConfig_zero m) as [[? ?] ?].
Qed.

Lemma body_decoded node resp m :
  Get etcdClient (GetNodeConfigKey node) recursive = inl resp ->
  result_of (loadHardwareConfig node (Some resp) NodeConfig_zero) = Ok tt ->
  same_outcome
    (loadNodeConfig_body etcdClient node m)
    (loadNodeConfig_ip etcdClient node
       (state_of (loadHardwareConfig node (Some resp) NodeConfig_zero)) m).
Proof.
  unfold recursive, loadNodeConfig_body. intros ->.
  unfold bind at 1, local, or_log.
  unfold same_outcome, result_of, state_of, logs_of.
  destruct (loadHardwareConfig node (Some resp) NodeConfig_zero) as [[l cfg] x].
  simpl. intros ->.
  by destruct (loadNodeConfig_ip etcdClient node cfg m) as [[? ?] ?].
Qed.

Lemma body_decode_error node resp m e :
  Get etcdClient (GetNodeConfigKey node) recursive = inl resp ->
  result_of (loadHardwareConfig node (Some resp) NodeConfig_zero) = Err e ->
  loadNodeConfig_body etcdClient node m
  = (logs_of (loadHardwareConfig node (Some resp) NodeConfig_zero)
       ++ [Printf "failed to parse hardware config for node %s, %v"
                  [ArgStr node; ArgErr e]],
     m, Err e).
Proof.
  unfold recursive, loadNodeConfig_body. intros ->.
  unfold bind at 1, local, or_log. unfold result_of, state_of, logs_of.
  destruct (loadHardwareConfig node (Some resp) NodeConfig_zero) as [[l cfg] x].
  simpl. by intros ->.
Qed.

(** What one turn of the loop does to the mapping: nothing, or one entry
    stored under the node's own id, holding the address the accessor read,
    and this only for a node whose fetch was not answered by not-found. *)
Lemma body_cases node m :
  state_of (loadNodeConfig_body etcdClient node m) = m
  \/ (exists cfg resp n,
         result_of (loadNodeConfig_body etcdClient node m) = Ok tt
         /\ state_of (loadNodeConfig_body etcdClient node m) = <[node := cfg]> m
         /\ Get etcdClient (ipAddressKeyOf node) None = inl resp
         /\ RespNode resp = Some n
         /\ IPAddress cfg = Value n
         /\ forall err, Get etcdClient (GetNodeConfigKey node) recursive = inr err ->
                        IsEtcdKeyNotFound err = false).
Proof.
  destruct (Get etcdClient (GetNodeConfigKey node) recursive) as [resp|err] eqn:Hget.
  - destruct (result_of (loadHardwareConfig node (Some resp) NodeConfig_zero))
      as [[]|e|p] eqn:Hd.
    + destruct (body_decoded _ _ m Hget Hd) as [-> ->].
      destruct (loadNodeConfig_ip_cases node
                  (state_of (loadHardwareConfig node (Some resp) NodeConfig_zero)) m)
        as [[Hst _]|(r & n & Hip & Hn & Heq)].
      * by left.
      * right. rewrite Heq. eexists _, r, n. by repeat split.
    + left. by rewrite (body_decode_error _ _ _ _ Hget Hd).
    + by destruct (loadHardwareConfig_never_panics node (Some resp) NodeConfig_zero p).
  - destruct (IsEtcdKeyNotFound err) eqn:Hnf.
    + left. by rewrite (body_not_found _ _ _ Hget Hnf).
    + rewrite (body_other_error _ _ _ Hget Hnf).
      destruct (loadNodeConfig_ip_cases node NodeConfig_zero m)
        as [[Hst _]|(r & n & Hip & Hn & Heq)].
      * by left.
      * right. rewrite Heq. eexists _, r, n. repeat split; try done.
        intros err' [= <-]. done.
Qed.

Lemma loop_cons node rest m :
  loadNodeConfig_loop etcdClient (node :: rest) m
  = (loadNodeConfig_body etcdClient node ;;; loadNodeConfig_loop etcdClient rest) m.
Proof.
  unfold loadNodeConfig_loop, range. simpl.
  by rewrite (range_from_shift (loadNodeConfig_body etcdClient) rest 1 0).
Qed.

Lemma loop_abort node rest m e :
  result_of (loadNodeConfig_body etcdClient node m) = Err e ->
  result_of (loadNodeConfig_loop etcdClient (node :: rest) m) = Err e.
Proof. intros H. rewrite loop_cons. by rewrite (bind_fails_first _ _ _ _ H). Qed.

Lemma loop_entries_from_accessor nodes m :
  entries_from_accessor etcdClient m ->
  entries_from_accessor etcdClient (state_of (loadNodeConfig_loop etcdClient nodes m)).
Proof.
  unfold loadNodeConfig_loop, range. revert m.
  apply (range_from_invariant (entries_from_accessor etcdClient)).
  intros _ node m Hm.
  destruct (body_cases node m) as [->|(cfg & r & n & _ & -> & Hip & Hn & Hcfg & Hnf)];
    [done|].
  intros k cfg'. destruct (decide (node = k)) as [<-|Hne].
  - rewrite lookup_insert_eq. intros [= <-]. split; [by exists r, n|done].
  - rewrite lookup_insert_ne by done. apply Hm.
Qed.

Lemma loadNodeConfig_Ok m :
  (loadNodeConfig etcdClient).2 = Ok m ->
  exists nodes,
    GetDirChildKeys etcdClient DiscoveredNodesKey = (nodes, None)
    /\ result_of (loadNodeConfig_loop etcdClient nodes ∅) = Ok tt
    /\ state_of (loadNodeConfig_loop etcdClient nodes ∅) = m.
Proof.
  unfold loadNodeConfig.
  destruct (GetDirChildKeys etcdClient DiscoveredNodesKey) as [nodes [err|]]; [done|].
  unfold result_of, state_of.
  destruct (loadNodeConfig_loop etcdClient nodes ∅) as [[l m'] [[]|e|p]] eqn:Hloop;
    simpl; try done.
  intros [= ->]. exists nodes. by rewrite Hloop.
Qed.

Lemma loadNodeConfig_entries m :
  (loadNodeConfig etcdClient).2 = Ok m -> entries_from_accessor etcdClient m.
Proof.
  intros (nodes & _ & _ & <-)%loadNodeConfig_Ok.
  apply loop_entries_from_accessor. intros node cfg. by rewrite lookup_empty.
Qed.

(** A node that takes the IP step with a fixed config and a readable
    address ends up in the mapping with that config, once it was met. *)
Lemma loop_keeps_entry node X nodes m :
  (forall m', loadNodeConfig_body etcdClient node m'
              = (logs_of (loadNodeConfig_body etcdClient node m'), <[node := X]> m', Ok tt)) ->
  node ∈ nodes \/ m !! node = Some X ->
  result_of (loadNodeConfig_loop etcdClient nodes m) = Ok tt ->
  state_of (loadNodeConfig_loop etcdClient nodes m) !! node = Some X.
Proof.
  intros Hbody. revert m. induction nodes as [|n' rest IH]; intros m Hin.
  - destruct Hin as [Hin|Hm]; [by apply elem_of_nil in Hin|done].
  - rewrite loop_cons. unfold bind, result_of, state_of.
    destruct (decide (n' = node)) as [->|Hne].
    + rewrite Hbody.
      specialize (IH (<[node := X]> m) (or_intror (lookup_insert_eq m node X))).
      unfold result_of, state_of in IH.
      by destruct (loadNodeConfig_loop etcdClient rest (<[node:=X]> m)) as [[? ?] ?].
    + pose proof (body_cases n' m) as Hc. unfold result_of, state_of in Hc.
      destruct (loadNodeConfig_body etcdClient n' m) as [[l t] [[]|e|p]]; simpl in *;
        try done.
      assert (node ∈ rest \/ t !! node = Some X) as Hin'.
      { destruct Hin as [Hin|Hm].
        - apply elem_of_cons in Hin as [->|Hin]; [done|by left].
        - right. destruct Hc as [->|(cfg & _ & _ & _ & -> & _)]; [done|].
          by rewrite lookup_insert_ne. }
      specialize (IH t Hin'). unfold result_of, state_of in IH.
      by destruct (loadNodeConfig_loop etcdClient rest t) as [[? ?] ?].
Qed.

(** C9. A node whose recursive fetch is answered by key-not-found costs
    the loop one log entry and nothing else: the body neither decodes nor
    reads the address nor touches the mapping, the loop goes on with the
    remaining ids and ends as it would without that node, and a mapping
    that the load returns has no entry for the node. *)
Theorem not_found_node_skipped node err :
  Get etcdClient (GetNodeConfigKey node) recursive = inr err ->
  IsEtcdKeyNotFound err = true ->
  (forall m, loadNodeConfig_body etcdClient node m
             = ([Printf "skipping node %s with no hardware discovered" [ArgStr node]],
                m, Ok tt))
  /\ (forall rest m,
         loadNodeConfig_loop etcdClient (node :: rest) m
         = (Printf "skipping node %s with no hardware discovered" [ArgStr node]
              :: logs_of (loadNodeConfig_loop etcdClient rest m),
            state_of (loadNodeConfig_loop etcdClient rest m),
            result_of (loadNodeConfig_loop etcdClient rest m)))
  /\ (forall m, (loadNodeConfig etcdClient).2 = Ok m -> m !! node = None).
Proof.
  intros Hget Hnf. split; [|split].
  - intros m. by apply body_not_found with err.
  - intros rest m. rewrite loop_cons. unfold bind.
    rewrite (body_not_found _ _ _ Hget Hnf).
    by destruct (loadNodeConfig_loop etcdClient rest m) as [[? ?] ?].
  - intros m Hm. apply loadNodeConfig_entries in Hm.
    destruct (m !! node) as [cfg|] eqn:Hlk; [|done].
    destruct (Hm node cfg Hlk) as [_ Hne]. specialize (Hne err Hget). congruence.
Qed.

(** C1, as the code has it. When the recursive fetch of a node's subtree
    fails with an error other than key-not-found, the failure is logged, no
    decode is run and the body goes on to the address fetch: if the address
    is read, the node gets an entry holding the zero [NodeConfig] with that
    address, the loop continues, and a mapping that the load returns holds
    that entry; if the address fetch fails, the load returns that error. *)
Theorem other_fetch_error_keeps_node node err :
  Get etcdClient (GetNodeConfigKey node) recursive = inr err ->
  IsEtcdKeyNotFound err = false ->
  (forall resp n,
      Get etcdClient (ipAddressKeyOf node) None = inl resp ->
      RespNode resp = Some n ->
      (forall m, loadNodeConfig_body etcdClient node m
                 = ([Printf "failed to get hardware info from etcd for node %s, %v"
                            [ArgStr node; ArgErr err]],
                    <[node := set_IPAddress (Value n) NodeConfig_zero]> m, Ok tt))
      /\ (forall m, (loadNodeConfig etcdClient).2 = Ok m ->
                    node ∈ (GetDirChildKeys etcdClient DiscoveredNodesKey).1 ->
                    m !! node = Some (set_IPAddress (Value n) NodeConfig_zero)))
  /\ (forall e,
         Get etcdClient (ipAddressKeyOf node) None = inr e ->
         forall rest m,
           state_of (loadNodeConfig_body etcdClient node m) = m
           /\ result_of (loadNodeConfig_body etcdClient node m) = Err e
           /\ result_of (loadNodeConfig_loop etcdClient (node :: rest) m) = Err e).
Proof.
  intros Hget Hnf. split.
  - intros resp n Hip Hn.
    assert (forall m, loadNodeConfig_body etcdClient node m
                 = ([Printf "failed to get hardware info from etcd for node %s, %v"
                            [ArgStr node; ArgErr err]],
                    <[node := set_IPAddress (Value n) NodeConfig_zero]> m, Ok tt)) as Hbody.
    { intros m. rewrite (body_other_error _ _ _ Hget Hnf).
      by rewrite (loadNodeConfig_ip_ok _ _ _ _ _ Hip Hn). }
    split; [exact Hbody|].
    intros m (nodes & Hlist & Hres & <-)%loadNodeConfig_Ok Hin.
    rewrite Hlist in Hin. simpl in Hin.
    apply loop_keeps_entry; [|by left|done].
    intros m'. by rewrite Hbody.
  - intros e Hip rest m.
    assert (result_of (loadNodeConfig_body etcdClient node m) = Err e) as Hres.
    { rewrite (body_other_error _ _ _ Hget Hnf).
      by rewrite (loadNodeConfig_ip_err _ _ _ _ Hip). }
    split; [|split; [done|by apply loop_abort]].
    rewrite (body_other_error _ _ _ Hget Hnf).
    by rewrite (loadNodeConfig_ip_err _ _ _ _ Hip).
Qed.

Lemma loop_app pre post m :
  loadNodeConfig_loop etcdClient (pre ++ post) m
  = (loadNodeConfig_loop etcdClient pre ;;; loadNodeConfig_loop etcdClient post) m.
Proof.
  unfold loadNodeConfig_loop, range. rewrite range_from_app.
  by rewrite (range_from_shift (loadNodeConfig_body etcdClient) post (0 + length pre) 0).
Qed.

(** The load returns the error of the first turn of the loop that fails. *)
Lemma loadNodeConfig_abort pre node post e :
  GetDirChildKeys etcdClient DiscoveredNodesKey = (pre ++ node :: post, None) ->
  result_of (loadNodeConfig_loop etcdClient pre ∅) = Ok tt ->
  result_of (loadNodeConfig_body etcdClient node
               (state_of (loadNodeConfig_loop etcdClient pre ∅))) = Err e ->
  (loadNodeConfig etcdClient).2 = Err e.
Proof.
  intros Hlist Hpre Hbody. unfold loadNodeConfig. rewrite Hlist, loop_app.
  apply (loop_abort _ post) in Hbody.
  unfold bind, result_of, state_of in *.
  destruct (loadNodeConfig_loop etcdClient pre ∅) as [[l t] r]; simpl in *; subst r.
  by destruct (loadNodeConfig_loop etcdClient (node :: post) t) as [[l' t'] r']; simpl in *;
    subst r'.
Qed.

(** A listed node whose turn cannot return normally keeps the load from
    returning a mapping. *)
Lemma loadNodeConfig_not_Ok node :
  node ∈ (GetDirChildKeys etcdClient DiscoveredNodesKey).1 ->
  (forall m, result_of (loadNodeConfig_body etcdClient node m) <> Ok tt) ->
  forall m, (loadNodeConfig etcdClient).2 <> Ok m.
Proof.
  intros Hin Hbody m (nodes & Hlist & Hres & _)%loadNodeConfig_Ok.
  rewrite Hlist in Hin. simpl in Hin. revert Hres.
  unfold loadNodeConfig_loop, range.
  apply (range_from_not_Ok _ nodes node Hin). intros _. apply Hbody.
Qed.

(** C2, as the code has it. The address fetch is reached by a node whose
    subtree was fetched and decoded without error, and by a node whose
    fetch failed with an error other than key-not-found. Once reached, an
    address that is read is stored in the node's entry in place of the one
    from the decode, and a failing fetch makes the body, the loop and the
    load return that error. Every entry of a returned mapping holds the
    address the accessor reads for its key. *)
Theorem ip_address_fetched_and_stored node :
  (forall resp m,
      Get etcdClient (GetNodeConfigKey node) recursive = inl resp ->
      result_of (loadHardwareConfig node (Some resp) NodeConfig_zero) = Ok tt ->
      same_outcome
        (loadNodeConfig_body etcdClient node m)
        (loadNodeConfig_ip etcdClient node
           (state_of (loadHardwareConfig node (Some resp) NodeConfig_zero)) m))
  /\ (forall err m,
         Get etcdClient (GetNodeConfigKey node) recursive = inr err ->
         IsEtcdKeyNotFound err = false ->
         same_outcome
           (loadNodeConfig_body etcdClient node m)
           (loadNodeConfig_ip etcdClient node NodeConfig_zero m))
  /\ (forall nodeConfig m resp n,
         Get etcdClient (ipAddressKeyOf node) None = inl resp ->
         RespNode resp = Some n ->
         loadNodeConfig_ip etcdClient node nodeConfig m
         = ([], <[node := set_IPAddress (Value n) nodeConfig]> m, Ok tt))
  /\ (forall nodeConfig m e,
         Get etcdClient (ipAddressKeyOf node) None = inr e ->
         state_of (loadNodeConfig_ip etcdClient node nodeConfig m) = m
         /\ result_of (loadNodeConfig_ip etcdClient node nodeConfig m) = Err e)
  /\ (forall pre post e,
         GetDirChildKeys etcdClient DiscoveredNodesKey = (pre ++ node :: post, None) ->
         result_of (loadNodeConfig_loop etcdClient pre ∅) = Ok tt ->
         result_of (loadNodeConfig_body etcdClient node
                      (state_of (loadNodeConfig_loop etcdClient pre ∅))) = Err e ->
         (loadNodeConfig etcdClient).2 = Err e)
  /\ (forall m cfg,
         (loadNodeConfig etcdClient).2 = Ok m ->
         m !! node = Some cfg ->
         exists resp n,
           Get etcdClient (ipAddressKeyOf node) None = inl resp
           /\ RespNode resp = Some n /\ IPAddress cfg = Value n).
Proof.
  repeat split.
  - by apply body_decoded.
  - by apply body_decoded.
  - by rewrite (body_other_error _ _ _ H H0).
  - by rewrite (body_other_error _ _ _ H H0).
  - intros nodeConfig m resp n Hip Hn. by apply loadNodeConfig_ip_ok with resp.
  - by rewrite (loadNodeConfig_ip_err _ _ _ _ H).
  - by rewrite (loadNodeConfig_ip_err _ _ _ _ H).
  - intros pre post e. apply loadNodeConfig_abort.
  - intros m cfg Hm Hlk. apply loadNodeConfig_entries in Hm.
    by destruct (Hm node cfg Hlk) as [? _].
Qed.

(** C3. A subtree with a malformed recognised leaf makes the decoder
    return an error; the bulk loader's turn for a node with such a subtree
    returns that same error and leaves the mapping untouched, the load
    returns that error once the loop reaches the node, and no load over a
    listing with that node returns a mapping. *)
Theorem malformed_leaf_aborts_load node root :
  malformed_subtree root ->
  (forall cfg, exists e,
      result_of (loadHardwareConfig node (Some (mkResponse (Some root))) cfg) = Err e)
  /\ (Get etcdClient (GetNodeConfigKey node) recursive = inl (mkResponse (Some root)) ->
      exists e,
        result_of (loadHardwareConfig node (Some (mkResponse (Some root))) NodeConfig_zero)
        = Err e
        /\ (forall m, state_of (loadNodeConfig_body etcdClient node m) = m
                      /\ result_of (loadNodeConfig_body etcdClient node m) = Err e)
        /\ (forall pre post,
               GetDirChildKeys etcdClient DiscoveredNodesKey = (pre ++ node :: post, None) ->
               result_of (loadNodeConfig_loop etcdClient pre ∅) = Ok tt ->
               (loadNodeConfig etcdClient).2 = Err e)
        /\ (node ∈ (GetDirChildKeys etcdClient DiscoveredNodesKey).1 ->
            forall m, (loadNodeConfig etcdClient).2 <> Ok m)).
Proof.
  intros Hbad. pose proof (malformed_subtree_fails node root Hbad) as Hfail.
  split; [exact Hfail|]. intros Hget.
  destruct (Hfail NodeConfig_zero) as [e He]. exists e.
  assert (forall m, state_of (loadNodeConfig_body etcdClient node m) = m
                    /\ result_of (loadNodeConfig_body etcdClient node m) = Err e) as Hbody.
  { intros m. by rewrite (body_decode_error _ _ _ _ Hget He). }
  split; [done|]. split; [done|]. split.
  - intros pre post Hlist Hpre. eapply loadNodeConfig_abort; eauto. apply Hbody.
  - intros Hin. apply (loadNodeConfig_not_Ok node Hin).
    intros m. destruct (Hbody m) as [_ ->]. done.
Qed.

End LoaderFacts.

(** ** Unrecognised names *)

Section UnknownKeys.
Context `{E : Env}.

Lemma unknown_component_only_logs nodeId u :
  unknown_category (GetLeafKeyPath (Key u)) ->
  forall s, same_outcome (loadHardwareComponent nodeId u s) (ret tt s).
Proof.
  unfold unknown_category, loadHardwareComponent. rewrite !not_elem_of_cons.
  intros (? & ? & ? & ? & ? & _) s.
  repeat (case_decide; [done|]). by split.
Qed.

Lemma unknown_processor_property_only_logs u :
  unknown_processor_property (GetLeafKeyPath (Key u)) ->
  forall s, same_outcome (loadProcessorProperty u s) (ret tt s).
Proof.
  unfold unknown_processor_property, loadProcessorProperty. rewrite !not_elem_of_cons.
  intros (? & ? & ? & ? & ? & ? & _) s.
  repeat (case_decide; [done|]). by split.
Qed.

Lemma unknown_memory_property_only_logs u :
  unknown_memory_property (GetLeafKeyPath (Key u)) ->
  forall s, same_outcome (loadMemoryProperty u s) (ret tt s).
Proof.
  unfold unknown_memory_property, loadMemoryProperty. intros ? s.
  case_decide; [done|]. by split.
Qed.

Lemma unknown_network_property_only_logs u :
  unknown_network_property (GetLeafKeyPath (Key u)) ->
  forall s, same_outcome (loadNetworkProperty u s) (ret tt s).
Proof.
  unfold unknown_network_property, loadNetworkProperty. rewrite !not_elem_of_cons.
  intros (? & ? & ? & _) s.
  repeat (case_decide; [done|]). by split.
Qed.

Lemma loadProcessor_unknown p a b u s :
  Nodes p = a ++ b ->
  unknown_processor_property (GetLeafKeyPath (Key u)) ->
  same_outcome (loadProcessor (with_Nodes p (a ++ u :: b)) s) (loadProcessor p s).
Proof.
  intros Hp Hu. unfold loadProcessor, range. simpl. rewrite Hp.
  apply bind_same; [apply same_outcome_refl|intros ? ?].
  apply bind_same; [apply same_outcome_refl|intros ? ?].
  apply (range_from_skip loadProcessorProperty).
  by apply unknown_processor_property_only_logs.
Qed.

Lemma loadProcessorsConfig_unknown cpu P1 P2 p a b u s :
  Nodes cpu = P1 ++ p :: P2 ->
  Nodes p = a ++ b ->
  unknown_processor_property (GetLeafKeyPath (Key u)) ->
  same_outcome
    (loadProcessorsConfig (with_Nodes cpu (P1 ++ with_Nodes p (a ++ u :: b) :: P2)) s)
    (loadProcessorsConfig cpu s).
Proof.
  intros Hcpu Hp Hu. unfold loadProcessorsConfig, range. simpl. rewrite Hcpu.
  rewrite !length_app. simpl.
  apply bind_same; [apply same_outcome_refl|intros ? ?].
  apply range_from_replace. intros i t.
  apply bind_same; [|intros ? ?; apply same_outcome_refl].
  apply local_same. by apply loadProcessor_unknown.
Qed.

Lemma loadMemoryConfig_unknown mem a b u s :
  Nodes mem = a ++ b ->
  unknown_memory_property (GetLeafKeyPath (Key u)) ->
  same_outcome (loadMemoryConfig (with_Nodes mem (a ++ u :: b)) s) (loadMemoryConfig mem s).
Proof.
  intros Hmem Hu. unfold loadMemoryConfig, range. simpl. rewrite Hmem.
  apply bind_same; [|intros ? ?; apply same_outcome_refl].
  apply local_same. apply (range_from_skip loadMemoryProperty).
  by apply unknown_memory_property_only_logs.
Qed.

Lemma loadNetworkAdapter_unknown p a b u s :
  Nodes p = a ++ b ->
  unknown_network_property (GetLeafKeyPath (Key u)) ->
  same_outcome (loadNetworkAdapter (with_Nodes p (a ++ u :: b)) s) (loadNetworkAdapter p s).
Proof.
  intros Hp Hu. unfold loadNetworkAdapter, range. simpl. rewrite Hp.
  apply bind_same; [apply same_outcome_refl|intros ? ?].
  apply (range_from_skip loadNetworkProperty).
  by apply unknown_network_property_only_logs.
Qed.

Lemma loadNetworkConfig_unknown net P1 P2 p a b u s :
  Nodes net = P1 ++ p :: P2 ->
  Nodes p = a ++ b ->
  unknown_network_property (GetLeafKeyPath (Key u)) ->
  same_outcome
    (loadNetworkConfig (with_Nodes net (P1 ++ with_Nodes p (a ++ u :: b) :: P2)) s)
    (loadNetworkConfig net s).
Proof.
  intros Hnet Hp Hu. unfold loadNetworkConfig, range. simpl. rewrite Hnet.
  rewrite !length_app. simpl.
  apply bind_same; [apply same_outcome_refl|intros ? ?].
  apply range_from_replace. intros i t.
  apply bind_same; [|intros ? ?; apply same_outcome_refl].
  apply local_same. by apply loadNetworkAdapter_unknown.
Qed.

(** C7. Adding a child with an unrecognised category name at the top
    level, or with an unrecognised property name among the properties of a
    processor, of the memory category or of a network adapter, changes
    neither the decoded [NodeConfig] nor the returned result: a decode that
    returned no error still returns none. *)
Theorem unknown_keys_ignored root root' :
  adds_unknown_key root root' ->
  forall nodeId cfg,
    state_of (loadHardwareConfig nodeId (Some (mkResponse (Some root'))) cfg)
    = state_of (loadHardwareConfig nodeId (Some (mkResponse (Some root))) cfg)
    /\ result_of (loadHardwareConfig nodeId (Some (mkResponse (Some root'))) cfg)
       = result_of (loadHardwareConfig nodeId (Some (mkResponse (Some root))) cfg).
Proof.
  intros Hadd nodeId cfg. change (same_outcome
    (loadHardwareConfig nodeId (Some (mkResponse (Some root'))) cfg)
    (loadHardwareConfig nodeId (Some (mkResponse (Some root))) cfg)).
  unfold loadHardwareConfig, range. simpl.
  destruct Hadd as [root a b u Hroot Hu
                   |root A B cpu P1 P2 p a b u Hroot Hleaf Hcpu Hp Hu
                   |root A B mem a b u Hroot Hleaf Hmem Hu
                   |root A B net P1 P2 p a b u Hroot Hleaf Hnet Hp Hu];
    simpl; rewrite Hroot.
  - apply (range_from_skip (loadHardwareComponent nodeId)).
    by apply unknown_component_only_logs.
  - apply range_from_replace. intros _ s.
    unfold loadHardwareComponent. simpl. rewrite Hleaf.
    repeat (case_decide; [discriminate|]). case_decide; [|done].
    by apply or_log_same, loadProcessorsConfig_unknown.
  - apply range_from_replace. intros _ s.
    unfold loadHardwareComponent. simpl. rewrite Hleaf.
    repeat (case_decide; [discriminate|]). case_decide; [|done].
    by apply or_log_same, loadMemoryConfig_unknown.
  - apply range_from_replace. intros _ s.
    unfold loadHardwareComponent. simpl. rewrite Hleaf.
    repeat (case_decide; [discriminate|]). case_decide; [|done].
    by apply or_log_same, loadNetworkConfig_unknown.
Qed.

End UnknownKeys.

(** ** Sequences filled position by position *)

Section PositionalFill.
Context `{E : Env}.

Lemma category_children_snoc category done x :
  category_children category (done ++ [x])
  = if decide (GetLeafKeyPath (Key x) = category) then Nodes x
    else category_children category done.
Proof.
  unfold category_children. rewrite reverse_app. simpl.
  case_decide; [done|].
  by destruct (list_find _ (reverse done)) as [[? ?]|].
Qed.

Lemma disk_item_pure f x (s : NodeConfig) :
  state_of (or_log (lift (GetDiskInfo x)) f s) = s
  /\ result_of (or_log (lift (GetDiskInfo x)) f s)
     = match GetDiskInfo x with inl d => Ok d | inr e => Err e end.
Proof. unfold or_log, lift, state_of, result_of. by destruct (GetDiskInfo x). Qed.

Lemma loadDisksConfig_Ok c cfg :
  result_of (loadDisksConfig c cfg) = Ok tt ->
  Forall2 decodes_disk (Nodes c) (Disks (state_of (loadDisksConfig c cfg)))
  /\ Processors (state_of (loadDisksConfig c cfg)) = Processors cfg
  /\ NetworkAdapters (state_of (loadDisksConfig c cfg)) = NetworkAdapters cfg.
Proof.
  unfold loadDisksConfig, range.
  set (f := fun err => Printf "Failed to get disk. err=%v" [ArgErr err]).
  set (cfg0 := set_Disks (replicate (length (Nodes c)) DiskConfig_zero) cfg).
  set (loop := range_from 0 (Nodes c) _).
  assert (forall (r : list LogEntry * NodeConfig * result unit),
             loop cfg0 = r ->
             (modify (set_Disks (replicate (length (Nodes c)) DiskConfig_zero)) ;;; loop) cfg
             = r) as Hrun.
  { intros [[l t] r] Hr. unfold bind, modify. fold cfg0. by rewrite Hr. }
  rewrite (Hrun _ eq_refl). intros Hres. subst loop. split; [|split].
  - destruct (fill_loop Disks set_Disks DiskConfig_zero
                (fun x => or_log (lift (GetDiskInfo x)) f)
                (fun x => match GetDiskInfo x with inl d => Ok d | inr e => Err e end)
                (fun _ _ => eq_refl) (disk_item_pure f)
                (Nodes c) 0%nat cfg0 [] eq_refl eq_refl Hres) as (vs & -> & HF).
    simpl. eapply Forall2_impl; [exact HF|]. intros x d. unfold decodes_disk.
    destruct (GetDiskInfo x) as [dd|e]; naive_solver.
  - transitivity (Processors cfg0); [|done].
    apply (fill_loop_frame Disks set_Disks Processors); [done|].
    intros x s. apply disk_item_pure.
  - transitivity (NetworkAdapters cfg0); [|done].
    apply (fill_loop_frame Disks set_Disks NetworkAdapters); [done|].
    intros x s. apply disk_item_pure.
Qed.

Lemma loadProcessorsConfig_Ok c cfg :
  result_of (loadProcessorsConfig c cfg) = Ok tt ->
  Forall2 decodes_processor (Nodes c) (Processors (state_of (loadProcessorsConfig c cfg)))
  /\ Disks (state_of (loadProcessorsConfig c cfg)) = Disks cfg
  /\ NetworkAdapters (state_of (loadProcessorsConfig c cfg)) = NetworkAdapters cfg.
Proof.
  unfold loadProcessorsConfig, range.
  set (cfg0 := set_Processors (replicate (length (Nodes c)) ProcessorConfig_zero) cfg).
  set (loop := range_from 0 (Nodes c) _).
  assert (forall (r : list LogEntry * NodeConfig * result unit),
             loop cfg0 = r ->
             (modify (set_Processors (replicate (length (Nodes c)) ProcessorConfig_zero)) ;;;
              loop) cfg = r) as Hrun.
  { intros [[l t] r] Hr. unfold bind, modify. fold cfg0. by rewrite Hr. }
  rewrite (Hrun _ eq_refl). intros Hres. subst loop. split; [|split].
  - destruct (fill_loop Processors set_Processors ProcessorConfig_zero
                (fun x => local ProcessorConfig_zero (loadProcessor x))
                (fun x => result_of (local (St:=NodeConfig) ProcessorConfig_zero
                                       (loadProcessor x) NodeConfig_zero))
                (fun _ _ => eq_refl)
                (fun x s => conj (proj1 (local_pure _ _ s))
                                 (eq_trans (proj2 (local_pure _ _ s))
                                           (eq_sym (proj2 (local_pure _ _ NodeConfig_zero)))))
                (Nodes c) 0%nat cfg0 [] eq_refl eq_refl Hres) as (vs & -> & HF).
    simpl. eapply Forall2_impl; [exact HF|]. intros x v. unfold decodes_processor.
    destruct (local_pure (St:=NodeConfig) ProcessorConfig_zero (loadProcessor x)
                NodeConfig_zero) as [_ ->].
    destruct (result_of (loadProcessor x ProcessorConfig_zero)) as [[]|e|p]; naive_solver.
  - transitivity (Disks cfg0); [|done].
    apply (fill_loop_frame Processors set_Processors Disks); [done|].
    intros x s. apply local_pure.
  - transitivity (NetworkAdapters cfg0); [|done].
    apply (fill_loop_frame Processors set_Processors NetworkAdapters); [done|].
    intros x s. apply local_pure.
Qed.

Lemma loadNetworkConfig_Ok c cfg :
  result_of (loadNetworkConfig c cfg) = Ok tt ->
  Forall2 decodes_adapter (Nodes c) (NetworkAdapters (state_of (loadNetworkConfig c cfg)))
  /\ Disks (state_of (loadNetworkConfig c cfg)) = Disks cfg
  /\ Processors (state_of (loadNetworkConfig c cfg)) = Processors cfg.
Proof.
  unfold loadNetworkConfig, range.
  set (cfg0 := set_NetworkAdapters (replicate (length (Nodes c)) NetworkConfig_zero) cfg).
  set (loop := range_from 0 (Nodes c) _).
  assert (forall (r : list LogEntry * NodeConfig * result unit),
             loop cfg0 = r ->
             (modify (set_NetworkAdapters (replicate (length (Nodes c)) NetworkConfig_zero)) ;;;
              loop) cfg = r) as Hrun.
  { intros [[l t] r] Hr. unfold bind, modify. fold cfg0. by rewrite Hr. }
  rewrite (Hrun _ eq_refl). intros Hres. subst loop. split; [|split].
  - destruct (fill_loop NetworkAdapters set_NetworkAdapters NetworkConfig_zero
                (fun x => local NetworkConfig_zero (loadNetworkAdapter x))
                (fun x => result_of (local (St:=NodeConfig) NetworkConfig_zero
                                       (loadNetworkAdapter x) NodeConfig_zero))
                (fun _ _ => eq_refl)
                (fun x s => conj (proj1 (local_pure _ _ s))
                                 (eq_trans (proj2 (local_pure _ _ s))
                                           (eq_sym (proj2 (local_pure _ _ NodeConfig_zero)))))
                (Nodes c) 0%nat cfg0 [] eq_refl eq_refl Hres) as (vs & -> & HF).
    simpl. eapply Forall2_impl; [exact HF|]. intros x v. unfold decodes_adapter.
    destruct (local_pure (St:=NodeConfig) NetworkConfig_zero (loadNetworkAdapter x)
                NodeConfig_zero) as [_ ->].
    destruct (result_of (loadNetworkAdapter x NetworkConfig_zero)) as [[]|e|p]; naive_solver.
  - transitivity (Disks cfg0); [|done].
    apply (fill_loop_frame NetworkAdapters set_NetworkAdapters Disks); [done|].
    intros x s. apply local_pure.
  - transitivity (Processors cfg0); [|done].
    apply (fill_loop_frame NetworkAdapters set_NetworkAdapters Processors); [done|].
    intros x s. apply local_pure.
Qed.

Lemma loadMemoryConfig_frame c cfg :
  Disks (state_of (loadMemoryConfig c cfg)) = Disks cfg
  /\ Processors (state_of (loadMemoryConfig c cfg)) = Processors cfg
  /\ NetworkAdapters (state_of (loadMemoryConfig c cfg)) = NetworkAdapters cfg.
Proof.
  unfold loadMemoryConfig, bind, modify, local, state_of.
  by destruct (range _ _ _) as [[l t] [[]|e|p]].
Qed.

Lemma loadIPAddressConfig_frame c cfg :
  Disks (state_of (loadIPAddressConfig c cfg)) = Disks cfg
  /\ Processors (state_of (loadIPAddressConfig c cfg)) = Processors cfg
  /\ NetworkAdapters (state_of (loadIPAddressConfig c cfg)) = NetworkAdapters cfg.
Proof. unfold loadIPAddressConfig. by destruct (Dir c). Qed.

Lemma component_decoded nodeId x done cfg :
  decoded_sequences done cfg ->
  result_of (loadHardwareComponent nodeId x cfg) = Ok tt ->
  decoded_sequences (done ++ [x]) (state_of (loadHardwareComponent nodeId x cfg)).
Proof.
  unfold decoded_sequences. rewrite !category_children_snoc.
  intros (HD & HP & HN). unfold loadHardwareComponent.
  repeat case_decide;
    try (exfalso; unfold DisksKey, ProcessorsKey, MemoryKey, NetworkKey, IpAddressKey in *;
         congruence).
  - intros [Hres ->]%or_log_Ok.
    destruct (loadDisksConfig_Ok x cfg Hres) as (? & -> & ->). done.
  - intros [Hres ->]%or_log_Ok.
    destruct (loadProcessorsConfig_Ok x cfg Hres) as (? & -> & ->). done.
  - intros [Hres ->]%or_log_Ok.
    destruct (loadMemoryConfig_frame x cfg) as (-> & -> & ->). done.
  - intros [Hres ->]%or_log_Ok.
    destruct (loadNetworkConfig_Ok x cfg Hres) as (? & -> & ->). done.
  - intros [Hres ->]%or_log_Ok.
    destruct (loadIPAddressConfig_frame x cfg) as (-> & -> & ->). done.
  - done.
Qed.

Lemma components_decoded nodeId rest :
  forall done cfg i,
    decoded_sequences done cfg ->
    result_of (range_from i rest (fun _ c => loadHardwareComponent nodeId c) cfg) = Ok tt ->
    decoded_sequences (done ++ rest)
      (state_of (range_from i rest (fun _ c => loadHardwareComponent nodeId c) cfg)).
Proof.
  induction rest as [|x rest IH]; intros done cfg i Hinv; simpl.
  - intros _. by rewrite app_nil_r.
  - pose proof (component_decoded nodeId x done cfg Hinv) as Hstep.
    unfold bind, result_of, state_of in *.
    destruct (loadHardwareComponent nodeId x cfg) as [[l t] [[]|e|p]]; simpl in *;
      try done.
    specialize (IH (done ++ [x]) t (S i) (Hstep eq_refl)).
    rewrite <- app_assoc in IH. simpl in IH.
    by destruct (range_from (S i) rest _ t) as [[? ?] ?].
Qed.

Lemma loadProcessorProperty_ID p s :
  ID (state_of (loadProcessorProperty p s)) = ID s.
Proof.
  unfold loadProcessorProperty.
  repeat case_decide; try done;
    unfold bind, lift, modify, state_of;
    match goal with |- context [match ?r with inl _ => _ | inr _ => _ end] =>
      by destruct r end.
Qed.

Lemma decodes_processor_ID procInfo p :
  decodes_processor procInfo p ->
  ParseUint (GetLeafKeyPath (Key procInfo)) 32 = inl (ID p).
Proof.
  unfold decodes_processor, loadProcessor, range. intros [Hres <-].
  revert Hres. unfold bind at 1 3, lift.
  destruct (ParseUint (GetLeafKeyPath (Key procInfo)) 32) as [procID|e]; [|done].
  intros _. unfold bind, modify. simpl.
  pose proof (range_from_preserves ID
                (fun _ procProperty => loadProcessorProperty procProperty)
                (Nodes procInfo) (fun _ => loadProcessorProperty_ID) 0%nat
                (set_ID procID ProcessorConfig_zero)) as HID.
  unfold state_of in *.
  destruct (range_from 0 (Nodes procInfo) _ _) as [[? ?] ?]; simpl in *. by rewrite HID.
Qed.

Lemma loadNetworkProperty_Name p s :
  Name (state_of (loadNetworkProperty p s)) = Name s.
Proof.
  unfold loadNetworkProperty.
  repeat case_decide; try done.
  unfold bind, lift, modify, state_of.
  by destruct (ParseUint (Value p) 64).
Qed.

Lemma decodes_adapter_Name netInfo n :
  decodes_adapter netInfo n -> Name n = GetLeafKeyPath (Key netInfo).
Proof.
  unfold decodes_adapter, loadNetworkAdapter, range. intros [_ <-].
  unfold bind, modify. simpl.
  pose proof (range_from_preserves Name
                (fun _ netProperty => loadNetworkProperty netProperty)
                (Nodes netInfo) (fun _ => loadNetworkProperty_Name) 0%nat
                (set_Name (GetLeafKeyPath (Key netInfo)) NetworkConfig_zero)) as HN.
  unfold state_of in *.
  destruct (range_from 0 (Nodes netInfo) _ _) as [[? ?] ?]; simpl in *. by rewrite HN.
Qed.

(** C8. After a decode that returned no error, each of [Disks],
    [Processors] and [NetworkAdapters] is as long as its category subtree
    has children (none when the category is absent), and its element at
    position i is what the child at position i decodes to; a processor's
    [ID] is its child's ordinal and an adapter's [Name] its child's leaf
    segment. *)
Theorem sequences_filled_positionally nodeId root :
  result_of (loadHardwareConfig nodeId (Some (mkResponse (Some root))) NodeConfig_zero)
  = Ok tt ->
  (length (Disks (state_of (loadHardwareConfig nodeId (Some (mkResponse (Some root)))
                              NodeConfig_zero)))
   = length (category_children DisksKey (Nodes root))
   /\ forall i child,
        category_children DisksKey (Nodes root) !! i = Some child ->
        exists d,
          Disks (state_of (loadHardwareConfig nodeId (Some (mkResponse (Some root)))
                             NodeConfig_zero)) !! i = Some d
          /\ GetDiskInfo child = inl d)
  /\ (length (Processors (state_of (loadHardwareConfig nodeId (Some (mkResponse (Some root)))
                                      NodeConfig_zero)))
      = length (category_children ProcessorsKey (Nodes root))
      /\ forall i child,
           category_children ProcessorsKey (Nodes root) !! i = Some child ->
           exists p,
             Processors (state_of (loadHardwareConfig nodeId (Some (mkResponse (Some root)))
                                     NodeConfig_zero)) !! i = Some p
             /\ decodes_processor child p
             /\ ParseUint (GetLeafKeyPath (Key child)) 32 = inl (ID p))
  /\ (length (NetworkAdapters (state_of (loadHardwareConfig nodeId
                                           (Some (mkResponse (Some root))) NodeConfig_zero)))
      = length (category_children NetworkKey (Nodes root))
      /\ forall i child,
           category_children NetworkKey (Nodes root) !! i = Some child ->
           exists n,
             NetworkAdapters (state_of (loadHardwareConfig nodeId
                                          (Some (mkResponse (Some root))) NodeConfig_zero))
               !! i = Some n
             /\ decodes_adapter child n
             /\ Name n = GetLeafKeyPath (Key child)).
Proof.
  unfold loadHardwareConfig, range. simpl. intros Hres.
  destruct (components_decoded nodeId (Nodes root) [] NodeConfig_zero 0%nat) as (HD & HP & HN).
  { repeat split; constructor. }
  { exact Hres. }
  simpl in HD, HP, HN. split; [|split]; (split; [symmetry; by eapply Forall2_length|]).
  - intros i child Hi. destruct (Forall2_lookup_l _ _ _ _ _ HD Hi) as (d & ? & ?).
    by exists d.
  - intros i child Hi. destruct (Forall2_lookup_l _ _ _ _ _ HP Hi) as (p & ? & ?).
    exists p. repeat split; [done|apply H0|apply H0|by apply decodes_processor_ID].
  - intros i child Hi. destruct (Forall2_lookup_l _ _ _ _ _ HN Hi) as (n & ? & ?).
    exists n. repeat split; [done|apply H0|apply H0|by apply decodes_adapter_Name].
Qed.

End PositionalFill.

(** ** parseKeyValuePairString *)

Section KeyValuePairs.

Lemma strings_Split_length s c :
  length (strings_Split s c) = S (count_byte c s).
Proof.
  induction s as [|d rest IH]; simpl; [done|].
  case_decide; simpl; [by rewrite IH|].
  destruct (strings_Split rest c); simpl in *; lia.
Qed.

Lemma strings_Split_no_sep s c :
  count_byte c s = 0%nat -> strings_Split s c = [s].
Proof.
  induction s as [|d rest IH]; simpl; [done|].
  case_decide; [done|]. simpl. intros H0. by rewrite IH.
Qed.

Lemma strings_Split_one_sep s c :
  count_byte c s = 1%nat -> strings_Split s c = [before_byte c s; after_byte c s].
Proof.
  induction s as [|d rest IH]; simpl; [done|].
  case_decide; simpl.
  - intros [= H0]. by rewrite strings_Split_no_sep.
  - intros H1. by rewrite IH.
Qed.

Lemma strings_Replace_empty s c :
  strings_Replace s c EmptyString = without_byte c s.
Proof.
  induction s as [|d rest IH]; simpl; [done|]. case_decide; simpl; by rewrite IH.
Qed.

Lemma strings_Split_join s c : join_with c (strings_Split s c) = s.
Proof.
  induction s as [|d rest IH]; simpl; [done|].
  case_decide as Hd.
  - subst d. pose proof (strings_Split_length rest c) as Hlen.
    destruct (strings_Split rest c) as [|t ts]; simpl in *; [lia|].
    by rewrite IH.
  - pose proof (strings_Split_length rest c) as Hlen.
    destruct (strings_Split rest c) as [|t ts]; simpl in *; [lia|].
    destruct ts; simpl in *; by rewrite <- IH.
Qed.

Lemma strings_Split_tokens s c :
  Forall (fun t => count_byte c t = 0%nat) (strings_Split s c).
Proof.
  induction s as [|d rest IH]; simpl.
  - by repeat constructor.
  - case_decide as Hd.
    + by constructor.
    + pose proof (strings_Split_length rest c) as Hlen.
      destruct (strings_Split rest c) as [|t ts]; simpl in *; [lia|].
      inversion IH; subst. constructor; [|done]. simpl. by case_decide.
Qed.

(** One turn of the loop stores exactly the pair the token stands for. *)
Lemma token_step (propMap : gmap string string) kvpRaw :
  (if decide (length (strings_Split kvpRaw equals) = 2%nat) then
     <[nth 0 (strings_Split kvpRaw equals) EmptyString
       := strings_Replace (nth 1 (strings_Split kvpRaw equals) EmptyString)
                          dquote EmptyString]> propMap
   else propMap)
  = match pair_of_token kvpRaw with
    | Some (k, v) => <[k := v]> propMap
    | None => propMap
    end.
Proof.
  unfold pair_of_token. rewrite strings_Split_length.
  destruct (decide (count_byte equals kvpRaw = 1%nat)) as [H1|H1].
  - rewrite decide_True by lia. rewrite strings_Split_one_sep by done. simpl.
    by rewrite strings_Replace_empty.
  - rewrite decide_False by lia. done.
Qed.

Lemma foldl_tokens (tokens : list string) (m : gmap string string) :
  foldl (fun (propMap : gmap string string) kvpRaw =>
           let kvp := strings_Split kvpRaw equals in
           if decide (length kvp = 2%nat) then
             <[nth 0 kvp EmptyString
               := strings_Replace (nth 1 kvp EmptyString) dquote EmptyString]> propMap
           else propMap) m tokens
  = list_to_map (reverse (omap pair_of_token tokens)) ∪ m.
Proof.
  revert m. induction tokens as [|t tokens IH]; intros m; simpl.
  - by rewrite (left_id_L ∅ (∪)).
  - rewrite IH. cbv zeta. rewrite token_step.
    destruct (pair_of_token t) as [[k v]|]; simpl; [|done].
    rewrite reverse_cons, list_to_map_app. simpl.
    rewrite insert_empty, <- (assoc_L (∪)). by rewrite <- insert_union_singleton_l.
Qed.

(** C10. [parseKeyValuePairString] computes the map the specification
    words: the string is cut at every single space (the pieces joined by
    spaces give the string back and hold no space), a piece counts when it
    holds exactly one '=', it sends what stands before the sign to what
    stands after it without the double quotes, and the last counting piece
    with a given key decides the key's value. *)
Theorem parseKeyValuePairString_refines propsRaw :
  parseKeyValuePairString propsRaw = parseKeyValuePairString_spec propsRaw
  /\ join_with space (strings_Split propsRaw space) = propsRaw
  /\ Forall (fun t => count_byte space t = 0%nat) (strings_Split propsRaw space)
  /\ (forall t, length (strings_Split t equals) = 2%nat <-> count_byte equals t = 1%nat)
  /\ (forall before t after k v,
         strings_Split propsRaw space = before ++ t :: after ->
         pair_of_token t = Some (k, v) ->
         (forall t' v', t' ∈ after -> pair_of_token t' <> Some (k, v')) ->
         parseKeyValuePairString propsRaw !! k = Some v)
  /\ (forall k,
         (forall t v, t ∈ strings_Split propsRaw space -> pair_of_token t <> Some (k, v)) ->
         parseKeyValuePairString propsRaw !! k = None).
Proof.
  assert (parseKeyValuePairString propsRaw = parseKeyValuePairString_spec propsRaw) as Heq.
  { unfold parseKeyValuePairString, parseKeyValuePairString_spec. cbv zeta.
    rewrite foldl_tokens. by rewrite (right_id_L ∅ (∪)). }
  split; [exact Heq|]. split; [apply strings_Split_join|].
  split; [apply strings_Split_tokens|]. split; [|split].
  - intros t. rewrite strings_Split_length. lia.
  - intros before t after k v Hsplit Ht Hafter. rewrite Heq.
    unfold parseKeyValuePairString_spec. rewrite Hsplit, omap_app. simpl. rewrite Ht.
    rewrite reverse_app, reverse_cons, <- app_assoc, list_to_map_app. simpl.
    rewrite lookup_union_r, lookup_insert_eq; [done|].
    apply not_elem_of_list_to_map_1. intros Hin.
    apply list_elem_of_fmap in Hin as ([k' v'] & -> & Hin).
    apply elem_of_reverse, list_elem_of_omap in Hin as (t' & Hin & Ht').
    by apply (Hafter t' v').
  - intros k Hnone. rewrite Heq. unfold parseKeyValuePairString_spec.
    apply not_elem_of_list_to_map_1. intros Hin.
    apply list_elem_of_fmap in Hin as ([k' v'] & -> & Hin).
    apply elem_of_reverse, list_elem_of_omap in Hin as (t' & Hin & Ht').
    by apply (Hnone t' v').
Qed.

End KeyValuePairs.

(** * The properties on the sample inputs *)

Section Samples.
Import Sample Data.

Lemma c_in_listing1 : "c" ∈ (GetDirChildKeys store1 DiscoveredNodesKey).1.
Proof. apply list_elem_of_In. vm_compute. tauto. Qed.

Lemma d_in_listing2 : "d" ∈ (GetDirChildKeys store2 DiscoveredNodesKey).1.
Proof. apply list_elem_of_In. vm_compute. tauto. Qed.

(** What the load over [store1] returns, read through booleans. *)
Lemma load1_returns :
  is_Ok (loadNodeConfig store1).2 = true.
Proof. vm_compute. reflexivity. Qed.

Lemma load1_entries :
  match (loadNodeConfig store1).2 with
  | Ok m => (bool_decide (m !! "a" = None), bool_decide (is_Some (m !! "b")),
             bool_decide (is_Some (m !! "c")))
  | _ => (false, false, false)
  end = (true, true, true).
Proof. vm_compute. reflexivity. Qed.

Ltac load1 m Ha Hb Hc :=
  let Hload := fresh in
  pose proof load1_returns as Hload; pose proof load1_entries as Ha;
  destruct ((loadNodeConfig store1).2) as [m| |]; [clear Hload|discriminate Hload..];
  injection Ha as Ha Hb Hc;
  apply bool_decide_eq_true in Ha, Hb, Hc.

Lemma subtreeD_malformed : malformed_subtree subtreeD.
Proof.
  exists (dir "/castle/nodes/d/cpu"
            [dir "/castle/nodes/d/cpu/0" [leaf "/castle/nodes/d/cpu/0/siblings" "x1"]]).
  split; [apply list_elem_of_In; simpl; tauto|].
  left. split; [reflexivity|].
  exists (dir "/castle/nodes/d/cpu/0" [leaf "/castle/nodes/d/cpu/0/siblings" "x1"]).
  split; [apply list_elem_of_In; simpl; tauto|].
  right. exists (leaf "/castle/nodes/d/cpu/0/siblings" "x1").
  split; [apply list_elem_of_In; simpl; tauto|].
  left. split; [apply list_elem_of_In; vm_compute; tauto|].
  eexists. vm_compute. reflexivity.
Qed.

Lemma vendor_added : adds_unknown_key subtreeB subtreeB_vendor.
Proof.
  apply (add_processor_property subtreeB [] [memB; netB; disksB; ipB] cpuB
           [] [cpu1] cpu0
           [leaf "/castle/nodes/b/cpu/0/physicalid" "3"]
           [leaf "/castle/nodes/b/cpu/0/speed" "2400"] vendor);
    try reflexivity.
  intros Hin. apply list_elem_of_In in Hin. vm_compute in Hin.
  intuition discriminate.
Qed.

(** On [store1] the fetch of node c times out, its address is read, and
    the returned mapping holds c with the zero config and that address. *)
Lemma other_fetch_error_keeps_node_witness :
  exists m,
    (loadNodeConfig store1).2 = Ok m
    /\ m !! "c" = Some (set_IPAddress "10.0.0.3" NodeConfig_zero).
Proof.
  destruct (@other_fetch_error_keeps_node sample_env store1 "c" timeout
              ltac:(vm_compute; reflexivity) eq_refl) as [H _].
  destruct (H (mkResponse (Some (leaf "/castle/nodes/c/ipaddress" "10.0.0.3")))
              (leaf "/castle/nodes/c/ipaddress" "10.0.0.3")
              ltac:(vm_compute; reflexivity) eq_refl) as [_ Hm].
  load1 m Ha Hb Hc.
  exists m. split; [reflexivity|]. apply Hm; [reflexivity|apply c_in_listing1].
Defined.

(** The claim as worded fails on [store1]: the fetch of node c fails with
    an error that is not key-not-found, and yet the returned mapping has an
    entry for c. *)
Lemma other_fetch_error_node_not_skipped :
  Get store1 (GetNodeConfigKey "c") recursive = inr timeout
  /\ IsEtcdKeyNotFound timeout = false
  /\ "c" ∈ (GetDirChildKeys store1 DiscoveredNodesKey).1
  /\ exists m cfg, (loadNodeConfig store1).2 = Ok m /\ m !! "c" = Some cfg.
Proof.
  split; [vm_compute; reflexivity|]. split; [reflexivity|].
  split; [apply c_in_listing1|].
  load1 m Ha Hb Hc. destruct Hc as [cfg Hc].
  exists m, cfg. split; [reflexivity|exact Hc].
Qed.

(** On [store1] node b is decoded with the address 10.0.0.9 of its
    subtree, and its entry holds 10.0.0.2, the address the accessor reads. *)
Lemma ip_address_fetched_and_stored_witness :
  IPAddress (state_of (loadHardwareConfig "b" (Some (mkResponse (Some subtreeB)))
                         NodeConfig_zero)) = "10.0.0.9"
  /\ exists m cfg,
       (loadNodeConfig store1).2 = Ok m /\ m !! "b" = Some cfg
       /\ IPAddress cfg = "10.0.0.2".
Proof.
  split; [vm_compute; reflexivity|].
  destruct (@ip_address_fetched_and_stored sample_env store1 "b") as (_ & _ & _ & _ & _ & H).
  load1 m Ha Hb Hc. destruct Hb as [cfg Hb].
  exists m, cfg. split; [reflexivity|]. split; [exact Hb|].
  destruct (H m cfg eq_refl Hb) as (resp & n & Hget & Hn & Hip).
  vm_compute in Hget. injection Hget as <-. injection Hn as <-. exact Hip.
Defined.

(** The claim as worded fails on [store1]: node a is listed and its
    address cannot be read, yet the load returns a mapping, in which a has
    no entry. *)
Lemma ip_address_not_fetched_for_skipped_node :
  "a" ∈ (GetDirChildKeys store1 DiscoveredNodesKey).1
  /\ Get store1 (ipAddressKeyOf "a") None = inr notFound
  /\ exists m, (loadNodeConfig store1).2 = Ok m /\ m !! "a" = None.
Proof.
  split; [apply list_elem_of_In; vm_compute; tauto|].
  split; [vm_compute; reflexivity|].
  load1 m Ha Hb Hc. exists m. split; [reflexivity|exact Ha].
Qed.

(** On [store2] the load meets node d after node b and returns the parse
    error of d's processor property. *)
Lemma malformed_leaf_aborts_load_witness :
  (loadNodeConfig store2).2 = Err (NumError "ParseUint" "x1" ErrSyntax)
  /\ forall m, (loadNodeConfig store2).2 <> Ok m.
Proof.
  destruct (@malformed_leaf_aborts_load sample_env store2 "d" subtreeD subtreeD_malformed)
    as [_ H].
  destruct (H ltac:(vm_compute; reflexivity)) as (e & He & _ & Hload & Hno).
  vm_compute in He. injection He as <-.
  split; [|exact (Hno d_in_listing2)].
  apply (Hload ["b"] []); vm_compute; reflexivity.
Defined.

(** A nil response is refused; the childless root [subtreeE] is not. *)
Lemma loadHardwareConfig_missing_or_empty_witness :
  loadHardwareConfig "e" None NodeConfig_zero
  = ([], NodeConfig_zero, Err (errors_New "hardware info missing"))
  /\ loadHardwareConfig "e" (Some (mkResponse (Some subtreeE))) NodeConfig_zero
     = ([], NodeConfig_zero, Ok tt).
Proof.
  destruct (@loadHardwareConfig_missing_or_empty sample_env "e" NodeConfig_zero) as (H1 & _ & H3).
  split; [exact H1|apply H3; reflexivity].
Defined.

(** The claim as worded fails on [subtreeE]: its root has no children and
    the decoder returns no error. *)
Lemma empty_root_is_no_error :
  Nodes subtreeE = []
  /\ result_of (loadHardwareConfig "e" (Some (mkResponse (Some subtreeE))) NodeConfig_zero)
     = Ok tt.
Proof. split; reflexivity. Qed.

(** The directory [ipDir] makes the decode of [subtreeF] fail; the leaf
    [ipB] is copied. *)
Lemma ipaddress_directory_rejected_witness :
  (exists e, result_of (loadHardwareConfig "f" (Some (mkResponse (Some subtreeF)))
                          NodeConfig_zero) = Err e)
  /\ loadIPAddressConfig ipB NodeConfig_zero
     = ([], set_IPAddress "10.0.0.9" NodeConfig_zero, Ok tt).
Proof.
  destruct (@ipaddress_directory_rejected sample_env) as (_ & Hdir & Hleaf).
  split.
  - apply (Hdir "f" subtreeF ipDir); [apply list_elem_of_In; simpl; tauto|reflexivity..].
  - apply Hleaf. reflexivity.
Defined.

(** [subtreeB] with the property vendor added decodes without error to
    the processors of [subtreeB]. *)
Lemma unknown_keys_ignored_witness :
  PhysicalID <$> Processors (state_of (loadHardwareConfig "b"
                                         (Some (mkResponse (Some subtreeB_vendor)))
                                         NodeConfig_zero))
  = [3; 0]
  /\ result_of (loadHardwareConfig "b" (Some (mkResponse (Some subtreeB_vendor)))
                  NodeConfig_zero) = Ok tt.
Proof.
  destruct (@unknown_keys_ignored sample_env subtreeB subtreeB_vendor vendor_added "b"
              NodeConfig_zero) as [Hst Hres].
  rewrite Hst, Hres. split; vm_compute; reflexivity.
Defined.

(** [subtreeB] has two disks, two processors and one adapter, and so has
    its decoded config. *)
Lemma sequences_filled_positionally_witness :
  length (Disks (state_of (loadHardwareConfig "b" (Some (mkResponse (Some subtreeB)))
                             NodeConfig_zero))) = 2%nat
  /\ length (Processors (state_of (loadHardwareConfig "b" (Some (mkResponse (Some subtreeB)))
                                     NodeConfig_zero))) = 2%nat
  /\ length (NetworkAdapters (state_of (loadHardwareConfig "b"
                                          (Some (mkResponse (Some subtreeB)))
                                          NodeConfig_zero))) = 1%nat.
Proof.
  destruct (@sequences_filled_positionally sample_env "b" subtreeB ltac:(vm_compute; reflexivity))
    as ([HD _] & [HP _] & [HN _]).
  rewrite HD, HP, HN. repeat split.
Defined.

(** On [store1] node a is answered by key-not-found: its turn only logs,
    and the returned mapping has no entry for it. *)
Lemma not_found_node_skipped_witness :
  loadNodeConfig_body store1 "a" ∅
  = ([Printf "skipping node %s with no hardware discovered" [ArgStr "a"]], ∅, Ok tt)
  /\ exists m, (loadNodeConfig store1).2 = Ok m /\ m !! "a" = None.
Proof.
  destruct (@not_found_node_skipped sample_env store1 "a" notFound
              ltac:(vm_compute; reflexivity) eq_refl) as (Hbody & _ & Hm).
  split; [apply Hbody|].
  load1 m Ha Hb Hc. exists m. split; [reflexivity|]. apply Hm. reflexivity.
Defined.

(** Of two pairs with the key foo the later one stays. *)
Lemma parseKeyValuePairString_refines_witness :
  parseKeyValuePairString "foo=1 bar=2 foo=3 baz" !! "foo" = Some "3".
Proof.
  destruct (parseKeyValuePairString_refines "foo=1 bar=2 foo=3 baz")
    as (_ & _ & _ & _ & H & _).
  apply (H ["foo=1"; "bar=2"] "foo=3" ["baz"]); [reflexivity|reflexivity|].
  intros t' v' Hin. apply list_elem_of_In in Hin. simpl in Hin.
  destruct Hin as [<-|[]]. vm_compute. discriminate.
Defined.

End Samples.

(** * Further properties *)

(** ** The bulk loader as a whole *)

Section LoaderWhole.
Context `{E : Env}.
Variable etcdClient : KeysAPI.

Lemma ip_step_outcome node nodeConfig m :
  state_of (loadNodeConfig_ip etcdClient node nodeConfig m)
  = match ip_outcome etcdClient node nodeConfig with
    | Ok (Some X) => <[node := X]> m
    | _ => m
    end
  /\ result_of (loadNodeConfig_ip etcdClient node nodeConfig m)
     = match ip_outcome etcdClient node nodeConfig with
       | Ok _ => Ok tt
       | Err e => Err e
       | Panic p => Panic p
       end.
Proof.
  unfold ip_outcome.
  destruct (Get etcdClient (ipAddressKeyOf node) None) as [resp|e] eqn:Hget.
  - destruct (RespNode resp) as [n|] eqn:Hn.
    + by rewrite (loadNodeConfig_ip_ok _ _ _ _ _ _ Hget Hn).
    + unfold loadNodeConfig_ip, GetIpAddress, bind, or_log, lift.
      fold (ipAddressKeyOf node). by rewrite Hget, Hn.
  - by rewrite (loadNodeConfig_ip_err _ _ _ _ _ Hget).
Qed.

(** One turn of the loop acts on the mapping as [node_outcome] says. *)
Lemma body_outcome node m :
  state_of (loadNodeConfig_body etcdClient node m)
  = match node_outcome etcdClient node with
    | Ok (Some X) => <[node := X]> m
    | _ => m
    end
  /\ result_of (loadNodeConfig_body etcdClient node m)
     = match node_outcome etcdClient node with
       | Ok _ => Ok tt
       | Err e => Err e
       | Panic p => Panic p
       end.
Proof.
  unfold node_outcome.
  destruct (Get etcdClient (GetNodeConfigKey node) recursive) as [resp|err] eqn:Hget.
  - destruct (result_of (loadHardwareConfig node (Some resp) NodeConfig_zero))
      as [[]|e|p] eqn:Hd.
    + destruct (body_decoded _ _ _ m Hget Hd) as [-> ->]. apply ip_step_outcome.
    + by rewrite (body_decode_error _ _ _ _ _ Hget Hd).
    + by destruct (loadHardwareConfig_never_panics node (Some resp) NodeConfig_zero p).
  - destruct (IsEtcdKeyNotFound err) eqn:Hnf.
    + by rewrite (body_not_found _ _ _ _ Hget Hnf).
    + rewrite (body_other_error _ _ _ _ Hget Hnf). apply ip_step_outcome.
Qed.

Lemma loop_lookup nodes :
  forall m0,
    result_of (loadNodeConfig_loop etcdClient nodes m0) = Ok tt ->
    forall k,
      state_of (loadNodeConfig_loop etcdClient nodes m0) !! k
      = if decide (k ∈ nodes) then
          match node_outcome etcdClient k with
          | Ok (Some X) => Some X
          | _ => m0 !! k
          end
        else m0 !! k.
Proof.
  induction nodes as [|n rest IH]; intros m0 Hres k.
  - rewrite decide_False by apply not_elem_of_nil. done.
  - revert Hres. rewrite loop_cons. unfold bind.
    destruct (body_outcome n m0) as [Hst Hr]. unfold state_of, result_of in *.
    destruct (loadNodeConfig_body etcdClient n m0) as [[l m1] r]; simpl in *.
    destruct (node_outcome etcdClient n) as [o|e|p] eqn:Hn; subst r; try done.
    specialize (IH m1).
    destruct (loadNodeConfig_loop etcdClient rest m1) as [[l' m2] r']; simpl in *.
    intros Hres. rewrite (IH Hres k). clear IH.
    destruct (decide (k = n)) as [->|Hne].
    + rewrite (decide_True (P := n ∈ n :: rest)) by (apply elem_of_cons; by left).
      rewrite Hn. destruct o as [X|]; subst m1.
      * rewrite lookup_insert_eq. by case_decide.
      * by case_decide.
    + assert (m1 !! k = m0 !! k) as ->.
      { destruct o as [X|]; subst m1; [by rewrite lookup_insert_ne|done]. }
      destruct (decide (k ∈ rest)) as [Hin|Hin].
      * rewrite decide_True; [done|apply elem_of_cons; by right].
      * rewrite decide_False; [done|]. intros [?|?]%elem_of_cons; done.
Qed.

Lemma body_result_any node m m' :
  result_of (loadNodeConfig_body etcdClient node m)
  = result_of (loadNodeConfig_body etcdClient node m').
Proof.
  destruct (body_outcome node m) as [_ ->]. by destruct (body_outcome node m') as [_ ->].
Qed.

Lemma loop_success nodes :
  forall m0,
    result_of (loadNodeConfig_loop etcdClient nodes m0) = Ok tt
    <-> Forall (fun n => result_of (loadNodeConfig_body etcdClient n ∅) = Ok tt) nodes.
Proof.
  induction nodes as [|n rest IH]; intros m0.
  - split; [constructor|done].
  - rewrite loop_cons, Forall_cons, (body_result_any n ∅ m0).
    unfold bind, result_of.
    destruct (loadNodeConfig_body etcdClient n m0) as [[l m1] [[]|e|p]]; simpl.
    + specialize (IH m1). unfold result_of in IH.
      destruct (loadNodeConfig_loop etcdClient rest m1) as [[l' m2] r']; simpl in *.
      rewrite IH. tauto.
    + split; [done|by intros [? _]].
    + split; [done|by intros [? _]].
Qed.

(** X1. A mapping that the load returns holds no id outside the listing,
    and for a listed node whose subtree was fetched it holds exactly the
    decoded config with the address the accessor read: the decode returned
    no error and the address was readable. *)
Theorem loadNodeConfig_entries_exact m :
  (loadNodeConfig etcdClient).2 = Ok m ->
  (forall k, k ∉ (GetDirChildKeys etcdClient DiscoveredNodesKey).1 -> m !! k = None)
  /\ (forall k resp,
         k ∈ (GetDirChildKeys etcdClient DiscoveredNodesKey).1 ->
         Get etcdClient (GetNodeConfigKey k) recursive = inl resp ->
         result_of (loadHardwareConfig k (Some resp) NodeConfig_zero) = Ok tt
         /\ exists ipresp n,
              Get etcdClient (ipAddressKeyOf k) None = inl ipresp
              /\ RespNode ipresp = Some n
              /\ m !! k
                 = Some (set_IPAddress (Value n)
                           (state_of (loadHardwareConfig k (Some resp) NodeConfig_zero)))).
Proof.
  intros (nodes & Hlist & Hres & <-)%loadNodeConfig_Ok. rewrite Hlist. cbn [fst].
  pose proof (loop_lookup nodes ∅ Hres) as Hlk. split.
  - intros k Hk. rewrite Hlk, decide_False by done. apply lookup_empty.
  - intros k resp Hk Hget. specialize (Hlk k). rewrite decide_True in Hlk by done.
    apply (loop_success nodes ∅) in Hres.
    rewrite Forall_forall in Hres. specialize (Hres k Hk).
    destruct (body_outcome k ∅) as [_ Hr]. rewrite Hres in Hr. clear Hres.
    revert Hlk Hr. unfold node_outcome, ip_outcome. rewrite Hget.
    destruct (result_of (loadHardwareConfig k (Some resp) NodeConfig_zero))
      as [[]|e|p]; [|done..].
    destruct (Get etcdClient (ipAddressKeyOf k) None) as [ipresp|e]; [|done].
    destruct (RespNode ipresp) as [n|] eqn:Hn; [|done].
    intros Hlk _. split; [done|]. by exists ipresp, n.
Qed.

(** X2. The turns of the loop do not depend on the mapping built so far:
    the load returns a mapping exactly when the listing succeeded and the
    turn of every listed node, run on its own, returns normally. *)
Theorem loadNodeConfig_succeeds_iff :
  (exists m, (loadNodeConfig etcdClient).2 = Ok m)
  <-> (GetDirChildKeys etcdClient DiscoveredNodesKey).2 = None
      /\ Forall (fun n => result_of (loadNodeConfig_body etcdClient n ∅) = Ok tt)
                (GetDirChildKeys etcdClient DiscoveredNodesKey).1.
Proof.
  split.
  - intros [m (nodes & Hlist & Hres & _)%loadNodeConfig_Ok]. rewrite Hlist. simpl.
    split; [done|]. by apply (loop_success nodes ∅).
  - unfold loadNodeConfig.
    destruct (GetDirChildKeys etcdClient DiscoveredNodesKey) as [nodes [err|]]; simpl;
      intros [Herr Hall]; [done|].
    apply (loop_success nodes ∅) in Hall. unfold result_of in Hall.
    destruct (loadNodeConfig_loop etcdClient nodes ∅) as [[l m] r]; simpl in *; subst r.
    by exists m.
Qed.

(** X3. The order in which the set of node ids is iterated does not show
    in a successful load: over a permutation of the ids the loop returns
    normally as well, with the same mapping. *)
Theorem loadNodeConfig_loop_order nodes nodes' m0 :
  Permutation nodes nodes' ->
  result_of (loadNodeConfig_loop etcdClient nodes m0) = Ok tt ->
  result_of (loadNodeConfig_loop etcdClient nodes' m0) = Ok tt
  /\ state_of (loadNodeConfig_loop etcdClient nodes' m0)
     = state_of (loadNodeConfig_loop etcdClient nodes m0).
Proof.
  intros Hperm Hres.
  assert (result_of (loadNodeConfig_loop etcdClient nodes' m0) = Ok tt) as Hres'.
  { apply loop_success. apply loop_success in Hres. by rewrite <- Hperm. }
  split; [done|]. apply map_eq. intros k.
  rewrite (loop_lookup nodes' m0 Hres' k), (loop_lookup nodes m0 Hres k).
  destruct (decide (k ∈ nodes)) as [Hin|Hin].
  - rewrite decide_True; [done|by rewrite <- Hperm].
  - rewrite decide_False; [done|by rewrite <- Hperm].
Qed.

End LoaderWhole.

(** ** What the decoder touches, and where it stops *)

Section DecoderFrame.
Context `{E : Env}.

Lemma range_from_preserves_in {St A X} (proj : St -> X) (body : nat -> A -> M St unit) xs :
  (forall i x s, x ∈ xs -> proj (state_of (body i x s)) = proj s) ->
  forall i s, proj (state_of (range_from i xs body s)) = proj s.
Proof.
  induction xs as [|x xs IH]; intros Hb i s; simpl; [done|].
  assert (forall i x s, x ∈ xs -> proj (state_of (body i x s)) = proj s) as Hb'.
  { intros. apply Hb, elem_of_cons. by right. }
  assert (proj (state_of (body i x s)) = proj s) as Hx.
  { apply Hb, elem_of_cons. by left. }
  specialize (IH Hb'). unfold bind, state_of in *.
  destruct (body i x s) as [[l t] [[]|e|p]]; simpl in *; try done.
  specialize (IH (S i) t).
  destruct (range_from (S i) xs body t) as [[? ?] ?]; simpl in *. congruence.
Qed.

Lemma or_log_state {St A} (m : M St A) f s :
  state_of (or_log m f s) = state_of (m s).
Proof. unfold or_log, state_of. by destruct (m s) as [[l t] [a|e|p]]. Qed.

Lemma modify_then_state {St A} (f : St -> St) (k : M St A) s :
  state_of ((modify f ;;; k) s) = state_of (k (f s)).
Proof. unfold bind, modify, state_of. by destruct (k (f s)) as [[? ?] ?]. Qed.

(** Each category parser assigns one field of the config and no other. *)
Lemma loadDisksConfig_others c cfg :
  let s := state_of (loadDisksConfig c cfg) in
  (IPAddress s, Processors s, Memory s, NetworkAdapters s)
  = (IPAddress cfg, Processors cfg, Memory cfg, NetworkAdapters cfg).
Proof.
  unfold loadDisksConfig, range. rewrite modify_then_state. cbv zeta.
  set (f := fun err => Printf "Failed to get disk. err=%v" [ArgErr err]).
  etransitivity; [apply (fill_loop_frame Disks set_Disks
           (fun s => (IPAddress s, Processors s, Memory s, NetworkAdapters s))
           (fun x => or_log (lift (GetDiskInfo x)) f)
           (fun _ _ => eq_refl) (fun x s => proj1 (disk_item_pure f x s)))|done].
Qed.

Lemma loadProcessorsConfig_others c cfg :
  let s := state_of (loadProcessorsConfig c cfg) in
  (IPAddress s, Disks s, Memory s, NetworkAdapters s)
  = (IPAddress cfg, Disks cfg, Memory cfg, NetworkAdapters cfg).
Proof.
  unfold loadProcessorsConfig, range. rewrite modify_then_state. cbv zeta.
  etransitivity; [apply (fill_loop_frame Processors set_Processors
           (fun s => (IPAddress s, Disks s, Memory s, NetworkAdapters s))
           (fun x => local ProcessorConfig_zero (loadProcessor x))
           (fun _ _ => eq_refl) (fun x s => proj1 (local_pure _ _ s)))|done].
Qed.

Lemma loadNetworkConfig_others c cfg :
  let s := state_of (loadNetworkConfig c cfg) in
  (IPAddress s, Disks s, Processors s, Memory s)
  = (IPAddress cfg, Disks cfg, Processors cfg, Memory cfg).
Proof.
  unfold loadNetworkConfig, range. rewrite modify_then_state. cbv zeta.
  etransitivity; [apply (fill_loop_frame NetworkAdapters set_NetworkAdapters
           (fun s => (IPAddress s, Disks s, Processors s, Memory s))
           (fun x => local NetworkConfig_zero (loadNetworkAdapter x))
           (fun _ _ => eq_refl) (fun x s => proj1 (local_pure _ _ s)))|done].
Qed.

Lemma loadMemoryConfig_others c cfg :
  let s := state_of (loadMemoryConfig c cfg) in
  (IPAddress s, Disks s, Processors s, NetworkAdapters s)
  = (IPAddress cfg, Disks cfg, Processors cfg, NetworkAdapters cfg).
Proof.
  unfold loadMemoryConfig, bind, modify, local, state_of.
  by destruct (range _ _ _) as [[l t] [[]|e|p]].
Qed.

Lemma loadIPAddressConfig_others c cfg :
  let s := state_of (loadIPAddressConfig c cfg) in
  (Disks s, Processors s, Memory s, NetworkAdapters s)
  = (Disks cfg, Processors cfg, Memory cfg, NetworkAdapters cfg).
Proof. unfold loadIPAddressConfig. by destruct (Dir c). Qed.

Lemma component_frame nodeId x cfg :
  (GetLeafKeyPath (Key x) <> DisksKey ->
   Disks (state_of (loadHardwareComponent nodeId x cfg)) = Disks cfg)
  /\ (GetLeafKeyPath (Key x) <> ProcessorsKey ->
      Processors (state_of (loadHardwareComponent nodeId x cfg)) = Processors cfg)
  /\ (GetLeafKeyPath (Key x) <> MemoryKey ->
      Memory (state_of (loadHardwareComponent nodeId x cfg)) = Memory cfg)
  /\ (GetLeafKeyPath (Key x) <> NetworkKey ->
      NetworkAdapters (state_of (loadHardwareComponent nodeId x cfg))
      = NetworkAdapters cfg)
  /\ (GetLeafKeyPath (Key x) <> IpAddressKey ->
      IPAddress (state_of (loadHardwareComponent nodeId x cfg)) = IPAddress cfg).
Proof.
  unfold loadHardwareComponent.
  repeat case_decide; rewrite ?or_log_state.
  - pose proof (loadDisksConfig_others x cfg) as [= -> -> -> ->]. by repeat split.
  - pose proof (loadProcessorsConfig_others x cfg) as [= -> -> -> ->]. by repeat split.
  - pose proof (loadMemoryConfig_others x cfg) as [= -> -> -> ->]. by repeat split.
  - pose proof (loadNetworkConfig_others x cfg) as [= -> -> -> ->]. by repeat split.
  - pose proof (loadIPAddressConfig_others x cfg) as [= -> -> -> ->]. by repeat split.
  - by repeat split.
Qed.

(** X4. The decoder assigns only the fields whose category occurs among
    the children of the subtree root: a field whose category is absent is
    left as it was, whether the decode returns an error or not. *)
Theorem decoder_leaves_absent_categories nodeId root cfg :
  ((forall c, c ∈ Nodes root -> GetLeafKeyPath (Key c) <> DisksKey) ->
   Disks (state_of (loadHardwareConfig nodeId (Some (mkResponse (Some root))) cfg))
   = Disks cfg)
  /\ ((forall c, c ∈ Nodes root -> GetLeafKeyPath (Key c) <> ProcessorsKey) ->
      Processors (state_of (loadHardwareConfig nodeId (Some (mkResponse (Some root))) cfg))
      = Processors cfg)
  /\ ((forall c, c ∈ Nodes root -> GetLeafKeyPath (Key c) <> MemoryKey) ->
      Memory (state_of (loadHardwareConfig nodeId (Some (mkResponse (Some root))) cfg))
      = Memory cfg)
  /\ ((forall c, c ∈ Nodes root -> GetLeafKeyPath (Key c) <> NetworkKey) ->
      NetworkAdapters (state_of (loadHardwareConfig nodeId (Some (mkResponse (Some root)))
                                   cfg))
      = NetworkAdapters cfg)
  /\ ((forall c, c ∈ Nodes root -> GetLeafKeyPath (Key c) <> IpAddressKey) ->
      IPAddress (state_of (loadHardwareConfig nodeId (Some (mkResponse (Some root))) cfg))
      = IPAddress cfg).
Proof.
  unfold loadHardwareConfig, range. cbn [RespNode].
  repeat split; intros Habs; apply range_from_preserves_in; intros _ x s Hx;
    by apply component_frame, Habs.
Qed.

(** X5. The decoder handles the children of the subtree root one after
    the other and stops at the first one whose parser fails: the error and
    the config reached at that child are the decoder's, whatever children
    follow it. *)
Theorem decoder_stops_at_first_failure nodeId root pre c post cfg e :
  Nodes root = pre ++ c :: post ->
  result_of (loadHardwareConfig nodeId (Some (mkResponse (Some (with_Nodes root pre)))) cfg)
  = Ok tt ->
  result_of (loadHardwareComponent nodeId c
               (state_of (loadHardwareConfig nodeId
                            (Some (mkResponse (Some (with_Nodes root pre)))) cfg)))
  = Err e ->
  result_of (loadHardwareConfig nodeId (Some (mkResponse (Some root))) cfg) = Err e
  /\ state_of (loadHardwareConfig nodeId (Some (mkResponse (Some root))) cfg)
     = state_of (loadHardwareComponent nodeId c
                   (state_of (loadHardwareConfig nodeId
                                (Some (mkResponse (Some (with_Nodes root pre)))) cfg))).
Proof.
  unfold loadHardwareConfig, range. cbn [RespNode Nodes with_Nodes]. intros -> Hpre Hc.
  rewrite range_from_app. simpl. unfold bind, result_of, state_of in *.
  destruct (range_from 0 pre _ cfg) as [[l t] r]; simpl in *. subst r.
  destruct (loadHardwareComponent nodeId c t) as [[l' t'] r']; simpl in *. by subst r'.
Qed.

End DecoderFrame.

(** ** The widths of the decoded numbers *)

Section Widths.
Context `{E : Env}.

Lemma ParseUint_digits_range s : forall n cutoff maxVal m,
  0 <= n <= maxVal ->
  ParseUint_digits s n cutoff maxVal = inl m -> 0 <= m <= maxVal.
Proof.
  induction s as [|d rest IH]; intros n cutoff maxVal m Hn; simpl.
  - by intros [= <-].
  - destruct (digit_value d) as [v|]; [|done].
    destruct (cutoff <=? n); [done|].
    destruct (_ || _) eqn:Hchk; [done|].
    apply orb_false_iff in Hchk as [_ Hmax]. apply Z.ltb_ge in Hmax.
    apply IH. split; [|done]. apply Z.mod_pos_bound. lia.
Qed.

(** At a width from 1 to 64 the largest value is [2 ^ bitSize - 1]. *)
Lemma ParseUint_maxVal bitSize :
  1 <= bitSize <= 64 ->
  (Z.shiftl 1 bitSize mod 2 ^ 64 - 1) mod 2 ^ 64 = 2 ^ bitSize - 1.
Proof.
  intros Hb. rewrite Z.shiftl_1_l.
  assert (1 <= 2 ^ bitSize) by (pose proof (Z.pow_pos_nonneg 2 bitSize); lia).
  destruct (decide (bitSize = 64)) as [->|Hne]; [reflexivity|].
  assert (2 ^ bitSize < 2 ^ 64) by (apply Z.pow_lt_mono_r; lia).
  rewrite (Z.mod_small (2 ^ bitSize)) by lia. apply Z.mod_small. lia.
Qed.

Lemma ParseUint_width s bitSize :
  1 <= bitSize <= 64 ->
  ParseUint s bitSize
  = match s with
    | EmptyString => inr (NumError "ParseUint" s ErrSyntax)
    | _ =>
      match ParseUint_digits s 0 (maxUint64 / 10 + 1) (2 ^ bitSize - 1) with
      | inl n => inl n
      | inr e => inr (NumError "ParseUint" s e)
      end
    end.
Proof.
  intros Hb. unfold ParseUint. destruct s as [|d rest]; [done|].
  rewrite (proj2 (Z.eqb_neq bitSize 0)) by lia.
  rewrite (proj2 (Z.ltb_ge bitSize 0)) by lia.
  rewrite (proj2 (Z.ltb_ge 64 bitSize)) by lia.
  cbn [negb andb orb]. cbv zeta. by rewrite ParseUint_maxVal.
Qed.

Lemma ParseUint_fits s bitSize n :
  1 <= bitSize <= 64 -> ParseUint s bitSize = inl n -> fits bitSize n.
Proof.
  intros Hb. rewrite ParseUint_width by done. unfold fits.
  destruct s as [|d rest]; [done|].
  destruct (ParseUint_digits _ _ _ _) as [m|e] eqn:Hd; [|done].
  intros [= <-]. apply ParseUint_digits_range in Hd; [lia|].
  pose proof (Z.pow_pos_nonneg 2 bitSize). lia.
Qed.

Ltac parsed :=
  match goal with
  | |- context [lift (ParseUint ?v ?b)] =>
    let H := fresh in
    pose proof (ParseUint_fits v b) as H; unfold bind, lift, modify, state_of;
    destruct (ParseUint v b); simpl; [specialize (H _ ltac:(lia) eq_refl)|]
  end.

Lemma loadProcessorProperty_in_range p s :
  processor_in_range s -> processor_in_range (state_of (loadProcessorProperty p s)).
Proof.
  unfold loadProcessorProperty, processor_in_range. intros (? & ? & ? & ? & ? & ?).
  repeat case_decide; try parsed; try done.
  unfold bind, lift, modify, state_of. by destruct (ParseFloat (Value p) 64).
Qed.

Lemma lift_then_state {St A B} (r : A + error) (k : A -> M St B) s :
  state_of ((x <- lift r ;; k x) s)
  = match r with inl a => state_of (k a s) | inr _ => s end.
Proof.
  unfold bind, lift, state_of. destruct r as [a|e]; [|done].
  by destruct (k a s) as [[? ?] ?].
Qed.

Lemma loadProcessor_in_range procInfo :
  processor_in_range (state_of (loadProcessor procInfo ProcessorConfig_zero)).
Proof.
  assert (processor_in_range ProcessorConfig_zero) as H0.
  { unfold processor_in_range, fits. simpl. lia. }
  unfold loadProcessor, range. rewrite lift_then_state.
  pose proof (ParseUint_fits (GetLeafKeyPath (Key procInfo)) 32) as Hid.
  destruct (ParseUint (GetLeafKeyPath (Key procInfo)) 32) as [procID|e]; [|done].
  specialize (Hid _ ltac:(lia) eq_refl). rewrite modify_then_state.
  apply (range_from_invariant processor_in_range).
  - intros _ x s. apply loadProcessorProperty_in_range.
  - unfold processor_in_range, fits in *. simpl in *. lia.
Qed.

Lemma loadNetworkProperty_in_range p s :
  fits 64 (NetSpeed s) -> fits 64 (NetSpeed (state_of (loadNetworkProperty p s))).
Proof.
  unfold loadNetworkProperty. intros Hs.
  repeat case_decide; try parsed; done.
Qed.

Lemma loadNetworkAdapter_in_range netInfo :
  fits 64 (NetSpeed (state_of (loadNetworkAdapter netInfo NetworkConfig_zero))).
Proof.
  unfold loadNetworkAdapter, range. rewrite modify_then_state.
  apply (range_from_invariant (fun s => fits 64 (NetSpeed s))).
  - intros _ x s. apply loadNetworkProperty_in_range.
  - unfold fits. simpl. lia.
Qed.

Lemma loadMemoryProperty_in_range p s :
  fits 64 (TotalSize s) -> fits 64 (TotalSize (state_of (loadMemoryProperty p s))).
Proof.
  unfold loadMemoryProperty. intros Hs. case_decide; [parsed; done|done].
Qed.

(** A fill loop keeps a property of the elements that the zero value and
    every computed value have. *)
Lemma fill_loop_Forall {St A V} (get : St -> list V) (set : list V -> St -> St)
    (P : V -> Prop) (item : A -> M St V) :
  (forall l s, get (set l s) = l) ->
  (forall x s, state_of (item x s) = s) ->
  (forall x s v, result_of (item x s) = Ok v -> P v) ->
  forall xs i s,
    Forall P (get s) ->
    Forall P (get (state_of (range_from i xs
                               (fun i x => v <- item x ;;
                                           modify (fun s => set (<[i := v]> (get s)) s)) s))).
Proof.
  intros Hgs Hpure HP xs i s.
  apply (range_from_invariant (fun s => Forall P (get s))). clear i s.
  intros i x s Hs. specialize (Hpure x s). specialize (HP x s).
  unfold bind, modify, state_of, result_of in *.
  destruct (item x s) as [[l t] [v|e|p]]; simpl in *; subst; try done.
  rewrite Hgs. apply Forall_insert; [done|]. by apply HP.
Qed.

Lemma local_value {St T A} (init : T) (m : M T A) (s : St) v :
  result_of (local init m s) = Ok v -> v = state_of (m init).
Proof.
  unfold local, result_of, state_of. destruct (m init) as [[l t] [a|e|p]]; simpl; congruence.
Qed.

Lemma loadHardwareComponent_in_range nodeId x cfg :
  config_in_range cfg -> config_in_range (state_of (loadHardwareComponent nodeId x cfg)).
Proof.
  unfold config_in_range, loadHardwareComponent. intros (HP & HM & HN).
  repeat case_decide; rewrite ?or_log_state.
  - by pose proof (loadDisksConfig_others x cfg) as [= _ -> -> ->].
  - pose proof (loadProcessorsConfig_others x cfg) as [= _ _ -> ->].
    split; [|done]. unfold loadProcessorsConfig, range. rewrite modify_then_state.
    apply (fill_loop_Forall Processors set_Processors processor_in_range
             (fun x => local ProcessorConfig_zero (loadProcessor x))).
    + done.
    + intros y s. apply local_pure.
    + intros y s v ->%local_value. apply loadProcessor_in_range.
    + simpl. apply Forall_replicate. unfold processor_in_range, fits. simpl. lia.
  - pose proof (loadMemoryConfig_others x cfg) as [= _ _ -> ->].
    split; [done|]. split; [|done].
    unfold loadMemoryConfig, range. unfold bind at 1, local, modify, state_of.
    pose proof (range_from_invariant (fun s => fits 64 (TotalSize s))
                  (fun _ memProperty => loadMemoryProperty memProperty) (Nodes x)
                  (fun _ y s => loadMemoryProperty_in_range y s) 0%nat MemoryConfig_zero)
      as Hmem.
    unfold state_of in Hmem.
    destruct (range_from 0 (Nodes x) _ MemoryConfig_zero) as [[l t] [[]|e|p]]; simpl in *;
      try done.
    apply Hmem. unfold fits. simpl. lia.
  - pose proof (loadNetworkConfig_others x cfg) as [= _ _ -> ->].
    split; [done|]. split; [done|].
    unfold loadNetworkConfig, range. rewrite modify_then_state.
    apply (fill_loop_Forall NetworkAdapters set_NetworkAdapters
             (fun n => fits 64 (NetSpeed n))
             (fun x => local NetworkConfig_zero (loadNetworkAdapter x))).
    + done.
    + intros y s. apply local_pure.
    + intros y s v ->%local_value. apply loadNetworkAdapter_in_range.
    + simpl. apply Forall_replicate. unfold fits. simpl. lia.
  - by pose proof (loadIPAddressConfig_others x cfg) as [= _ -> -> ->].
  - done.
Qed.

Lemma components_in_range nodeId children i cfg :
  config_in_range cfg ->
  config_in_range
    (state_of (range_from i children (fun _ c => loadHardwareComponent nodeId c) cfg)).
Proof.
  apply (range_from_invariant config_in_range).
  intros _ x s. apply loadHardwareComponent_in_range.
Qed.

(** X6. The numbers the decoder stores are within the widths its parsers
    are called with: starting from a config whose numbers are, every
    processor field is below 2^32 and the memory size and the adapter
    speeds are below 2^64 in the config it leaves, whether it returns an
    error or not; so the conversions to [uint] lose nothing. *)
Theorem decoder_keeps_widths nodeId nodeInfo cfg :
  config_in_range cfg ->
  config_in_range (state_of (loadHardwareConfig nodeId nodeInfo cfg)).
Proof.
  intros Hcfg. unfold loadHardwareConfig.
  destruct nodeInfo as [[[root|]]|]; [|exact Hcfg..].
  unfold range. by apply components_in_range.
Qed.

Lemma NodeConfig_zero_in_range : config_in_range NodeConfig_zero.
Proof. unfold config_in_range, fits. simpl. repeat split; try constructor; lia. Qed.

Lemma node_outcome_in_range etcdClient node X :
  node_outcome etcdClient node = Ok (Some X) -> config_in_range X.
Proof.
  assert (forall cfg, config_in_range cfg ->
            ip_outcome etcdClient node cfg = Ok (Some X) -> config_in_range X) as Hip.
  { intros cfg Hcfg. unfold ip_outcome.
    destruct (Get etcdClient (ipAddressKeyOf node) None) as [resp|e]; [|done].
    destruct (RespNode resp) as [n|]; [|done]. by intros [= <-]. }
  unfold node_outcome.
  destruct (Get etcdClient (GetNodeConfigKey node) recursive) as [resp|err].
  - destruct (result_of _) as [[]|e|p]; [|done..].
    apply Hip. unfold loadHardwareConfig.
    destruct (RespNode resp) as [root|]; [|apply NodeConfig_zero_in_range].
    unfold range. apply components_in_range, NodeConfig_zero_in_range.
  - destruct (IsEtcdKeyNotFound err); [done|]. apply Hip, NodeConfig_zero_in_range.
Qed.

(** X7. Every [NodeConfig] of a mapping that the load returns has its
    processor fields below 2^32 and its memory size and adapter speeds
    below 2^64. *)
Theorem loaded_entries_keep_widths etcdClient m :
  (loadNodeConfig etcdClient).2 = Ok m ->
  forall k cfg, m !! k = Some cfg -> config_in_range cfg.
Proof.
  intros (nodes & _ & Hres & <-)%loadNodeConfig_Ok k cfg.
  rewrite (loop_lookup etcdClient nodes ∅ Hres k), lookup_empty.
  case_decide; [|done].
  destruct (node_outcome etcdClient k) as [[X|]|e|p] eqn:Hk; try done.
  intros [= <-]. by apply node_outcome_in_range in Hk.
Qed.

End Widths.

(** ** More on parseKeyValuePairString *)

Section KeyValuePairsMore.

Lemma count_byte_app c s t :
  count_byte c (String.append s t) = (count_byte c s + count_byte c t)%nat.
Proof. induction s as [|d s IH]; simpl; [done|]. rewrite IH. lia. Qed.

Lemma count_before_le c d t : (count_byte c (before_byte d t) <= count_byte c t)%nat.
Proof.
  induction t as [|x t IH]; simpl; [done|]. repeat case_decide; simpl; try lia.
  all: repeat case_decide; simpl; try lia; try congruence.
Qed.

Lemma count_before_same d t : count_byte d (before_byte d t) = 0%nat.
Proof.
  induction t as [|x t IH]; simpl; [done|]. case_decide; simpl; [done|].
  by rewrite decide_False.
Qed.

Lemma count_after_le c d t : (count_byte c (after_byte d t) <= count_byte c t)%nat.
Proof. induction t as [|x t IH]; simpl; [done|]. repeat case_decide; lia. Qed.

Lemma count_after_one d t :
  count_byte d t = 1%nat -> count_byte d (after_byte d t) = 0%nat.
Proof.
  induction t as [|x t IH]; simpl; [done|]. case_decide; [lia|]. simpl. apply IH.
Qed.

Lemma count_without_le c d t : (count_byte c (without_byte d t) <= count_byte c t)%nat.
Proof.
  induction t as [|x t IH]; simpl; [done|]. repeat case_decide; simpl; try lia.
  all: repeat case_decide; simpl; try lia; try congruence.
Qed.

Lemma count_without_same d t : count_byte d (without_byte d t) = 0%nat.
Proof.
  induction t as [|x t IH]; simpl; [done|]. case_decide; simpl; [done|].
  by rewrite decide_False.
Qed.

Lemma parse_lookup_token propsRaw k v :
  parseKeyValuePairString propsRaw !! k = Some v ->
  exists t, t ∈ strings_Split propsRaw space /\ pair_of_token t = Some (k, v).
Proof.
  unfold parseKeyValuePairString. cbv zeta.
  rewrite foldl_tokens, (right_id_L ∅ (∪)).
  intros Hin%elem_of_list_to_map_2.
  apply elem_of_reverse, list_elem_of_omap in Hin. exact Hin.
Qed.

(** X8. Whatever the input, a key of the returned map holds neither a
    space nor an '=', and a value holds neither a space, nor an '=', nor a
    double quote. *)
Theorem parseKeyValuePairString_clean propsRaw k v :
  parseKeyValuePairString propsRaw !! k = Some v ->
  count_byte space k = 0%nat /\ count_byte equals k = 0%nat
  /\ count_byte space v = 0%nat /\ count_byte equals v = 0%nat
  /\ count_byte dquote v = 0%nat.
Proof.
  intros (t & Hin & Ht)%parse_lookup_token.
  pose proof (strings_Split_tokens propsRaw space) as Hsp.
  rewrite Forall_forall in Hsp. specialize (Hsp t Hin).
  unfold pair_of_token in Ht. case_decide as Heq; [|done]. injection Ht as <- <-.
  pose proof (count_before_le space equals t).
  pose proof (count_before_same equals t).
  pose proof (count_after_le space equals t).
  pose proof (count_after_one equals t Heq).
  pose proof (count_without_le space dquote (after_byte equals t)).
  pose proof (count_without_le equals dquote (after_byte equals t)).
  pose proof (count_without_same dquote (after_byte equals t)).
  repeat split; lia.
Qed.

Lemma strings_Split_app_sep sep t r :
  count_byte sep t = 0%nat ->
  strings_Split (String.append t (String sep r)) sep = t :: strings_Split r sep.
Proof.
  induction t as [|c t IH]; simpl.
  - intros _. by rewrite decide_True.
  - case_decide; [done|]. simpl. intros H0. by rewrite IH.
Qed.

Lemma strings_Split_join_inv sep ts :
  ts <> [] ->
  Forall (fun t => count_byte sep t = 0%nat) ts ->
  strings_Split (join_with sep ts) sep = ts.
Proof.
  induction ts as [|t ts IH]; [done|]. intros _ Hall.
  apply Forall_cons in Hall as [Ht Hts]. destruct ts as [|t' ts].
  - simpl. by apply strings_Split_no_sep.
  - change (join_with sep (t :: t' :: ts))
      with (String.append t (String sep (join_with sep (t' :: ts)))).
    rewrite strings_Split_app_sep by done. by rewrite IH.
Qed.

Lemma before_byte_app c t r :
  count_byte c t = 0%nat -> before_byte c (String.append t (String c r)) = t.
Proof.
  induction t as [|d t IH]; simpl.
  - intros _. by rewrite decide_True.
  - case_decide; [done|]. simpl. intros H0. by rewrite IH.
Qed.

Lemma after_byte_app c t r :
  count_byte c t = 0%nat -> after_byte c (String.append t (String c r)) = r.
Proof.
  induction t as [|d t IH]; simpl.
  - intros _. by rewrite decide_True.
  - case_decide; [done|]. simpl. apply IH.
Qed.

Lemma without_byte_app c s t :
  without_byte c (String.append s t) = String.append (without_byte c s) (without_byte c t).
Proof. induction s as [|d s IH]; simpl; [done|]. case_decide; simpl; by rewrite IH. Qed.

Lemma without_byte_none c s : count_byte c s = 0%nat -> without_byte c s = s.
Proof.
  induction s as [|d s IH]; simpl; [done|]. case_decide; [done|]. simpl.
  intros H0. by rewrite IH.
Qed.

Lemma append_empty_r s : String.append s EmptyString = s.
Proof.
  induction s as [|d s IH]; [done|].
  change (String d (String.append s EmptyString) = String d s). by f_equal.
Qed.

Lemma render_pair_token kv :
  plain_pair kv ->
  count_byte space (render_pair kv) = 0%nat /\ pair_of_token (render_pair kv) = Some kv.
Proof.
  destruct kv as [k v]. unfold plain_pair, render_pair, pair_of_token. simpl.
  intros (Hk1 & Hk2 & Hv1 & Hv2 & Hv3). split.
  - rewrite count_byte_app. simpl. rewrite count_byte_app. simpl.
    rewrite Hk1, Hv1. done.
  - rewrite count_byte_app. simpl. rewrite count_byte_app. simpl.
    rewrite Hk2, Hv2. rewrite decide_True by done.
    rewrite before_byte_app, after_byte_app by done. simpl.
    rewrite without_byte_app. simpl. rewrite without_byte_none by done.
    by rewrite append_empty_r.
Qed.

Lemma omap_render_pairs l :
  Forall plain_pair l -> omap pair_of_token (map render_pair l) = l.
Proof.
  induction l as [|x l IH]; [done|]. intros [Hx Hl]%Forall_cons.
  change (omap pair_of_token (render_pair x :: map render_pair l) = x :: l).
  cbn [omap list_omap]. destruct (render_pair_token x Hx) as [_ ->].
  f_equal. by apply IH.
Qed.

(** X9. Parsing gives back what was rendered: for pairs without space,
    '=' or (in the value) double quote, the text [k1="v1" k2="v2" ...]
    parses to the map of the pairs, a later pair winning over an earlier
    one with the same key; when the keys are distinct every pair is found
    under its key. *)
Theorem parse_render_pairs pairs :
  Forall plain_pair pairs ->
  parseKeyValuePairString (render_pairs pairs) = list_to_map (reverse pairs)
  /\ (NoDup pairs.*1 ->
      forall k v, (k, v) ∈ pairs ->
                  parseKeyValuePairString (render_pairs pairs) !! k = Some v).
Proof.
  intros Hplain.
  assert (parseKeyValuePairString (render_pairs pairs) = list_to_map (reverse pairs)) as Heq.
  { unfold parseKeyValuePairString, render_pairs. cbv zeta.
    rewrite foldl_tokens, (right_id_L ∅ (∪)).
    destruct pairs as [|kv pairs]; [done|].
    rewrite strings_Split_join_inv.
    - by rewrite omap_render_pairs.
    - done.
    - apply Forall_fmap. eapply Forall_impl; [exact Hplain|].
      intros x Hx. by apply render_pair_token. }
  split; [exact Heq|]. intros Hnd k v Hin. rewrite Heq.
  apply elem_of_list_to_map_1.
  - rewrite fmap_reverse. by rewrite reverse_Permutation.
  - by apply elem_of_reverse.
Qed.

End KeyValuePairsMore.

(** ** When the decoder fails *)

Section DecodeFailure.
Context `{E : Env}.

Lemma bind_result_Err {St A B} (m : M St A) (k : A -> M St B) s e :
  result_of (bind m k s) = Err e ->
  result_of (m s) = Err e
  \/ exists a, result_of (m s) = Ok a /\ result_of (k a (state_of (m s))) = Err e.
Proof.
  unfold bind, result_of, state_of. destruct (m s) as [[l t] [a|e'|p]]; simpl.
  - destruct (k a t) as [[? ?] ?] eqn:Hk; simpl. intros ->. right. exists a.
    by rewrite Hk.
  - intros [= ->]. by left.
  - done.
Qed.

Lemma or_log_result {St A} (m : M St A) f s :
  result_of (or_log m f s) = result_of (m s).
Proof. unfold or_log, result_of. by destruct (m s) as [[l t] [a|e|p]]. Qed.

Lemma local_result_Err {St T A} (init : T) (m : M T A) (s : St) e :
  result_of (local init m s) = Err e -> result_of (m init) = Err e.
Proof.
  unfold local, result_of. destruct (m init) as [[l t] [a|e'|p]]; simpl; congruence.
Qed.

Lemma range_from_Err_elem {St A} (body : nat -> A -> M St unit) xs e :
  forall i s,
    result_of (range_from i xs body s) = Err e ->
    exists x j t, x ∈ xs /\ result_of (body j x t) = Err e.
Proof.
  induction xs as [|x xs IH]; intros i s; simpl; [done|].
  intros [Hx|([] & _ & Hrest)]%bind_result_Err.
  - exists x, i, s. split; [apply elem_of_cons; by left|done].
  - destruct (IH _ _ Hrest) as (y & j & t & Hin & Hy).
    exists y, j, t. split; [apply elem_of_cons; by right|done].
Qed.

Lemma lift_result_Err {St A} (r : A + error) (s : St) e :
  result_of (lift r s) = Err e -> r = inr e.
Proof. unfold lift, result_of. destruct r; simpl; congruence. Qed.

Ltac parse_failed :=
  match goal with
  | H : result_of (bind (lift _) _ _) = Err _ |- _ =>
    apply bind_result_Err in H as [H%lift_result_Err|(? & _ & H)]; [|done]
  end.

Lemma loadProcessorProperty_Err p s e :
  result_of (loadProcessorProperty p s) = Err e -> malformed_processor_property p.
Proof.
  unfold loadProcessorProperty, malformed_processor_property.
  repeat case_decide; intros Herr; try done; parse_failed.
  1-4: left; split; [rewrite !elem_of_cons; tauto|by eexists].
  - right. split; [done|by eexists].
  - left. split; [rewrite !elem_of_cons; tauto|by eexists].
Qed.

Lemma loadProcessor_Err procInfo s e :
  result_of (loadProcessor procInfo s) = Err e -> malformed_processor procInfo.
Proof.
  unfold loadProcessor, range, malformed_processor.
  intros [H%lift_result_Err|(procID & _ & H)]%bind_result_Err.
  - left. by eexists.
  - apply bind_result_Err in H as [H|([] & _ & H)]; [done|].
    apply range_from_Err_elem in H as (p & j & t & Hin & Hp).
    right. exists p. split; [done|]. by eapply loadProcessorProperty_Err.
Qed.

Lemma loadMemoryProperty_Err p s e :
  result_of (loadMemoryProperty p s) = Err e -> malformed_memory_property p.
Proof.
  unfold loadMemoryProperty, malformed_memory_property.
  case_decide; intros Herr; [|done]. parse_failed. split; [done|by eexists].
Qed.

Lemma loadNetworkProperty_Err p s e :
  result_of (loadNetworkProperty p s) = Err e -> malformed_network_property p.
Proof.
  unfold loadNetworkProperty, malformed_network_property.
  repeat case_decide; intros Herr; try done. parse_failed.
  split; [done|]. split; [done|by eexists].
Qed.

Lemma loadHardwareComponent_Err nodeId x s e :
  result_of (loadHardwareComponent nodeId x s) = Err e -> failing_category x.
Proof.
  unfold loadHardwareComponent, failing_category, malformed_category.
  repeat case_decide; rewrite ?or_log_result; intros Herr; try done.
  - right. left. split; [done|].
    unfold loadDisksConfig, range in Herr.
    apply bind_result_Err in Herr as [Herr|([] & _ & Herr)]; [done|].
    apply range_from_Err_elem in Herr as (d & j & t & Hin & Hd).
    exists d. split; [done|].
    apply bind_result_Err in Hd as [Hd|(? & _ & Hd)]; [|done].
    rewrite or_log_result in Hd. apply lift_result_Err in Hd. by eexists.
  - left. left. split; [done|].
    unfold loadProcessorsConfig, range in Herr.
    apply bind_result_Err in Herr as [Herr|([] & _ & Herr)]; [done|].
    apply range_from_Err_elem in Herr as (p & j & t & Hin & Hp).
    exists p. split; [done|].
    apply bind_result_Err in Hp as [Hp|(? & _ & Hp)]; [|done].
    by apply local_result_Err, loadProcessor_Err in Hp.
  - left. right. left. split; [done|].
    unfold loadMemoryConfig, range in Herr.
    apply bind_result_Err in Herr as [Herr|(? & _ & Herr)]; [|done].
    apply local_result_Err, range_from_Err_elem in Herr as (p & j & t & Hin & Hp).
    exists p. split; [done|]. by eapply loadMemoryProperty_Err.
  - left. right. right. split; [done|].
    unfold loadNetworkConfig, range in Herr.
    apply bind_result_Err in Herr as [Herr|([] & _ & Herr)]; [done|].
    apply range_from_Err_elem in Herr as (n & j & t & Hin & Hn).
    apply bind_result_Err in Hn as [Hn|(? & _ & Hn)]; [|done].
    apply local_result_Err in Hn. unfold loadNetworkAdapter, range in Hn.
    apply bind_result_Err in Hn as [Hn|([] & _ & Hn)]; [done|].
    apply range_from_Err_elem in Hn as (p & j' & t' & Hin' & Hp).
    exists n, p. split; [done|]. split; [done|]. by eapply loadNetworkProperty_Err.
  - right. right. split; [done|].
    unfold loadIPAddressConfig in Herr. by destruct (Dir x).
Qed.

Lemma loadDisksConfig_fails c diskInfo :
  diskInfo ∈ Nodes c -> fails (GetDiskInfo diskInfo) -> always_fails (loadDisksConfig c).
Proof.
  intros Hin Hd. unfold loadDisksConfig, range.
  apply always_fails_bind_r; [apply never_panics_modify|intros ?].
  eapply range_from_fails; [exact Hin| |].
  - intros i y. apply never_panics_bind; [|intros ?; apply never_panics_modify].
    apply never_panics_or_log, never_panics_lift.
  - intros i. apply always_fails_bind_l, always_fails_or_log. by apply always_fails_lift.
Qed.

Lemma failing_category_fails nodeId c :
  failing_category c -> always_fails (loadHardwareComponent nodeId c).
Proof.
  intros [Hbad|[[Hleaf (d & Hin & Hd)]|[Hleaf Hdir]]].
  - by apply loadHardwareComponent_fails.
  - unfold loadHardwareComponent. rewrite Hleaf. case_decide; [|done].
    eapply always_fails_or_log, loadDisksConfig_fails; eauto.
  - unfold loadHardwareComponent. rewrite Hleaf.
    repeat (case_decide; [discriminate|]). case_decide; [|done].
    apply always_fails_or_log. intros s. eexists. by rewrite loadIPAddressConfig_Dir.
Qed.

(** X10. The decoder returns an error exactly when some child of the
    subtree root is refused by its parser (a malformed recognised leaf, an
    undecodable disk, an [ipaddress] directory), and returns normally
    otherwise, whatever config it starts from: nothing else makes a decode
    fail. *)
Theorem decoder_fails_iff nodeId root cfg :
  ((exists e, result_of (loadHardwareConfig nodeId (Some (mkResponse (Some root))) cfg)
              = Err e)
   <-> exists c, c ∈ Nodes root /\ failing_category c)
  /\ (result_of (loadHardwareConfig nodeId (Some (mkResponse (Some root))) cfg) = Ok tt
      <-> ~ exists c, c ∈ Nodes root /\ failing_category c).
Proof.
  assert ((exists e, result_of (loadHardwareConfig nodeId (Some (mkResponse (Some root))) cfg)
                     = Err e)
          <-> exists c, c ∈ Nodes root /\ failing_category c) as Hiff.
  { split.
    - intros [e He]. unfold loadHardwareConfig, range in He. cbn [RespNode] in He.
      apply range_from_Err_elem in He as (c & j & t & Hin & Hc).
      exists c. split; [done|]. by eapply loadHardwareComponent_Err.
    - intros (c & Hin & Hc).
      by apply (loadHardwareConfig_fails nodeId root c Hin), failing_category_fails. }
  split; [exact Hiff|]. rewrite <- Hiff.
  pose proof (loadHardwareConfig_never_panics nodeId (Some (mkResponse (Some root))) cfg)
    as Hnp.
  destruct (result_of _) as [[]|e|p].
  - split; [|done]. intros _ [e He]. done.
  - split; [done|]. intros H. destruct H. by exists e.
  - by destruct (Hnp p).
Qed.

End DecodeFailure.

(** ** Empty text in numeric leaves *)

Section EmptyText.
Context `{E : Env}.

Lemma modify_then_run {St A} (f : St -> St) (k : M St A) s :
  (modify f ;;; k) s = k (f s).
Proof. unfold bind, modify. by destruct (k (f s)) as [[? ?] ?]. Qed.

Lemma then_modify_result {St V} (m : M St V) (f : V -> St -> St) s :
  result_of ((v <- m ;; modify (f v)) s)
  = match result_of (m s) with Ok _ => Ok tt | Err e => Err e | Panic p => Panic p end.
Proof. unfold bind, modify, result_of. by destruct (m s) as [[l t] [v|e|p]]. Qed.

(** A loop that returned normally ran its first body, and then the rest
    of the loop, to a normal return. *)
Lemma range_from_Ok_cons {St A} (body : nat -> A -> M St unit) x xs i s :
  result_of (range_from i (x :: xs) body s) = Ok tt ->
  result_of (body i x s) = Ok tt
  /\ result_of (range_from (S i) xs body (state_of (body i x s))) = Ok tt
  /\ state_of (range_from i (x :: xs) body s)
     = state_of (range_from (S i) xs body (state_of (body i x s))).
Proof.
  simpl. unfold bind, result_of, state_of.
  destruct (body i x s) as [[l t] [[]|e|p]]; simpl; try done.
  by destruct (range_from (S i) xs body t) as [[? ?] ?].
Qed.

Lemma range_from_Ok_app {St A} (body : nat -> A -> M St unit) xs ys i s :
  result_of (range_from i (xs ++ ys) body s) = Ok tt ->
  result_of (range_from i xs body s) = Ok tt
  /\ result_of (range_from (i + length xs) ys body (state_of (range_from i xs body s)))
     = Ok tt
  /\ state_of (range_from i (xs ++ ys) body s)
     = state_of (range_from (i + length xs) ys body (state_of (range_from i xs body s))).
Proof.
  rewrite range_from_app. unfold bind, result_of, state_of.
  destruct (range_from i xs body s) as [[l t] [[]|e|p]]; simpl; try done.
  by destruct (range_from (i + length xs) ys body t) as [[? ?] ?].
Qed.

(** *** Loops whose bodies return the same whatever the state *)

Lemma range_from_result_any {St A} (body : nat -> A -> M St unit) xs :
  (forall i x s s', result_of (body i x s) = result_of (body i x s')) ->
  forall i s s', result_of (range_from i xs body s) = result_of (range_from i xs body s').
Proof.
  intros Hb. induction xs as [|x xs IH]; intros i s s'; simpl; [done|].
  specialize (Hb i x s s'). unfold bind, result_of in *.
  destruct (body i x s) as [[l t] r], (body i x s') as [[l' t'] r']; simpl in *. subst r'.
  destruct r as [[]|e|p]; try done. specialize (IH (S i) t t').
  by destruct (range_from (S i) xs body t) as [[? ?] ?],
              (range_from (S i) xs body t') as [[? ?] ?].
Qed.

(** An element whose body always returns normally does not change what
    such a loop returns. *)
Lemma range_from_drop_result {St A} (f : A -> M St unit) a u b :
  (forall x s s', result_of (f x s) = result_of (f x s')) ->
  (forall s, result_of (f u s) = Ok tt) ->
  forall i j s,
    result_of (range_from i (a ++ u :: b) (fun _ => f) s)
    = result_of (range_from j (a ++ b) (fun _ => f) s).
Proof.
  intros Hany Hu. induction a as [|x a IH]; intros i j s; simpl.
  - rewrite (range_from_shift f b (S i) j).
    pose proof (range_from_result_any (fun _ => f) b (fun _ => Hany) j) as Hb.
    specialize (Hu s). unfold bind, result_of in *.
    destruct (f u s) as [[l t] r]; simpl in *. subst r. specialize (Hb t s).
    by destruct (range_from j b (fun _ => f) t) as [[? ?] ?].
  - unfold bind, result_of in *.
    destruct (f x s) as [[l t] [[]|e|p]]; simpl; try done.
    specialize (IH (S i) (S j) t).
    by destruct (range_from (S i) (a ++ u :: b) (fun _ => f) t) as [[? ?] ?],
                (range_from (S j) (a ++ b) (fun _ => f) t) as [[? ?] ?].
Qed.

Lemma range_from_replace_result {St A} (body : nat -> A -> M St unit) a x y b :
  (forall i z s s', result_of (body i z s) = result_of (body i z s')) ->
  (forall i s, result_of (body i x s) = result_of (body i y s)) ->
  forall i s,
    result_of (range_from i (a ++ x :: b) body s)
    = result_of (range_from i (a ++ y :: b) body s).
Proof.
  intros Hany Hxy. induction a as [|z a IH]; intros i s; simpl.
  - pose proof (range_from_result_any body b Hany (S i)) as Hb.
    specialize (Hxy i s). unfold bind, result_of in *.
    destruct (body i x s) as [[l t] r], (body i y s) as [[l' t'] r']; simpl in *. subst r'.
    destruct r as [[]|e|p]; try done. specialize (Hb t t').
    by destruct (range_from (S i) b body t) as [[? ?] ?],
                (range_from (S i) b body t') as [[? ?] ?].
  - unfold bind, result_of in *.
    destruct (body i z s) as [[l t] [[]|e|p]]; simpl; try done.
    specialize (IH (S i) t).
    by destruct (range_from (S i) (a ++ x :: b) body t) as [[? ?] ?],
                (range_from (S i) (a ++ y :: b) body t) as [[? ?] ?].
Qed.

(** *** The network adapter's [Speed] *)

Lemma empty_speed_property netProperty net :
  GetLeafKeyPath (Key netProperty) = NetworkSpeedKey ->
  Value netProperty = EmptyString ->
  loadNetworkProperty netProperty net = ([], set_NetSpeed 0 net, Ok tt).
Proof.
  destruct net_speed_key_ne as (M1 & M2).
  intros Hname Hval. unfold loadNetworkProperty. rewrite Hname, Hval.
  by repeat case_decide.
Qed.

Lemma loadNetworkProperty_result_any p s s' :
  result_of (loadNetworkProperty p s) = result_of (loadNetworkProperty p s').
Proof.
  unfold loadNetworkProperty. repeat case_decide; try done.
  unfold bind, lift, modify, result_of. by destruct (ParseUint (Value p) 64).
Qed.

Lemma loadNetworkProperty_NetSpeed q s :
  GetLeafKeyPath (Key q) <> NetworkSpeedKey ->
  NetSpeed (state_of (loadNetworkProperty q s)) = NetSpeed s.
Proof. intros Hq. unfold loadNetworkProperty. by repeat case_decide. Qed.

Lemma loadNetworkAdapter_empty_speed netInfo pre netProperty post net :
  Nodes netInfo = pre ++ netProperty :: post ->
  GetLeafKeyPath (Key netProperty) = NetworkSpeedKey ->
  Value netProperty = EmptyString ->
  result_of (loadNetworkAdapter netInfo net)
  = result_of (loadNetworkAdapter (with_Nodes netInfo (pre ++ post)) net)
  /\ (result_of (loadNetworkAdapter netInfo net) = Ok tt ->
      (forall q, q ∈ post -> GetLeafKeyPath (Key q) <> NetworkSpeedKey) ->
      NetSpeed (state_of (loadNetworkAdapter netInfo net)) = 0).
Proof.
  intros Hnodes Hname Hval. unfold loadNetworkAdapter, range.
  cbn [Key Nodes with_Nodes]. rewrite Hnodes, !modify_then_run.
  set (s0 := set_Name (GetLeafKeyPath (Key netInfo)) net).
  split.
  - apply (range_from_drop_result loadNetworkProperty).
    + intros x s s'. apply loadNetworkProperty_result_any.
    + intros s. by rewrite empty_speed_property.
  - intros (_ & Hrest & ->)%range_from_Ok_app Hpost.
    apply range_from_Ok_cons in Hrest as (_ & _ & ->).
    rewrite empty_speed_property by done. cbn [state_of fst snd].
    eapply eq_trans.
    { apply (range_from_preserves_in NetSpeed). intros _ q s Hq.
      by apply loadNetworkProperty_NetSpeed, Hpost. }
    done.
Qed.

(** *** The decode of a subtree with such a property *)

Lemma adapter_item_result (i : nat) netInfo (s : NodeConfig) :
  result_of ((net <- local NetworkConfig_zero (loadNetworkAdapter netInfo) ;;
              modify (fun nc => set_NetworkAdapters (<[i := net]> (NetworkAdapters nc)) nc))
               s)
  = match result_of (loadNetworkAdapter netInfo NetworkConfig_zero) with
    | Ok _ => Ok tt
    | Err e => Err e
    | Panic p => Panic p
    end.
Proof.
  unfold bind, local, modify, result_of.
  by destruct (loadNetworkAdapter netInfo NetworkConfig_zero) as [[l t] [[]|e|p]].
Qed.

Lemma loadNetworkConfig_empty_speed network P1 netInfo P2 pre netProperty post cfg :
  Nodes network = P1 ++ netInfo :: P2 ->
  Nodes netInfo = pre ++ netProperty :: post ->
  GetLeafKeyPath (Key netProperty) = NetworkSpeedKey ->
  Value netProperty = EmptyString ->
  result_of (loadNetworkConfig network cfg)
  = result_of (loadNetworkConfig
                 (with_Nodes network (P1 ++ with_Nodes netInfo (pre ++ post) :: P2)) cfg).
Proof.
  intros Hnetwork Hnodes Hname Hval. unfold loadNetworkConfig, range.
  cbn [Nodes with_Nodes]. rewrite Hnetwork, !modify_then_run, !length_app. cbn [length].
  apply range_from_replace_result.
  - intros i z s s'. by rewrite !adapter_item_result.
  - intros i s. rewrite !adapter_item_result.
    by destruct (loadNetworkAdapter_empty_speed netInfo pre netProperty post
                   NetworkConfig_zero Hnodes Hname Hval) as [-> _].
Qed.

Lemma loadHardwareComponent_result_any nodeId c s s' :
  result_of (loadHardwareComponent nodeId c s)
  = result_of (loadHardwareComponent nodeId c s').
Proof.
  unfold loadHardwareComponent. repeat case_decide; rewrite ?or_log_result; try done.
  - unfold loadDisksConfig, range. cbv zeta. rewrite !modify_then_run.
    apply range_from_result_any. intros i x t t'. rewrite !then_modify_result.
    by rewrite !(proj2 (disk_item_pure _ _ _)).
  - unfold loadProcessorsConfig, range. cbv zeta. rewrite !modify_then_run.
    apply range_from_result_any. intros i x t t'. rewrite !then_modify_result.
    by rewrite !(proj2 (local_pure _ _ _)).
  - unfold loadMemoryConfig. rewrite !then_modify_result.
    by rewrite !(proj2 (local_pure _ _ _)).
  - unfold loadNetworkConfig, range. cbv zeta. rewrite !modify_then_run.
    apply range_from_result_any. intros i x t t'. by rewrite !adapter_item_result.
  - unfold loadIPAddressConfig. by destruct (Dir c).
Qed.

Lemma network_component nodeId network s :
  GetLeafKeyPath (Key network) = NetworkKey ->
  result_of (loadHardwareComponent nodeId network s) = result_of (loadNetworkConfig network s)
  /\ state_of (loadHardwareComponent nodeId network s)
     = state_of (loadNetworkConfig network s).
Proof.
  intros Hleaf. unfold loadHardwareComponent. rewrite Hleaf.
  repeat (case_decide; [discriminate|]). case_decide; [|done].
  split; [apply or_log_result|apply or_log_state].
Qed.

(** C4. For every network adapter subtree, a [Speed] property with the
    empty string as value decodes to speed 0 without error. The property's
    own step sets the adapter's speed to 0, whatever it was, logs nothing
    and returns no error. Wherever the property stands among the adapter's
    properties, the adapter's decode returns what it returns without the
    property, and after a decode without error the adapter's speed is 0
    when no [Speed] property follows. Wherever the adapter stands in the
    subtree of a node, the node's decode returns what it returns without
    the property, and after a decode without error the entry of
    [NetworkAdapters] at the adapter's position carries the adapter's name
    and speed 0, when no later network category and no later [Speed]
    property of the adapter overwrite it. The empty string as value of a
    processor's [Speed] or of the memory's [TotalSize] goes to the numeric
    parser, whose syntax error is returned, and the decode of a subtree with
    such a leaf returns an error. *)
Theorem empty_speed_text :
  (forall netProperty net,
      GetLeafKeyPath (Key netProperty) = NetworkSpeedKey ->
      Value netProperty = EmptyString ->
      loadNetworkProperty netProperty net = ([], set_NetSpeed 0 net, Ok tt))
  /\ (forall netInfo pre netProperty post net,
         Nodes netInfo = pre ++ netProperty :: post ->
         GetLeafKeyPath (Key netProperty) = NetworkSpeedKey ->
         Value netProperty = EmptyString ->
         result_of (loadNetworkAdapter netInfo net)
         = result_of (loadNetworkAdapter (with_Nodes netInfo (pre ++ post)) net)
         /\ (result_of (loadNetworkAdapter netInfo net) = Ok tt ->
             (forall q, q ∈ post -> GetLeafKeyPath (Key q) <> NetworkSpeedKey) ->
             NetSpeed (state_of (loadNetworkAdapter netInfo net)) = 0))
  /\ (forall nodeId root A network B P1 netInfo P2 pre netProperty post cfg,
         Nodes root = A ++ network :: B ->
         GetLeafKeyPath (Key network) = NetworkKey ->
         Nodes network = P1 ++ netInfo :: P2 ->
         Nodes netInfo = pre ++ netProperty :: post ->
         GetLeafKeyPath (Key netProperty) = NetworkSpeedKey ->
         Value netProperty = EmptyString ->
         result_of (loadHardwareConfig nodeId (Some (mkResponse (Some root))) cfg)
         = result_of (loadHardwareConfig nodeId
                        (Some (mkResponse (Some
                           (with_Nodes root
                              (A ++ with_Nodes network
                                      (P1 ++ with_Nodes netInfo (pre ++ post) :: P2)
                                 :: B)))))
                        cfg)
         /\ (result_of (loadHardwareConfig nodeId (Some (mkResponse (Some root))) cfg)
             = Ok tt ->
             (forall c, c ∈ B -> GetLeafKeyPath (Key c) <> NetworkKey) ->
             (forall q, q ∈ post -> GetLeafKeyPath (Key q) <> NetworkSpeedKey) ->
             exists n,
               NetworkAdapters
                 (state_of (loadHardwareConfig nodeId (Some (mkResponse (Some root))) cfg))
                 !! length P1 = Some n
               /\ NetSpeed n = 0
               /\ Name n = GetLeafKeyPath (Key netInfo)))
  /\ (forall procProperty proc,
         GetLeafKeyPath (Key procProperty) = ProcSpeedKey ->
         Value procProperty = EmptyString ->
         loadProcessorProperty procProperty proc
         = ([], proc, Err (NumError "ParseFloat" "" ErrSyntax)))
  /\ (forall memProperty mem,
         GetLeafKeyPath (Key memProperty) = MemoryTotalSizeKey ->
         Value memProperty = EmptyString ->
         loadMemoryProperty memProperty mem
         = ([], mem, Err (NumError "ParseUint" "" ErrSyntax)))
  /\ (forall nodeId root cpu procInfo procProperty,
         cpu ∈ Nodes root -> GetLeafKeyPath (Key cpu) = ProcessorsKey ->
         procInfo ∈ Nodes cpu -> procProperty ∈ Nodes procInfo ->
         GetLeafKeyPath (Key procProperty) = ProcSpeedKey ->
         Value procProperty = EmptyString ->
         always_fails (loadHardwareConfig nodeId (Some (mkResponse (Some root)))))
  /\ (forall nodeId root mem memProperty,
         mem ∈ Nodes root -> GetLeafKeyPath (Key mem) = MemoryKey ->
         memProperty ∈ Nodes mem ->
         GetLeafKeyPath (Key memProperty) = MemoryTotalSizeKey ->
         Value memProperty = EmptyString ->
         always_fails (loadHardwareConfig nodeId (Some (mkResponse (Some root))))).
Proof.
  destruct proc_speed_key_ne as (N1 & N2 & N3 & N4 & N5).
  split; [exact empty_speed_property|].
  split; [exact loadNetworkAdapter_empty_speed|].
  split; [|split; [|split; [|split]]].
  - intros nodeId root A network B P1 netInfo P2 pre p post cfg
      Hroot Hleaf Hnetwork Hnodes Hname Hval.
    unfold loadHardwareConfig, range. cbn [RespNode Nodes with_Nodes]. rewrite Hroot.
    split.
    + apply range_from_replace_result.
      * intros _ z s s'. apply loadHardwareComponent_result_any.
      * intros _ s.
        destruct (network_component nodeId network s Hleaf) as [-> _].
        destruct (network_component nodeId
                    (with_Nodes network (P1 ++ with_Nodes netInfo (pre ++ post) :: P2)) s
                    Hleaf) as [-> _].
        by apply (loadNetworkConfig_empty_speed network P1 netInfo P2 pre p post).
    + intros (_ & Hrest & ->)%range_from_Ok_app HB Hpost.
      apply range_from_Ok_cons in Hrest as (Hnet & _ & ->).
      set (sA := state_of (range_from 0 A _ cfg)) in *.
      destruct (network_component nodeId network sA Hleaf) as [Hr Hs].
      rewrite Hr in Hnet.
      destruct (loadNetworkConfig_Ok network sA Hnet) as (Hall & _ & _).
      rewrite Hnetwork in Hall.
      destruct (Forall2_lookup_l _ _ _ (length P1) netInfo Hall) as (n & Hn & Hdec).
      { by apply list_lookup_middle. }
      exists n. split; [|split].
      * rewrite <- Hn, <- Hs.
        apply (f_equal (fun l : list NetworkConfig => l !! length P1)).
        apply (range_from_preserves_in NetworkAdapters). intros _ c s Hc.
        by apply component_frame, HB.
      * destruct Hdec as [Hok <-].
        by apply (loadNetworkAdapter_empty_speed netInfo pre p post NetworkConfig_zero).
      * by apply decodes_adapter_Name.
  - intros p proc Hname Hval. unfold loadProcessorProperty. rewrite Hname, Hval.
    repeat (case_decide; [done|]). case_decide; [|done].
    unfold bind, lift. by rewrite ParseFloat_empty.
  - intros p mem Hname Hval. unfold loadMemoryProperty. rewrite Hname, Hval.
    by case_decide.
  - intros nodeId root cpu procInfo p Hcpu Hleaf Hproc Hp Hname Hval.
    apply malformed_subtree_fails. exists cpu. split; [done|]. left. split; [done|].
    exists procInfo. split; [done|]. right. exists p. split; [done|]. right.
    split; [done|]. rewrite Hval, ParseFloat_empty. by eexists.
  - intros nodeId root mem p Hmem Hleaf Hp Hname Hval.
    apply malformed_subtree_fails. exists mem. split; [done|]. right. left.
    split; [done|]. exists p. split; [done|]. split; [done|]. rewrite Hval. by eexists.
Qed.

End EmptyText.

(** ** What the numeric leaves accept *)

Section ParseUintExact.
Context `{E : Env}.

Lemma digit_value_range d v : digit_value d = Some v -> 0 <= v <= 9.
Proof.
  unfold digit_value. destruct (_ && _) eqn:Hd; [|done]. intros [= <-].
  apply andb_true_iff in Hd as [?%Z.leb_le ?%Z.leb_le]. lia.
Qed.

Lemma decimal_value_grows s : forall acc m,
  0 <= acc -> decimal_value s acc = Some m -> acc <= m.
Proof.
  induction s as [|d rest IH]; intros acc m Hacc; simpl.
  - intros [= <-]. lia.
  - destruct (digit_value d) as [v|] eqn:Hd; [|done].
    apply digit_value_range in Hd. intros Hm%IH; lia.
Qed.

Lemma ParseUint_digits_exact s : forall n maxVal m,
  0 <= n <= maxVal -> maxVal <= maxUint64 ->
  ParseUint_digits s n (maxUint64 / 10 + 1) maxVal = inl m
  <-> decimal_value s n = Some m /\ m <= maxVal.
Proof.
  assert (maxUint64 / 10 + 1 = 1844674407370955162) as -> by reflexivity.
  assert (maxUint64 = 18446744073709551615) as -> by reflexivity.
  change (2 ^ 64) with 18446744073709551616.
  induction s as [|d rest IH]; intros n maxVal m Hn Hmax; simpl.
  - split; [intros [= <-]; split; [done|lia]|by intros [[= <-] _]].
  - destruct (digit_value d) as [v|] eqn:Hd; [|split; [done|by intros [? _]]].
    apply digit_value_range in Hd.
    destruct (1844674407370955162 <=? n) eqn:Hcut.
    { apply Z.leb_le in Hcut. split; [done|]. intros [Hm Hle].
      apply decimal_value_grows in Hm; lia. }
    apply Z.leb_gt in Hcut.
    change (2 ^ 64) with 18446744073709551616.
    rewrite (Z.mod_small (n * 10)) by lia.
    destruct (Z_lt_dec (n * 10 + v) 18446744073709551616) as [Hsmall|Hbig].
    + rewrite (Z.mod_small (n * 10 + v)) by lia.
      destruct (_ || _) eqn:Hchk.
      * apply orb_true_iff in Hchk as [Hlt%Z.ltb_lt|Hgt%Z.ltb_lt]; [lia|].
        split; [done|]. intros [Hm Hle]. apply decimal_value_grows in Hm; lia.
      * apply orb_false_iff in Hchk as [_ Hle%Z.ltb_ge]. apply IH; lia.
    + assert ((n * 10 + v) mod 18446744073709551616 = n * 10 + v - 18446744073709551616)
        as ->.
      { symmetry. apply (Z.mod_unique_pos _ _ 1); lia. }
      rewrite (proj2 (Z.ltb_lt _ _)) by lia. simpl.
      split; [done|]. intros [Hm Hle]. apply decimal_value_grows in Hm; lia.
Qed.

Lemma ParseUint_accepts s bitSize n :
  1 <= bitSize <= 64 ->
  ParseUint s bitSize = inl n
  <-> s <> EmptyString /\ decimal_value s 0 = Some n /\ n < 2 ^ bitSize.
Proof.
  intros Hb. rewrite ParseUint_width by done. destruct s as [|d rest].
  - split; [done|]. by intros [? _].
  - assert (1 <= 2 ^ bitSize <= 2 ^ 64) as Hpow.
    { split; [pose proof (Z.pow_pos_nonneg 2 bitSize); lia|].
      apply Z.pow_le_mono_r; lia. }
    pose proof (ParseUint_digits_exact (String d rest) 0 (2 ^ bitSize - 1) n) as Hex.
    destruct (ParseUint_digits (String d rest) 0 (maxUint64 / 10 + 1) (2 ^ bitSize - 1))
      as [m|e] eqn:Hd.
    + split.
      * intros [= ->]. destruct Hex as [Hex _].
        { lia. } { unfold maxUint64. lia. }
        destruct (Hex eq_refl) as [? ?]. repeat split; [done|done|lia].
      * intros (_ & Hv & Hlt). f_equal.
        pose proof (ParseUint_digits_exact (String d rest) 0 (2 ^ bitSize - 1) m) as Hm.
        destruct Hm as [Hm _]. { lia. } { unfold maxUint64. lia. }
        destruct (Hm Hd) as [Hv' _]. congruence.
    + split; [done|]. intros (_ & Hv & Hlt). destruct Hex as [_ Hex].
      { lia. } { unfold maxUint64. lia. }
      discriminate Hex. split; [done|lia].
Qed.

(** A processor that decoded got its [ID] from the leaf segment of its
    key. *)
Lemma loadProcessor_ordinal procInfo proc :
  result_of (loadProcessor procInfo proc) = Ok tt ->
  ParseUint (GetLeafKeyPath (Key procInfo)) 32
  = inl (ID (state_of (loadProcessor procInfo proc))).
Proof.
  unfold loadProcessor, range. unfold bind at 1 3, lift.
  destruct (ParseUint (GetLeafKeyPath (Key procInfo)) 32) as [procID|e]; [|done].
  intros _. unfold bind, modify. simpl.
  pose proof (range_from_preserves ID
                (fun _ procProperty => loadProcessorProperty procProperty)
                (Nodes procInfo) (fun _ => loadProcessorProperty_ID) 0%nat
                (set_ID procID proc)) as HID.
  unfold state_of in *.
  destruct (range_from 0 (Nodes procInfo) _ _) as [[? ?] ?]; simpl in *. by rewrite HID.
Qed.

(** X11. At the widths the package passes (32 for the fields of a
    processor, 64 for the memory size and the adapter speed), [ParseUint]
    accepts exactly the non-empty strings of decimal digits whose number is
    below 2^bitSize, and returns that number: the overflow checks of the
    digit loop neither let a too large number through nor refuse one that
    fits. Hence the memory's [TotalSize] leaf and an adapter's non-empty
    [Speed] leaf decode exactly when their value is such a string below
    2^64, to that number, and a processor that decodes has as [ID] the
    number below 2^32 that the leaf segment of its key spells. *)
Theorem ParseUint_exact :
  (forall s bitSize n,
      1 <= bitSize <= 64 ->
      ParseUint s bitSize = inl n
      <-> s <> EmptyString /\ decimal_value s 0 = Some n /\ n < 2 ^ bitSize)
  /\ (forall memProperty mem n,
         GetLeafKeyPath (Key memProperty) = MemoryTotalSizeKey ->
         loadMemoryProperty memProperty mem = ([], set_TotalSize n mem, Ok tt)
         <-> Value memProperty <> EmptyString
             /\ decimal_value (Value memProperty) 0 = Some n /\ n < 2 ^ 64)
  /\ (forall netProperty net n,
         GetLeafKeyPath (Key netProperty) = NetworkSpeedKey ->
         Value netProperty <> EmptyString ->
         loadNetworkProperty netProperty net = ([], set_NetSpeed n net, Ok tt)
         <-> decimal_value (Value netProperty) 0 = Some n /\ n < 2 ^ 64)
  /\ (forall procInfo proc,
         result_of (loadProcessor procInfo proc) = Ok tt ->
         GetLeafKeyPath (Key procInfo) <> EmptyString
         /\ decimal_value (GetLeafKeyPath (Key procInfo)) 0
            = Some (ID (state_of (loadProcessor procInfo proc)))
         /\ ID (state_of (loadProcessor procInfo proc)) < 2 ^ 32).
Proof.
  split; [exact ParseUint_accepts|]. split; [|split].
  - intros p mem n Hname.
    rewrite <- (ParseUint_accepts (Value p) 64 n) by lia.
    unfold loadMemoryProperty. case_decide; [|done].
    unfold bind, lift, modify, set_TotalSize.
    destruct (ParseUint (Value p) 64) as [m|e]; simpl; [|done].
    split; by intros [= ->].
  - destruct net_speed_key_ne as (M1 & M2).
    intros p net n Hname Hval.
    assert (ParseUint (Value p) 64 = inl n
            <-> decimal_value (Value p) 0 = Some n /\ n < 2 ^ 64) as <-.
    { rewrite (ParseUint_accepts (Value p) 64 n) by lia. tauto. }
    unfold loadNetworkProperty. rewrite Hname.
    repeat (case_decide; [done|]). case_decide; [|done]. case_decide; [done|].
    unfold bind, lift, modify, set_NetSpeed.
    destruct (ParseUint (Value p) 64) as [m|e]; simpl; [|done].
    split; by intros [= ->].
  - intros procInfo proc Hok.
    by apply (ParseUint_accepts _ 32), loadProcessor_ordinal.
Qed.

End ParseUintExact.

(** ** Failures are logged *)

Section LoaderDiagnostics.
Context `{E : Env}.
Variable etcdClient : KeysAPI.






End LoaderDiagnostics.

(** * The further properties on the sample inputs *)

Section MoreSamples.
Import Sample Data MoreData.

Lemma load1_is_Ok : is_Ok (loadNodeConfig store1).2 = true.
Proof. vm_compute. reflexivity. Qed.

Lemma load1_has_b :
  match (loadNodeConfig store1).2 with
  | Ok m => bool_decide (is_Some (m !! "b"))
  | _ => false
  end = true.
Proof. vm_compute. reflexivity. Qed.

Ltac with_load1 m Hb :=
  let Hload := fresh in
  pose proof load1_is_Ok as Hload; pose proof load1_has_b as Hb;
  destruct ((loadNodeConfig store1).2) as [m| |]; [clear Hload|discriminate Hload..];
  apply bool_decide_eq_true in Hb.

Lemma b_in_listing1 : "b" ∈ (GetDirChildKeys store1 DiscoveredNodesKey).1.
Proof. apply list_elem_of_In. vm_compute. tauto. Qed.

Lemma d_not_in_listing1 : "d" ∉ (GetDirChildKeys store1 DiscoveredNodesKey).1.
Proof. intros Hin. apply list_elem_of_In in Hin. vm_compute in Hin. intuition discriminate. Qed.

(** On [store1] the returned mapping has no entry for the unlisted id d,
    and its entry for b is the decode of [subtreeB] with an address read by
    the accessor. *)
Lemma loadNodeConfig_entries_exact_witness :
  exists m,
    (loadNodeConfig store1).2 = Ok m
    /\ m !! "d" = None
    /\ exists n,
         m !! "b"
         = Some (set_IPAddress (Value n)
                   (state_of (loadHardwareConfig "b" (Some (mkResponse (Some subtreeB)))
                                NodeConfig_zero))).
Proof.
  pose proof (@loadNodeConfig_entries_exact sample_env store1) as H.
  with_load1 m Hb. destruct (H m eq_refl) as [Hout Hin]. clear H.
  exists m. split; [reflexivity|]. split; [exact (Hout "d" d_not_in_listing1)|].
  destruct (Hin "b" (mkResponse (Some subtreeB)) b_in_listing1
              ltac:(vm_compute; reflexivity)) as (_ & ipresp & n & _ & _ & Hm).
  exists n. exact Hm.
Defined.

(** On [store1] the loop over b, c and the loop over c, b build the same
    mapping. *)
Lemma loadNodeConfig_loop_order_witness :
  result_of (loadNodeConfig_loop store1 ["c"; "b"] ∅) = Ok tt
  /\ state_of (loadNodeConfig_loop store1 ["c"; "b"] ∅)
     = state_of (loadNodeConfig_loop store1 ["b"; "c"] ∅).
Proof.
  apply (@loadNodeConfig_loop_order sample_env store1 ["b"; "c"] ["c"; "b"] ∅).
  - apply perm_swap.
  - vm_compute. reflexivity.
Defined.

(** In [subtreeG] the decode stops at the cpu child: the error is that of
    its property, and the address of the child after it is not stored. *)
Lemma decoder_stops_at_first_failure_witness :
  result_of (loadHardwareConfig "g" (Some (mkResponse (Some subtreeG))) NodeConfig_zero)
  = Err (NumError "ParseUint" "sixty-four" ErrSyntax)
  /\ IPAddress (state_of (loadHardwareConfig "g" (Some (mkResponse (Some subtreeG)))
                            NodeConfig_zero)) = "".
Proof.
  destruct (@decoder_stops_at_first_failure sample_env "g" subtreeG [memG] cpuG [ipG]
              NodeConfig_zero (NumError "ParseUint" "sixty-four" ErrSyntax)
              eq_refl ltac:(vm_compute; reflexivity) ltac:(vm_compute; reflexivity))
    as [Hres Hst].
  split; [exact Hres|]. rewrite Hst. vm_compute. reflexivity.
Defined.

(** The config decoded from [subtreeB] keeps the widths. *)
Lemma decoder_keeps_widths_witness :
  config_in_range
    (state_of (loadHardwareConfig "b" (Some (mkResponse (Some subtreeB))) NodeConfig_zero)).
Proof.
  exact (@decoder_keeps_widths sample_env "b" (Some (mkResponse (Some subtreeB)))
           NodeConfig_zero NodeConfig_zero_in_range).
Defined.

(** The entry of b in the mapping returned on [store1] keeps the widths. *)
Lemma loaded_entries_keep_widths_witness :
  exists m cfg,
    (loadNodeConfig store1).2 = Ok m /\ m !! "b" = Some cfg /\ config_in_range cfg.
Proof.
  pose proof (@loaded_entries_keep_widths sample_env store1) as H.
  with_load1 m Hb. destruct Hb as [cfg Hb].
  exists m, cfg. split; [reflexivity|]. split; [exact Hb|].
  exact (H m eq_refl "b" cfg Hb).
Defined.

(** The value found under NAME in a rendered disk listing is clean. *)
Lemma parseKeyValuePairString_clean_witness :
  parseKeyValuePairString (render_pairs diskPairs) !! "NAME" = Some "sda"
  /\ count_byte dquote "sda" = 0%nat /\ count_byte equals "NAME" = 0%nat.
Proof.
  assert (parseKeyValuePairString (render_pairs diskPairs) !! "NAME" = Some "sda") as Hlk
    by (vm_compute; reflexivity).
  destruct (parseKeyValuePairString_clean _ _ _ Hlk) as (_ & Hk & _ & _ & Hv).
  split; [exact Hlk|]. split; [exact Hv|exact Hk].
Defined.

Lemma diskPairs_plain : Forall plain_pair diskPairs.
Proof. repeat constructor. Qed.

Lemma diskPairs_keys : NoDup diskPairs.*1.
Proof. apply (bool_decide_unpack _). vm_compute. exact I. Qed.

(** The rendered disk listing parses back to its pairs. *)
Lemma parse_render_pairs_witness :
  parseKeyValuePairString (render_pairs diskPairs) !! "SIZE" = Some "10".
Proof.
  destruct (parse_render_pairs diskPairs diskPairs_plain) as [_ H].
  apply (H diskPairs_keys). apply list_elem_of_In. simpl. tauto.
Defined.

(** The largest 32-bit number is accepted at width 32. *)
(** The largest 32-bit number is accepted at width 32, and the largest
    64-bit number as a memory size. *)
Lemma ParseUint_exact_witness :
  ParseUint "4294967295" 32 = inl 4294967295
  /\ loadMemoryProperty (leaf "/castle/nodes/b/mem/totalsize" "18446744073709551615")
       MemoryConfig_zero
     = ([], mkMemoryConfig 18446744073709551615, Ok tt).
Proof.
  destruct (@ParseUint_exact sample_env) as (Hparse & Hmem & _).
  split.
  - apply (Hparse "4294967295" 32 4294967295); [lia|].
    split; [discriminate|]. split; reflexivity.
  - apply (Hmem (leaf "/castle/nodes/b/mem/totalsize" "18446744073709551615")
             MemoryConfig_zero 18446744073709551615); [reflexivity|].
    split; [discriminate|]. split; reflexivity.
Defined.

(** In [subtreeB] the adapter eth0 has an empty speed followed by its
    address: the decode returns no error and the adapter's entry has speed
    0. The step itself resets a speed that was set, and an empty processor
    speed is a syntax error. *)
Lemma empty_speed_text_witness :
  loadNetworkProperty (leaf "/castle/nodes/b/net/eth0/speed" "")
    (mkNetworkConfig "eth0" "" "" 1000)
  = ([], mkNetworkConfig "eth0" "" "" 0, Ok tt)
  /\ (exists n,
         NetworkAdapters
           (state_of (loadHardwareConfig "b" (Some (mkResponse (Some subtreeB)))
                        NodeConfig_zero)) !! 0%nat = Some n
         /\ NetSpeed n = 0 /\ Name n = "eth0")
  /\ loadProcessorProperty (leaf "/castle/nodes/b/cpu/0/speed" "") ProcessorConfig_zero
     = ([], ProcessorConfig_zero, Err (NumError "ParseFloat" "" ErrSyntax)).
Proof.
  destruct (@empty_speed_text sample_env) as (Hstep & _ & Hdecode & Hproc & _).
  split; [apply Hstep; reflexivity|]. split; [|apply Hproc; reflexivity].
  destruct (Hdecode "b" subtreeB [cpuB; memB] netB [disksB; ipB] [] eth0 []
              [] (leaf "/castle/nodes/b/net/eth0/speed" "")
              [leaf "/castle/nodes/b/net/eth0/ipv4address" "1.2.3.4"] NodeConfig_zero)
    as [_ Hentry]; try reflexivity.
  apply Hentry.
  - vm_compute. reflexivity.
  - intros c Hc. apply list_elem_of_In in Hc. vm_compute in Hc.
    destruct Hc as [<-|[<-|[]]]; vm_compute; discriminate.
  - intros q Hq. apply list_elem_of_In in Hq. vm_compute in Hq.
    destruct Hq as [<-|[]]. vm_compute. discriminate.
Defined.



End MoreSamples.
